(** * RSVP reader: word stream, timing, document structure, position
    mapping, session storage and playback orchestration

    A shallow embedding of the JavaScript sources

      - [src/lib/rsvp-utils.js]            (module [RsvpUtils])
      - [src/lib/content-utils.js]         (module [ContentUtils])
      - [src/lib/file-parsers.js]          (module [FileParsers])
      - [src/lib/epub-structure-parser.js] (module [EpubStructureParser])
      - [src/lib/progress-storage.js] and
        [src/lib/indexed-db-storage.js]    (module [ProgressStorage])
      - [src/App.svelte]                   (module [App])

    Conventions of the embedding.

    - A JavaScript string is the list of its UTF-16 code units
      ([jsstring := list N]); [String.prototype.length] is [length],
      [s[i]] is list lookup.  Regular expressions with the [u] flag read
      the string code point by code point, so surrogate pairs are decoded
      where the source uses such an expression.
    - JavaScript numbers that hold word indices and counts are [Z] or [nat];
      numbers that hold delays and percentages are rationals [Q].  Where
      a result is cut to an integer ([Math.floor] in
      [getWordIndexFromScroll], [Math.ceil] in [formatTimeRemaining]) the
      rounding of the double operations before the cut decides the result,
      and the operations are those of module [JsNumber]: the exact result
      rounded to 53 significant bits.  Elsewhere the arithmetic is
      exact.
    - Mutable component state is a record that each function transforms;
      timers, storage backends and the clock are explicit fields of it.

    The first part of the file holds the definitions, the second part the
    properties proved about them. *)

From stdpp Require Import base list strings gmap.
From Stdlib Require Import Ascii DecimalString QArith Qround Qminmax Qpower Lia
  Lqa.

Close Scope Q_scope.
Local Open Scope nat_scope.

(* ===================================================================== *)
(** * Part I: definitions                                                 *)
(* ===================================================================== *)

(** ** JavaScript strings *)

Module JsString.

Definition code_unit := N.
Definition jsstring := list N.

(** ASCII literals: every byte of an ASCII [string] is one code unit. *)
Fixpoint js (s : string) : jsstring :=
  match s with
  | EmptyString => []
  | String c s' => Ascii.N_of_ascii c :: js s'
  end.

Definition LF : N := 10%N.
(** U+27E9, the first-word-after-break marker. *)
Definition MARKER : N := 10217%N.

(** The class [\s] of ECMAScript regular expressions, which is also what
    [String.prototype.trim] strips: WhiteSpace and LineTerminator. *)
Definition is_whitespace (c : N) : bool :=
  ((9 <=? c) && (c <=? 13) || (c =? 32) || (c =? 160) || (c =? 5760)
   || (8192 <=? c) && (c <=? 8202) || (c =? 8232) || (c =? 8233)
   || (c =? 8239) || (c =? 8287) || (c =? 12288) || (c =? 65279))%N.

Fixpoint trimStart (s : jsstring) : jsstring :=
  match s with
  | [] => []
  | c :: s' => if is_whitespace c then trimStart s' else s
  end.

Definition trimEnd (s : jsstring) : jsstring := rev (trimStart (rev s)).

Definition trim (s : jsstring) : jsstring := trimEnd (trimStart s).

Definition cons_head (c : N) (pieces : list jsstring) : list jsstring :=
  match pieces with
  | [] => [[c]]
  | p :: ps => (c :: p) :: ps
  end.

(** [s.split(sep)] for a one-character separator. *)
Fixpoint split_on (sep : N) (s : jsstring) : list jsstring :=
  match s with
  | [] => [[]]
  | c :: s' =>
      if (c =? sep)%N then [] :: split_on sep s'
      else cons_head c (split_on sep s')
  end.

(** [s.split(/\s+/)]: the pieces between maximal runs of whitespace.
    [skipping] is true while inside such a run. *)
Fixpoint split_ws_from (skipping : bool) (s : jsstring) : list jsstring :=
  match s with
  | [] => [[]]
  | c :: s' =>
      if is_whitespace c then
        if skipping then split_ws_from true s'
        else [] :: split_ws_from true s'
      else cons_head c (split_ws_from false s')
  end.

Definition split_ws (s : jsstring) : list jsstring := split_ws_from false s.

Definition jsstring_eqb (a b : jsstring) : bool := bool_decide (a = b).

(** [word.startsWith('⟩')] *)
Definition startsWithMarker (word : jsstring) : bool :=
  match word with
  | c :: _ => (c =? MARKER)%N
  | [] => false
  end.

(** [word.substring(1)] *)
Definition substring1 (word : jsstring) : jsstring := drop 1 word.

(** [word.startsWith('⟩') ? word.substring(1) : word] *)
Definition stripMarker (word : jsstring) : jsstring :=
  if startsWithMarker word then substring1 word else word.

(** *** Code points, as a [u]-flag regular expression sees them *)

Definition is_high_surrogate (c : N) : bool := ((55296 <=? c) && (c <=? 56319))%N.
Definition is_low_surrogate (c : N) : bool := ((56320 <=? c) && (c <=? 57343))%N.

Definition combine_surrogates (h l : N) : N :=
  (65536 + (h - 55296) * 1024 + (l - 56320))%N.

(** A well-formed surrogate pair is one code point; every other code unit,
    a lone surrogate included, is a code point by itself. *)
Fixpoint code_points (s : jsstring) : list N :=
  match s with
  | [] => []
  | h :: t =>
      match t with
      | l :: rest =>
          if is_high_surrogate h && is_low_surrogate l
          then combine_surrogates h l :: code_points rest
          else h :: code_points t
      | [] => [h]
      end
  end.

(** Number of code units that encode a code point. *)
Definition utf16_width (cp : N) : nat := if (cp <? 65536)%N then 1 else 2.

Definition utf16_length (cps : list N) : nat :=
  foldr (fun cp n => utf16_width cp + n) 0 cps.

(** *** Slices and indexing, for strings and arrays alike *)

(** How [slice] reads a bound: a negative bound counts from the end, and
    every bound is clamped into the array. *)
Definition sliceIndex (len : nat) (i : Z) : nat :=
  if (i <? 0)%Z then Z.to_nat (Z.max (Z.of_nat len + i) 0)
  else Nat.min (Z.to_nat i) len.

(** [arr.slice(from, to)] *)
Definition jsSlice {A} (arr : list A) (from to : Z) : list A :=
  let a := sliceIndex (length arr) from in
  let b := sliceIndex (length arr) to in
  take (b - a) (drop a arr).

(** [arr.slice(from)] *)
Definition jsSliceFrom {A} (arr : list A) (from : Z) : list A :=
  drop (sliceIndex (length arr) from) arr.

(** [arr[i]], [None] for [undefined]. *)
Definition at_ {A} (arr : list A) (i : Z) : option A :=
  if (i <? 0)%Z then None else arr !! Z.to_nat i.

(** [n.toString()] for an integer. *)
Definition decimal (n : Z) : jsstring :=
  js (NilEmpty.string_of_int (Z.to_int n)).

(** [s.padStart(2, '0')] *)
Definition padStart2 (s : jsstring) : jsstring :=
  replicate (2 - length s) 48%N ++ s.

End JsString.

Import JsString.

(** ** JavaScript numbers: the arithmetic of doubles *)

Module JsNumber.

(** A double is the rational it stands for.  An operation gives the exact
    result rounded to the nearest number with 53 significant bits, ties to
    the even significand.  Overflow, subnormal numbers, NaN, the sign of
    zero and division by zero are not modelled: the numbers here are word
    counts, percentages and seconds, and the divisors are 100 and a
    positive reading speed. *)

(** Round to the nearest integer, ties to the even one. *)
Definition roundHalfEven (x : Q) : Z :=
  let f := Qfloor x in
  match (x - inject_Z f ?= 1 # 2)%Q with
  | Lt => f
  | Gt => (f + 1)%Z
  | Eq => if Z.even f then f else (f + 1)%Z
  end.

(** The binary exponent of a positive number: [2^e <= x < 2^(e+1)]. *)
Definition binade (x : Q) : Z :=
  let k := (Z.log2 (Qnum x) - Z.log2 (Z.pos (Qden x)))%Z in
  if Qle_bool (2 ^ k) x then k else (k - 1)%Z.

(** The nearest number with 53 significant bits, for a positive one. *)
Definition roundPositive (x : Q) : Q :=
  let q := (binade x - 52)%Z in
  (inject_Z (roundHalfEven (x / 2 ^ q)) * 2 ^ q)%Q.

Definition round (x : Q) : Q :=
  match (x ?= 0)%Q with
  | Eq => 0%Q
  | Gt => roundPositive x
  | Lt => (- roundPositive (- x))%Q
  end.

Definition mul (x y : Q) : Q := round (x * y).
Definition div (x y : Q) : Q := round (x / y).

End JsNumber.

(** ** src/lib/rsvp-utils.js *)

Module RsvpUtils.

(** The break token ['\n'] that [parseText] pushes between paragraphs. *)
Definition BREAK : jsstring := [LF].

(** [lineWords[0] = '⟩' + lineWords[0]] *)
Definition markFirst (lineWords : list jsstring) : list jsstring :=
  match lineWords with
  | [] => []
  | w :: ws => (MARKER :: w) :: ws
  end.

(** [line.split(/\s+/).filter(w => w.length > 0)] *)
Definition lineWordsOf (line : jsstring) : list jsstring :=
  List.filter (fun w => 0 <? length w) (split_ws line).

(** The body of the [for] loop of [parseText] over [lines], with the
    array [words] built so far. *)
Fixpoint parseLines (lines : list jsstring) (words : list jsstring)
  : list jsstring :=
  match lines with
  | [] => words
  | l :: rest =>
      let line := trim l in
      if length line =? 0 then parseLines rest words
      else
        let lineWords := lineWordsOf line in
        if (0 <? length words) && (0 <? length lineWords)
        then parseLines rest ((words ++ [BREAK]) ++ markFirst lineWords)
        else parseLines rest (words ++ lineWords)
  end.

Definition parseText (text : jsstring) : list jsstring :=
  if length text =? 0 then []
  else parseLines (split_on LF text) [].

Section Letters.

(** The Unicode property [\p{L}] is a table of the JavaScript engine,
    not of this repository: it is a parameter, a predicate on code
    points. *)
Variable is_letter : N -> bool.

(** [cleanWord.replace(/[^\p{L}]/gu, '')], as code points. *)
Definition lettersOnly (cleanWord : jsstring) : list N :=
  List.filter is_letter (code_points cleanWord).

Definition orpTable (len : nat) : nat :=
  if len <=? 1 then 0
  else if len <=? 3 then 0
  else if len <=? 5 then 1
  else if len <=? 9 then 2
  else if len <=? 11 then 3
  else if len <=? 14 then 4
  else if len <=? 17 then 5
  else 6.

Definition getORPIndex (word : jsstring) : nat :=
  if length word =? 0 then 0
  else
    let cleanWord := stripMarker word in
    let len := utf16_length (lettersOnly cleanWord) in
    orpTable len.

(** The [for] loop of [getActualORPIndex] from position [i] on, over the
    rest [s] of [cleanWord]; [None] when the loop ends without
    returning.  [unicodeLetterRegex.test(cleanWord[i])] sees one code
    unit. *)
Fixpoint orpScan (orpIndex : nat) (s : jsstring) (i letterCount : nat)
  : option nat :=
  match s with
  | [] => None
  | c :: s' =>
      if is_letter c then
        if letterCount =? orpIndex then Some i
        else orpScan orpIndex s' (S i) (S letterCount)
      else orpScan orpIndex s' (S i) letterCount
  end.

Definition getActualORPIndex (word : jsstring) : Z :=
  if length word =? 0 then 0%Z
  else
    let cleanWord := stripMarker word in
    let orpIndex := getORPIndex cleanWord in
    match orpScan orpIndex cleanWord 0 0 with
    | Some i => Z.of_nat i
    | None => Z.min (Z.of_nat orpIndex) (Z.of_nat (length cleanWord) - 1)
    end.

End Letters.

(** [/[.!?;:]$/.test(cleanWord)] *)
Definition endsWithSentencePunctuation (cleanWord : jsstring) : bool :=
  match last cleanWord with
  | Some c => ((c =? 46) || (c =? 33) || (c =? 63) || (c =? 59) || (c =? 58))%N
  | None => false
  end.

(** [/[,]$/.test(cleanWord)] *)
Definition endsWithComma (cleanWord : jsstring) : bool :=
  match last cleanWord with
  | Some c => (c =? 44)%N
  | None => false
  end.

Definition getWordDelay (word : jsstring) (wordsPerMinute : Q)
    (pauseOnPunctuation : bool)
    (punctuationMultiplier wordLengthWPMMultiplier lineBreakMultiplier : Q)
  : Q :=
  if length word =? 0 then (60000 / wordsPerMinute)%Q
  else if Qle_bool wordsPerMinute 0 then 200%Q
  else
    let baseDelay := (60000 / wordsPerMinute)%Q in
    if jsstring_eqb word BREAK then (baseDelay * lineBreakMultiplier)%Q
    else
      let isFirstAfterBreak := startsWithMarker word in
      let cleanWord := if isFirstAfterBreak then substring1 word else word in
      let baseDelay1 :=
        if isFirstAfterBreak then (baseDelay * (3 # 2))%Q else baseDelay in
      let baseDelay2 :=
        if negb (Qle_bool wordLengthWPMMultiplier 0) && (12 <=? length cleanWord)
        then (baseDelay1 *
              (1 + (wordLengthWPMMultiplier / 100)
                   * inject_Z (Z.of_nat (length cleanWord) - 12)))%Q
        else baseDelay1 in
      if pauseOnPunctuation then
        if endsWithSentencePunctuation cleanWord
        then (baseDelay2 * punctuationMultiplier)%Q
        else if endsWithComma cleanWord then (baseDelay2 * (3 # 2))%Q
        else baseDelay2
      else baseDelay2.

(** [shouldPauseAtWord(wordIndex, pauseAfterWords)] *)
Definition shouldPauseAtWord (wordIndex pauseAfterWords : Z) : bool :=
  if (pauseAfterWords <=? 0)%Z then false
  else if (wordIndex <=? 0)%Z then false
  else (wordIndex mod pauseAfterWords =? 0)%Z.

Section Display.

Variable is_letter : N -> bool.

Record WordParts := mkWordParts {
  before : jsstring;
  orp : jsstring;
  after : jsstring
}.

Definition splitWordForDisplay (word : jsstring) : WordParts :=
  if length word =? 0 then mkWordParts [] [] []
  else
    let cleanWord := stripMarker word in
    let orpIndex := getActualORPIndex is_letter cleanWord in
    mkWordParts
      (jsSlice cleanWord 0 orpIndex)
      (match at_ cleanWord orpIndex with Some c => [c] | None => [] end)
      (jsSliceFrom cleanWord (orpIndex + 1)).

End Display.

(** [formatTimeRemaining(remainingWords, wordsPerMinute)]: the quotient
    and the product are operations on doubles, [Math.ceil] is [Qceiling],
    [%] is [Z.rem]. *)
Definition formatTimeRemaining (remainingWords : Z) (wordsPerMinute : Q)
  : jsstring :=
  if (remainingWords <=? 0)%Z || Qle_bool wordsPerMinute 0 then js "0:00"
  else
    let seconds :=
      Qceiling (JsNumber.mul
                  (JsNumber.div (inject_Z remainingWords) wordsPerMinute) 60) in
    let mins := (seconds / 60)%Z in
    let secs := Z.rem seconds 60 in
    decimal mins ++ [58%N] ++ padStart2 (decimal secs).

(** [extractWordFrame(allWords, centerIdx, frameSize)]: the subset and the
    offset of the centre word in it. *)
Definition extractWordFrame (allWords : list jsstring)
    (centerIdx frameSize : Z) : list jsstring * Z :=
  if (frameSize <=? 1)%Z || (Z.of_nat (length allWords) <=? centerIdx)%Z then
    let word := default [] (at_ allWords centerIdx) in
    ([stripMarker word], 0%Z)
  else
    let radius := (frameSize / 2)%Z in
    let leftBound := Z.max 0 (centerIdx - radius) in
    let rightBound :=
      Z.min (Z.of_nat (length allWords)) (centerIdx + radius + 1) in
    let subset := map stripMarker (jsSlice allWords leftBound rightBound) in
    (subset, (centerIdx - leftBound)%Z).

End RsvpUtils.

(** ** The structured-document data model

    Shared by [file-parsers.js], [epub-structure-parser.js],
    [content-utils.js] and [App.svelte]. *)

Module Document.

(** Chapter ids and titles are template strings in the source; the
    templates are kept symbolic, literal text is a [jsstring]. *)
Inductive Label :=
| LabelText (s : jsstring)
| LabelPdfFrontMatter                 (* 'pdf-front-matter' / 'Front Matter' *)
| LabelPdfChapter (i : nat)           (* `pdf-chapter-${i}` *)
| LabelChapterN (n : nat)             (* `Chapter ${n}` *)
| LabelPdfPage (pageStart : nat)      (* `pdf-page-${pageStart}` *)
| LabelPage (pageStart : nat)         (* `Page ${pageStart}` *)
| LabelPages (pageStart pageEnd : nat) (* `Pages ${pageStart}-${pageEnd}` *)
| LabelFileName (fileName : jsstring). (* fileName.replace('.pdf', '') *)

Record Image := mkImage {
  src : jsstring;
  alt : jsstring;
  wordPosition : Z;
  unavailable : bool
}.

(** A chapter before its word boundaries are known.  [htmlContent] and
    [href] are presentation data that no function below reads; they are
    not carried. *)
Record RawChapter := mkRawChapter {
  rawId : Label;
  rawTitle : Label;
  rawLevel : nat;
  rawPlainText : jsstring;
  rawPages : option (nat * nat);      (* pageStart, pageEnd: PDF only *)
  rawImages : list Image
}.

Record Chapter := mkChapter {
  id : Label;
  title : Label;
  level : nat;
  plainText : jsstring;
  pages : option (nat * nat);
  startWordIndex : Z;
  endWordIndex : Z;
  wordCount : Z;
  chapterImages : list Image
}.

Record TocEntry := mkTocEntry {
  tocId : Label;
  tocTitle : Label;
  tocLevel : nat;
  chapterIndex : nat;
  tocWordCount : option Z;            (* EPUB only *)
  tocStartWordIndex : option Z        (* EPUB only *)
}.

(** [images] is absent from a structure restored from the small storage
    tier, which does not serialize it. *)
Record ContentStructure := mkContentStructure {
  chapters : list Chapter;
  toc : list TocEntry;
  hasStructure : bool;
  images : option (list Image)
}.

Record ParseResult := mkParseResult {
  text : jsstring;
  words : list jsstring;
  contentStructure : ContentStructure
}.

(** [pieces.join(sep)] *)
Fixpoint join (sep : jsstring) (pieces : list jsstring) : jsstring :=
  match pieces with
  | [] => []
  | [p] => p
  | p :: rest => p ++ sep ++ join sep rest
  end.

(** [arr.slice(from, to)] for non-negative bounds. *)
Definition slice {A} (from to : nat) (arr : list A) : list A :=
  take (to - from) (drop from arr).

(** [arr.findIndex(p)], [None] for -1. *)
Fixpoint findIndexFrom {A} (p : A -> bool) (arr : list A) (i : nat)
  : option nat :=
  match arr with
  | [] => None
  | x :: rest => if p x then Some i else findIndexFrom p rest (S i)
  end.

Definition findIndex {A} (p : A -> bool) (arr : list A) : option nat :=
  findIndexFrom p arr 0.

(** [arr.find(p)] *)
Fixpoint find {A} (p : A -> bool) (arr : list A) : option A :=
  match arr with
  | [] => None
  | x :: rest => if p x then Some x else find p rest
  end.

End Document.

Import Document.

(** ** src/lib/content-utils.js *)

Module ContentUtils.

Definition getChapterAtWordIndex (contentStructure : option ContentStructure)
    (wordIndex : Z) : nat :=
  match contentStructure with
  | None => 0
  | Some cs =>
      match findIndex
              (fun ch => (startWordIndex ch <=? wordIndex)%Z
                         && (wordIndex <? endWordIndex ch)%Z)
              (chapters cs) with
      | Some index => index
      | None => 0
      end
  end.

(** The quotient and the product under [Math.floor] are operations on
    doubles. *)
Definition getWordIndexFromScroll (chapter : option Chapter)
    (scrollPercentage : Q) : Z :=
  match chapter with
  | None => 0%Z
  | Some ch =>
      let chapterWordCount := (endWordIndex ch - startWordIndex ch)%Z in
      let offset :=
        Qfloor (JsNumber.mul (inject_Z chapterWordCount)
                  (JsNumber.div scrollPercentage 100)) in
      (startWordIndex ch + offset)%Z
  end.

Definition getScrollPercentageInChapter (chapter : option Chapter)
    (wordIndex : Z) : Q :=
  match chapter with
  | None => 0%Q
  | Some ch =>
      let offset := (wordIndex - startWordIndex ch)%Z in
      let total := (endWordIndex ch - startWordIndex ch)%Z in
      if (total =? 0)%Z then 0%Q
      else ((inject_Z offset / inject_Z total) * 100)%Q
  end.

Definition getChapterProgress (chapter : option Chapter) (wordIndex : Z)
  : Q :=
  match chapter with
  | None => 0%Q
  | Some ch =>
      let offset := Z.max 0 (wordIndex - startWordIndex ch) in
      let total := (endWordIndex ch - startWordIndex ch)%Z in
      if (total =? 0)%Z then 0%Q
      else Qmin 100 ((inject_Z offset / inject_Z total) * 100)%Q
  end.

Definition getNextChapterIndex (contentStructure : option ContentStructure)
    (currentChapterIndex : nat) : nat :=
  match contentStructure with
  | None => currentChapterIndex
  | Some cs =>
      let nextIndex := currentChapterIndex + 1 in
      if nextIndex <? length (chapters cs) then nextIndex
      else currentChapterIndex
  end.

(** [Math.max(0, currentChapterIndex - 1)] *)
Definition getPreviousChapterIndex (currentChapterIndex : nat) : nat :=
  Nat.max 0 (currentChapterIndex - 1).

End ContentUtils.

(** ** src/lib/file-parsers.js: the PDF path

    The byte-level decoder (pdf.js) is outside the repository.  Its output
    is the input here: the text of each page ([pageTexts], already trimmed)
    and the outline, each entry with the page index that
    [pdf.getPageIndex] resolves its destination to. *)

Module FileParsers.

Import RsvpUtils.

Record OutlineItem := mkOutlineItem {
  outlineTitle : option jsstring;     (* [None] for a missing or empty title *)
  outlinePageIndex : option nat       (* [None] when the destination does not resolve *)
}.

Definition NLNL : jsstring := [LF; LF].

(** [getOutlinePageNumber]: the resolved page index plus one, 1 by
    default. *)
Definition getOutlinePageNumber (item : OutlineItem) : nat :=
  match outlinePageIndex item with
  | Some pageIndex => pageIndex + 1
  | None => 1
  end.

(** The [for] loop of [buildChaptersFromOutline] from entry [i] on. *)
Fixpoint outlineChapters (pageTexts : list jsstring)
    (items : list OutlineItem) (i : nat) : list RawChapter :=
  match items with
  | [] => []
  | item :: rest =>
      let pageNum := getOutlinePageNumber item in
      let nextPageNum :=
        match rest with
        | next :: _ => getOutlinePageNumber next
        | [] => length pageTexts + 1
        end in
      let chapterText := join NLNL (slice (pageNum - 1) (nextPageNum - 1) pageTexts) in
      mkRawChapter (LabelPdfChapter i)
        (match outlineTitle item with
         | Some t => LabelText t
         | None => LabelChapterN (i + 1)
         end)
        1 chapterText (Some (pageNum, nextPageNum - 1)) []
      :: outlineChapters pageTexts rest (S i)
  end.

Definition buildChaptersFromOutline (outline : list OutlineItem)
    (pageTexts : list jsstring) : list RawChapter :=
  let firstOutlinePageNum :=
    match outline with
    | first :: _ => getOutlinePageNumber first
    | [] => 1
    end in
  let frontMatter :=
    if 1 <? firstOutlinePageNum then
      let frontMatterText :=
        join NLNL (slice 0 (firstOutlinePageNum - 1) pageTexts) in
      [mkRawChapter LabelPdfFrontMatter LabelPdfFrontMatter 1
         frontMatterText (Some (1, firstOutlinePageNum - 1)) []]
    else [] in
  frontMatter ++ outlineChapters pageTexts outline 0.

(** [Math.ceil(n / Math.max(1, Math.floor(n / 10)))] *)
Definition chunkSizeFor (n : nat) : nat :=
  let d := Nat.max 1 (n / 10) in
  (n + d - 1) / d.

(** The [for (i = 0; i < pageTexts.length; i += chunkSize)] loop; [fuel]
    bounds the number of iterations. *)
Fixpoint pageChunks (fuel : nat) (pageTexts : list jsstring)
    (chunkSize i : nat) : list RawChapter :=
  match fuel with
  | 0 => []
  | S fuel' =>
      if i <? length pageTexts then
        let endIdx := Nat.min (i + chunkSize) (length pageTexts) in
        let chapterText := join NLNL (slice i endIdx pageTexts) in
        let pageStart := i + 1 in
        let pageEnd := endIdx in
        mkRawChapter (LabelPdfPage pageStart)
          (if length pageTexts <=? 20 then LabelPage pageStart
           else LabelPages pageStart pageEnd)
          1 chapterText (Some (pageStart, pageEnd)) []
        :: pageChunks fuel' pageTexts chunkSize (i + chunkSize)
      else []
  end.

Definition buildPageBasedChapters (pageTexts : list jsstring)
    (fileName : jsstring) : list RawChapter :=
  let chunkSize := chunkSizeFor (length pageTexts) in
  let chapters := pageChunks (length pageTexts) pageTexts chunkSize 0 in
  match chapters with
  | [c] => [mkRawChapter (rawId c) (LabelFileName fileName) (rawLevel c)
              (rawPlainText c) (rawPages c) (rawImages c)]
  | _ => chapters
  end.

(** The [for] loop of [calculateWordBoundaries], with the running
    [currentWordIndex].  The parameter [words] of the source function is
    not read by its body. *)
Fixpoint boundariesFrom (chapters : list RawChapter) (currentWordIndex : Z)
  : list Chapter :=
  match chapters with
  | [] => []
  | chapter :: rest =>
      let chapterWords := parseText (rawPlainText chapter) in
      let startWordIndex := currentWordIndex in
      let endWordIndex :=
        (currentWordIndex + Z.of_nat (length chapterWords))%Z in
      mkChapter (rawId chapter) (rawTitle chapter) (rawLevel chapter)
        (rawPlainText chapter) (rawPages chapter)
        startWordIndex endWordIndex (Z.of_nat (length chapterWords))
        (rawImages chapter)
      :: boundariesFrom rest endWordIndex
  end.

Definition calculateWordBoundaries (chapters : list RawChapter)
    (words : list jsstring) : list Chapter :=
  boundariesFrom chapters 0.

Definition buildTOCFromChapters (chapters : list RawChapter)
  : list TocEntry :=
  imap (fun index chapter =>
          mkTocEntry (rawId chapter) (rawTitle chapter) (rawLevel chapter)
            index None None) chapters.

(** [parsePDFWithStructure], after the decoder has produced the page
    texts and the outline ([None] when the document has none). *)
Definition parsePDFWithStructure (pageTexts : list jsstring)
    (outline : option (list OutlineItem)) (fileName : jsstring)
  : ParseResult :=
  let hasOutline :=
    match outline with
    | Some (_ :: _) => true
    | _ => false
    end in
  let chapters :=
    match outline with
    | Some (item :: items) =>
        buildChaptersFromOutline (item :: items) pageTexts
    | _ => buildPageBasedChapters pageTexts fileName
    end in
  let toc := buildTOCFromChapters chapters in
  let fullText := join NLNL pageTexts in
  let words := parseText fullText in
  let chaptersWithBoundaries := calculateWordBoundaries chapters words in
  mkParseResult fullText words
    (mkContentStructure chaptersWithBoundaries toc hasOutline (Some [])).

End FileParsers.

(** ** src/lib/epub-structure-parser.js: the EPUB path

    [extractTOC] and [extractChapters] read the book through epubjs and the
    DOM; their result, the chapter list with plain text and chapter-relative
    image positions, is the input here. *)

Module EpubStructureParser.

Import RsvpUtils.

Definition globalImage (startWordIndex : Z) (img : Image) : Image :=
  mkImage (src img) (alt img) (startWordIndex + wordPosition img)%Z
    (unavailable img).

(** The loop of [buildWordBoundaries] with its four accumulators. *)
Fixpoint buildLoop (chapters : list RawChapter)
    (allWords : list jsstring) (chaptersWithBoundaries : list Chapter)
    (allImages : list Image) (currentWordIndex : Z)
  : list jsstring * list Chapter * list Image :=
  match chapters with
  | [] => (allWords, chaptersWithBoundaries, allImages)
  | chapter :: rest =>
      let chapterWords := parseText (rawPlainText chapter) in
      let startWordIndex := currentWordIndex in
      let endWordIndex :=
        (currentWordIndex + Z.of_nat (length chapterWords))%Z in
      let globalImages := map (globalImage startWordIndex) (rawImages chapter) in
      buildLoop rest
        (allWords ++ chapterWords)
        (chaptersWithBoundaries ++
           [mkChapter (rawId chapter) (rawTitle chapter) (rawLevel chapter)
              (rawPlainText chapter) (rawPages chapter)
              startWordIndex endWordIndex (Z.of_nat (length chapterWords))
              globalImages])
        (allImages ++ globalImages)
        endWordIndex
  end.

Definition buildWordBoundaries (chapters : list RawChapter)
  : list jsstring * list Chapter * list Image :=
  buildLoop chapters [] [] [] 0.

Definition flattenTOC (chapters : list Chapter) : list TocEntry :=
  imap (fun index chapter =>
          mkTocEntry (id chapter) (title chapter) (level chapter) index
            (Some (wordCount chapter)) (Some (startWordIndex chapter)))
       chapters.

(** [parseEPUBWithStructure], after [extractTOC] and [extractChapters];
    [tocLength] is [tocData.length]. *)
Definition parseEPUBWithStructure (chapters : list RawChapter)
    (tocLength : nat) : ParseResult :=
  let '(words, chaptersWithBoundaries, images) :=
    buildWordBoundaries chapters in
  let flatTOC := flattenTOC chaptersWithBoundaries in
  mkParseResult (join [32%N] words) words
    (mkContentStructure chaptersWithBoundaries flatTOC (0 <? tocLength)
       (Some images)).

End EpubStructureParser.

(** ** src/lib/progress-storage.js and src/lib/indexed-db-storage.js

    The two storage tiers are state: [localStorage] is a finite map from
    keys to strings whose [setItem] can throw, IndexedDB holds at most one
    record under its session key.  Every access to a backend is appended to
    a log, so that what a function touches can be stated. *)

Module ProgressStorage.

Definition STORAGE_KEY : string := "rsvp-reading-session".
Definition USE_INDEXEDDB_KEY : string := "rsvp-use-indexeddb".
Definition TEST_KEY : string := "__localStorage_test__".

(** What [localStorage.setItem] does: store the value, throw a
    [QuotaExceededError], or throw something else. *)
Inductive SetOutcome := SetOk | SetQuotaExceeded | SetOtherError.

Inductive Op :=
| LsGetItem (key : string)
| LsSetItem (key : string)
| LsRemoveItem (key : string)
| IdbPut
| IdbGet.

(** What [saveSession] gives its caller: a boolean, the promise of a
    boolean (the large tier is asynchronous), or an exception. *)
Inductive SaveResult :=
| ReturnsBool (b : bool)
| ReturnsPromise (b : bool)
| Throws.

Section Store.

(** The session object of the caller. *)
Variable Session : Type.
(** [JSON.stringify(data)] of the lightweight projection of the session,
    stamped with [savedAt]. *)
Variable serialize : Session -> Z -> string.
(** [new Blob([serialized]).size], in bytes. *)
Variable blobSize : string -> N.
(** [JSON.parse]; [None] when it throws. *)
Variable Parsed : Type.
Variable jsonParse : string -> option Parsed.
(** The quota policy of the small tier: the outcome of writing a value
    under a key into a given store. *)
Variable lsPolicy : gmap string string -> string -> string -> SetOutcome.

Record World := mkWorld {
  ls : gmap string string;          (* localStorage *)
  idb : option (Session * Z);       (* the IndexedDB record: {...session, savedAt} *)
  idbWorks : bool;                  (* whether IndexedDB requests succeed *)
  now : Z;                          (* Date.now() *)
  log : list Op
}.

Definition logged (op : Op) (w : World) : World :=
  mkWorld (ls w) (idb w) (idbWorks w) (now w) (log w ++ [op]).

Definition getItem (key : string) (w : World) : option string * World :=
  (ls w !! key, logged (LsGetItem key) w).

Definition setItem (key value : string) (w : World) : SetOutcome * World :=
  let w1 := logged (LsSetItem key) w in
  match lsPolicy (ls w) key value with
  | SetOk =>
      (SetOk, mkWorld (<[key := value]> (ls w1)) (idb w1) (idbWorks w1)
                (now w1) (log w1))
  | failure => (failure, w1)
  end.

Definition removeItem (key : string) (w : World) : World :=
  let w1 := logged (LsRemoveItem key) w in
  mkWorld (delete key (ls w1)) (idb w1) (idbWorks w1) (now w1) (log w1).

(** [saveSessionToIndexedDB]: the promise resolves to [true] when the
    put succeeds and to [false] when anything throws. *)
Definition saveSessionToIndexedDB (session : Session) (w : World)
  : bool * World :=
  let w1 := logged IdbPut w in
  if idbWorks w1 then
    (true, mkWorld (ls w1) (Some (session, now w1)) (idbWorks w1)
             (now w1) (log w1))
  else (false, w1).

(** [loadSessionFromIndexedDB]: the record, or [null]. *)
Definition loadSessionFromIndexedDB (w : World)
  : option (Session * Z) * World :=
  let w1 := logged IdbGet w in
  if idbWorks w1 then (idb w1, w1) else (None, w1).

Definition TWO_MB : N := (2 * 1024 * 1024)%N.

(** [localStorage.setItem(USE_INDEXEDDB_KEY, 'true'); return
    saveSessionToIndexedDB(session)], outside any [try]: an exception of
    the flag write leaves [saveSession]. *)
Definition switchToIndexedDB (session : Session) (w : World)
  : SaveResult * World :=
  match setItem USE_INDEXEDDB_KEY "true" w with
  | (SetOk, w1) =>
      let '(ok, w2) := saveSessionToIndexedDB session w1 in
      (ReturnsPromise ok, w2)
  | (_, w1) => (Throws, w1)
  end.

(** The [catch (error)] block of the second [try] of [saveSession]. *)
Definition onSaveError (error : SetOutcome) (session : Session)
    (w : World) : SaveResult * World :=
  match error with
  | SetQuotaExceeded => switchToIndexedDB session w
  | _ => (ReturnsBool false, w)
  end.

Definition saveSession (session : Session) (w : World)
  : SaveResult * World :=
  let '(flag, w1) := getItem USE_INDEXEDDB_KEY w in
  if bool_decide (flag = Some "true") then
    let '(ok, w2) := saveSessionToIndexedDB session w1 in
    (ReturnsPromise ok, w2)
  else
    match setItem TEST_KEY "test" w1 with
    | (SetOk, w2) =>
        let w3 := removeItem TEST_KEY w2 in
        let serialized := serialize session (now w3) in
        if (TWO_MB <? blobSize serialized)%N then
          (* inside the try: a throwing flag write reaches the catch *)
          match setItem USE_INDEXEDDB_KEY "true" w3 with
          | (SetOk, w4) =>
              let '(ok, w5) := saveSessionToIndexedDB session w4 in
              (ReturnsPromise ok, w5)
          | (error, w4) => onSaveError error session w4
          end
        else
          match setItem STORAGE_KEY serialized w3 with
          | (SetOk, w4) => (ReturnsBool true, w4)
          | (error, w4) => onSaveError error session w4
          end
    | (_, w2) => switchToIndexedDB session w2
    end.

(** What [loadSession] resolves to: the IndexedDB record, the parsed
    small-tier text, or [null]. *)
Inductive Loaded :=
| LoadedRecord (record : Session * Z)
| LoadedParsed (data : Parsed).

Definition fromIndexedDB (w : World) : option Loaded * World :=
  let '(record, w1) := loadSessionFromIndexedDB w in
  (LoadedRecord <$> record, w1).

Definition loadSession (w : World) : option Loaded * World :=
  let '(flag, w1) := getItem USE_INDEXEDDB_KEY w in
  if bool_decide (flag = Some "true") then fromIndexedDB w1
  else
    let '(data, w2) := getItem STORAGE_KEY w1 in
    match data with
    | None => fromIndexedDB w2
    | Some text =>
        if bool_decide (text = EmptyString) then fromIndexedDB w2
        else
          match jsonParse text with
          | Some parsed => (Some (LoadedParsed parsed), w2)
          | None => fromIndexedDB w2
          end
    end.

(** [hasSessionInIndexedDB]: whether a record is stored; [false] when the
    request fails. *)
Definition hasSessionInIndexedDB (w : World) : bool * World :=
  let w1 := logged IdbGet w in
  if idbWorks w1 then (bool_decide (is_Some (idb w1)), w1) else (false, w1).

(** [clearSessionFromIndexedDB]: delete the record; [false] when the
    request fails.  The log type holds gets and puts: the delete is not
    logged. *)
Definition clearSessionFromIndexedDB (w : World) : bool * World :=
  if idbWorks w then
    (true, mkWorld (ls w) None (idbWorks w) (now w) (log w))
  else (false, w).

Definition hasSession (w : World) : bool * World :=
  let '(data, w1) := getItem STORAGE_KEY w in
  if bool_decide (is_Some data) then (true, w1)
  else hasSessionInIndexedDB w1.

(** Whether [localStorage.removeItem] goes through in a given store, or
    throws. *)
Variable lsRemoves : gmap string string -> string -> bool.

(** [localStorage.removeItem(key)] inside a [try]: whether it went
    through, and the state after it. *)
Definition tryRemoveItem (key : string) (w : World) : bool * World :=
  if lsRemoves (ls w) key then (true, removeItem key w)
  else (false, logged (LsRemoveItem key) w).

(** [clearSession]: [success] becomes false when a [removeItem] throws,
    and the second removal is then skipped.  [clearSessionFromIndexedDB]
    catches its own errors and returns [false], which is not read: the
    second [catch] block is never entered. *)
Definition clearSession (w : World) : bool * World :=
  let '(success, w2) :=
    match tryRemoveItem STORAGE_KEY w with
    | (true, w1) => tryRemoveItem USE_INDEXEDDB_KEY w1
    | (false, w1) => (false, w1)
    end in
  let '(_, w3) := clearSessionFromIndexedDB w2 in
  (success, w3).

End Store.

Arguments mkWorld {Session}.
Arguments ls {Session}.
Arguments idb {Session}.
Arguments idbWorks {Session}.
Arguments now {Session}.
Arguments log {Session}.
Arguments LoadedRecord {Session Parsed}.
Arguments LoadedParsed {Session Parsed}.

(** [percentageToWordIndex(percentage, totalWords)] *)
Definition percentageToWordIndex (percentage : Q) (totalWords : Z) : Z :=
  if (totalWords <=? 0)%Z then 0%Z
  else
    let clamped := Qmax 0 (Qmin 100 percentage) in
    Qfloor ((clamped / 100) * inject_Z totalWords)%Q.

(** [Math.round(x)] is [floor(x + 1/2)]. *)
Definition mathRound (x : Q) : Z := Qfloor (x + (1 # 2))%Q.

(** [wordIndexToPercentage(wordIndex, totalWords)] *)
Definition wordIndexToPercentage (wordIndex totalWords : Z) : Z :=
  if (totalWords <=? 0)%Z then 0%Z
  else mathRound ((inject_Z wordIndex / inject_Z totalWords) * 100)%Q.

End ProgressStorage.

(** ** src/App.svelte: the playback orchestrator

    The component's [let] variables are the fields of [AppState].  Timers
    created with [setTimeout] and [setInterval] are data: a list of pending
    timers, each with the callback it will run.  [saveSession] belongs to
    the storage module; a call to it is recorded in [saved] with the session
    object it was given. *)

Module App.

Inductive ReadingMode := rsvp | reader.

Definition ReadingMode_eqb (a b : ReadingMode) : bool :=
  match a, b with
  | rsvp, rsvp | reader, reader => true
  | _, _ => false
  end.

Record Settings := mkSettings {
  wordsPerMinute : Q;
  fadeEnabled : bool;
  fadeDuration : Q;
  pauseAfterWords : Z;
  pauseDuration : Q;
  pauseOnPunctuation : bool;
  punctuationPauseMultiplier : Q;
  lineBreakPauseMultiplier : Q;
  wordLengthWPMMultiplier : Q;
  frameWordCount : Z;
  showImagesInRSVP : bool;
  imageDurationSeconds : Q
}.

(** The callbacks that the component hands to [setTimeout] and
    [setInterval]. *)
Inductive Callback :=
| CbShowNextWord          (* setTimeout(showNextWord, delay) *)
| CbFadeIn                (* () => { wordOpacity = 1 } *)
| CbPeriodicResume        (* the resume after a periodic pause *)
| CbImageResume           (* the resume after an image *)
| CbAutoSave.             (* the auto-save interval *)

Record Timer := mkTimer {
  timerId : nat;
  callback : Callback;
  delay : Q;
  repeating : bool
}.

(** The object that [saveCurrentSession] passes to [saveSession]. *)
Record Session := mkSession {
  sessionText : jsstring;
  sessionWordIndex : Z;
  sessionTotalWords : nat;
  sessionReadingMode : ReadingMode;
  sessionChapterIndex : nat;
  sessionScrollPosition : Q;
  sessionStructure : option ContentStructure;
  sessionSettings : Settings
}.

Record AppState := mkAppState {
  words : list jsstring;
  text : jsstring;
  currentWordIndex : Z;
  isPlaying : bool;
  isPaused : bool;
  showSettings : bool;
  showTextInput : bool;
  progress : Q;
  readingMode : ReadingMode;
  contentStructure : option ContentStructure;
  currentChapterIndex : nat;
  readerScrollPosition : Q;
  readerAutoScroll : bool;
  readerScrollIntervalId : option nat;
  highlightWordIndex : option Z;
  settings : Settings;
  wordOpacity : Q;
  intervalId : option nat;
  fadeTimeoutId : option nat;
  autoSaveIntervalId : option nat;
  currentImage : option Image;
  isShowingImage : bool;
  timers : list Timer;
  nextTimerId : nat;
  saved : list Session
}.

Definition set_words (v : list jsstring) (st : AppState) : AppState :=
  mkAppState
  v (text st) (currentWordIndex st) (isPlaying st) (isPaused st)
    (showSettings st) (showTextInput st) (progress st) (readingMode st)
    (contentStructure st) (currentChapterIndex st)
    (readerScrollPosition st) (readerAutoScroll st)
    (readerScrollIntervalId st) (highlightWordIndex st) (settings st)
    (wordOpacity st) (intervalId st) (fadeTimeoutId st)
    (autoSaveIntervalId st) (currentImage st) (isShowingImage st)
    (timers st) (nextTimerId st) (saved st).

Definition set_text (v : jsstring) (st : AppState) : AppState :=
  mkAppState
  (words st) v (currentWordIndex st) (isPlaying st) (isPaused st)
    (showSettings st) (showTextInput st) (progress st) (readingMode st)
    (contentStructure st) (currentChapterIndex st)
    (readerScrollPosition st) (readerAutoScroll st)
    (readerScrollIntervalId st) (highlightWordIndex st) (settings st)
    (wordOpacity st) (intervalId st) (fadeTimeoutId st)
    (autoSaveIntervalId st) (currentImage st) (isShowingImage st)
    (timers st) (nextTimerId st) (saved st).

Definition set_currentWordIndex (v : Z) (st : AppState) : AppState :=
  mkAppState
  (words st) (text st) v (isPlaying st) (isPaused st) (showSettings st)
    (showTextInput st) (progress st) (readingMode st)
    (contentStructure st) (currentChapterIndex st)
    (readerScrollPosition st) (readerAutoScroll st)
    (readerScrollIntervalId st) (highlightWordIndex st) (settings st)
    (wordOpacity st) (intervalId st) (fadeTimeoutId st)
    (autoSaveIntervalId st) (currentImage st) (isShowingImage st)
    (timers st) (nextTimerId st) (saved st).

Definition set_isPlaying (v : bool) (st : AppState) : AppState :=
  mkAppState
  (words st) (text st) (currentWordIndex st) v (isPaused st)
    (showSettings st) (showTextInput st) (progress st) (readingMode st)
    (contentStructure st) (currentChapterIndex st)
    (readerScrollPosition st) (readerAutoScroll st)
    (readerScrollIntervalId st) (highlightWordIndex st) (settings st)
    (wordOpacity st) (intervalId st) (fadeTimeoutId st)
    (autoSaveIntervalId st) (currentImage st) (isShowingImage st)
    (timers st) (nextTimerId st) (saved st).

Definition set_isPaused (v : bool) (st : AppState) : AppState :=
  mkAppState
  (words st) (text st) (currentWordIndex st) (isPlaying st) v
    (showSettings st) (showTextInput st) (progress st) (readingMode st)
    (contentStructure st) (currentChapterIndex st)
    (readerScrollPosition st) (readerAutoScroll st)
    (readerScrollIntervalId st) (highlightWordIndex st) (settings st)
    (wordOpacity st) (intervalId st) (fadeTimeoutId st)
    (autoSaveIntervalId st) (currentImage st) (isShowingImage st)
    (timers st) (nextTimerId st) (saved st).

Definition set_showSettings (v : bool) (st : AppState) : AppState :=
  mkAppState
  (words st) (text st) (currentWordIndex st) (isPlaying st) (isPaused st)
    v (showTextInput st) (progress st) (readingMode st)
    (contentStructure st) (currentChapterIndex st)
    (readerScrollPosition st) (readerAutoScroll st)
    (readerScrollIntervalId st) (highlightWordIndex st) (settings st)
    (wordOpacity st) (intervalId st) (fadeTimeoutId st)
    (autoSaveIntervalId st) (currentImage st) (isShowingImage st)
    (timers st) (nextTimerId st) (saved st).

Definition set_showTextInput (v : bool) (st : AppState) : AppState :=
  mkAppState
  (words st) (text st) (currentWordIndex st) (isPlaying st) (isPaused st)
    (showSettings st) v (progress st) (readingMode st)
    (contentStructure st) (currentChapterIndex st)
    (readerScrollPosition st) (readerAutoScroll st)
    (readerScrollIntervalId st) (highlightWordIndex st) (settings st)
    (wordOpacity st) (intervalId st) (fadeTimeoutId st)
    (autoSaveIntervalId st) (currentImage st) (isShowingImage st)
    (timers st) (nextTimerId st) (saved st).

Definition set_progress (v : Q) (st : AppState) : AppState :=
  mkAppState
  (words st) (text st) (currentWordIndex st) (isPlaying st) (isPaused st)
    (showSettings st) (showTextInput st) v (readingMode st)
    (contentStructure st) (currentChapterIndex st)
    (readerScrollPosition st) (readerAutoScroll st)
    (readerScrollIntervalId st) (highlightWordIndex st) (settings st)
    (wordOpacity st) (intervalId st) (fadeTimeoutId st)
    (autoSaveIntervalId st) (currentImage st) (isShowingImage st)
    (timers st) (nextTimerId st) (saved st).

Definition set_readingMode (v : ReadingMode) (st : AppState) : AppState :=
  mkAppState
  (words st) (text st) (currentWordIndex st) (isPlaying st) (isPaused st)
    (showSettings st) (showTextInput st) (progress st) v
    (contentStructure st) (currentChapterIndex st)
    (readerScrollPosition st) (readerAutoScroll st)
    (readerScrollIntervalId st) (highlightWordIndex st) (settings st)
    (wordOpacity st) (intervalId st) (fadeTimeoutId st)
    (autoSaveIntervalId st) (currentImage st) (isShowingImage st)
    (timers st) (nextTimerId st) (saved st).

Definition set_contentStructure (v : option ContentStructure) (st : AppState) : AppState :=
  mkAppState
  (words st) (text st) (currentWordIndex st) (isPlaying st) (isPaused st)
    (showSettings st) (showTextInput st) (progress st) (readingMode st) v
    (currentChapterIndex st) (readerScrollPosition st)
    (readerAutoScroll st) (readerScrollIntervalId st)
    (highlightWordIndex st) (settings st) (wordOpacity st) (intervalId st)
    (fadeTimeoutId st) (autoSaveIntervalId st) (currentImage st)
    (isShowingImage st) (timers st) (nextTimerId st) (saved st).

Definition set_currentChapterIndex (v : nat) (st : AppState) : AppState :=
  mkAppState
  (words st) (text st) (currentWordIndex st) (isPlaying st) (isPaused st)
    (showSettings st) (showTextInput st) (progress st) (readingMode st)
    (contentStructure st) v (readerScrollPosition st)
    (readerAutoScroll st) (readerScrollIntervalId st)
    (highlightWordIndex st) (settings st) (wordOpacity st) (intervalId st)
    (fadeTimeoutId st) (autoSaveIntervalId st) (currentImage st)
    (isShowingImage st) (timers st) (nextTimerId st) (saved st).

Definition set_readerScrollPosition (v : Q) (st : AppState) : AppState :=
  mkAppState
  (words st) (text st) (currentWordIndex st) (isPlaying st) (isPaused st)
    (showSettings st) (showTextInput st) (progress st) (readingMode st)
    (contentStructure st) (currentChapterIndex st) v (readerAutoScroll st)
    (readerScrollIntervalId st) (highlightWordIndex st) (settings st)
    (wordOpacity st) (intervalId st) (fadeTimeoutId st)
    (autoSaveIntervalId st) (currentImage st) (isShowingImage st)
    (timers st) (nextTimerId st) (saved st).

Definition set_readerAutoScroll (v : bool) (st : AppState) : AppState :=
  mkAppState
  (words st) (text st) (currentWordIndex st) (isPlaying st) (isPaused st)
    (showSettings st) (showTextInput st) (progress st) (readingMode st)
    (contentStructure st) (currentChapterIndex st)
    (readerScrollPosition st) v (readerScrollIntervalId st)
    (highlightWordIndex st) (settings st) (wordOpacity st) (intervalId st)
    (fadeTimeoutId st) (autoSaveIntervalId st) (currentImage st)
    (isShowingImage st) (timers st) (nextTimerId st) (saved st).

Definition set_readerScrollIntervalId (v : option nat) (st : AppState) : AppState :=
  mkAppState
  (words st) (text st) (currentWordIndex st) (isPlaying st) (isPaused st)
    (showSettings st) (showTextInput st) (progress st) (readingMode st)
    (contentStructure st) (currentChapterIndex st)
    (readerScrollPosition st) (readerAutoScroll st) v
    (highlightWordIndex st) (settings st) (wordOpacity st) (intervalId st)
    (fadeTimeoutId st) (autoSaveIntervalId st) (currentImage st)
    (isShowingImage st) (timers st) (nextTimerId st) (saved st).

Definition set_highlightWordIndex (v : option Z) (st : AppState) : AppState :=
  mkAppState
  (words st) (text st) (currentWordIndex st) (isPlaying st) (isPaused st)
    (showSettings st) (showTextInput st) (progress st) (readingMode st)
    (contentStructure st) (currentChapterIndex st)
    (readerScrollPosition st) (readerAutoScroll st)
    (readerScrollIntervalId st) v (settings st) (wordOpacity st)
    (intervalId st) (fadeTimeoutId st) (autoSaveIntervalId st)
    (currentImage st) (isShowingImage st) (timers st) (nextTimerId st)
    (saved st).

Definition set_settings (v : Settings) (st : AppState) : AppState :=
  mkAppState
  (words st) (text st) (currentWordIndex st) (isPlaying st) (isPaused st)
    (showSettings st) (showTextInput st) (progress st) (readingMode st)
    (contentStructure st) (currentChapterIndex st)
    (readerScrollPosition st) (readerAutoScroll st)
    (readerScrollIntervalId st) (highlightWordIndex st) v (wordOpacity st)
    (intervalId st) (fadeTimeoutId st) (autoSaveIntervalId st)
    (currentImage st) (isShowingImage st) (timers st) (nextTimerId st)
    (saved st).

Definition set_wordOpacity (v : Q) (st : AppState) : AppState :=
  mkAppState
  (words st) (text st) (currentWordIndex st) (isPlaying st) (isPaused st)
    (showSettings st) (showTextInput st) (progress st) (readingMode st)
    (contentStructure st) (currentChapterIndex st)
    (readerScrollPosition st) (readerAutoScroll st)
    (readerScrollIntervalId st) (highlightWordIndex st) (settings st) v
    (intervalId st) (fadeTimeoutId st) (autoSaveIntervalId st)
    (currentImage st) (isShowingImage st) (timers st) (nextTimerId st)
    (saved st).

Definition set_intervalId (v : option nat) (st : AppState) : AppState :=
  mkAppState
  (words st) (text st) (currentWordIndex st) (isPlaying st) (isPaused st)
    (showSettings st) (showTextInput st) (progress st) (readingMode st)
    (contentStructure st) (currentChapterIndex st)
    (readerScrollPosition st) (readerAutoScroll st)
    (readerScrollIntervalId st) (highlightWordIndex st) (settings st)
    (wordOpacity st) v (fadeTimeoutId st) (autoSaveIntervalId st)
    (currentImage st) (isShowingImage st) (timers st) (nextTimerId st)
    (saved st).

Definition set_fadeTimeoutId (v : option nat) (st : AppState) : AppState :=
  mkAppState
  (words st) (text st) (currentWordIndex st) (isPlaying st) (isPaused st)
    (showSettings st) (showTextInput st) (progress st) (readingMode st)
    (contentStructure st) (currentChapterIndex st)
    (readerScrollPosition st) (readerAutoScroll st)
    (readerScrollIntervalId st) (highlightWordIndex st) (settings st)
    (wordOpacity st) (intervalId st) v (autoSaveIntervalId st)
    (currentImage st) (isShowingImage st) (timers st) (nextTimerId st)
    (saved st).

Definition set_autoSaveIntervalId (v : option nat) (st : AppState) : AppState :=
  mkAppState
  (words st) (text st) (currentWordIndex st) (isPlaying st) (isPaused st)
    (showSettings st) (showTextInput st) (progress st) (readingMode st)
    (contentStructure st) (currentChapterIndex st)
    (readerScrollPosition st) (readerAutoScroll st)
    (readerScrollIntervalId st) (highlightWordIndex st) (settings st)
    (wordOpacity st) (intervalId st) (fadeTimeoutId st) v
    (currentImage st) (isShowingImage st) (timers st) (nextTimerId st)
    (saved st).

Definition set_currentImage (v : option Image) (st : AppState) : AppState :=
  mkAppState
  (words st) (text st) (currentWordIndex st) (isPlaying st) (isPaused st)
    (showSettings st) (showTextInput st) (progress st) (readingMode st)
    (contentStructure st) (currentChapterIndex st)
    (readerScrollPosition st) (readerAutoScroll st)
    (readerScrollIntervalId st) (highlightWordIndex st) (settings st)
    (wordOpacity st) (intervalId st) (fadeTimeoutId st)
    (autoSaveIntervalId st) v (isShowingImage st) (timers st)
    (nextTimerId st) (saved st).

Definition set_isShowingImage (v : bool) (st : AppState) : AppState :=
  mkAppState
  (words st) (text st) (currentWordIndex st) (isPlaying st) (isPaused st)
    (showSettings st) (showTextInput st) (progress st) (readingMode st)
    (contentStructure st) (currentChapterIndex st)
    (readerScrollPosition st) (readerAutoScroll st)
    (readerScrollIntervalId st) (highlightWordIndex st) (settings st)
    (wordOpacity st) (intervalId st) (fadeTimeoutId st)
    (autoSaveIntervalId st) (currentImage st) v (timers st)
    (nextTimerId st) (saved st).

Definition set_timers (v : list Timer) (st : AppState) : AppState :=
  mkAppState
  (words st) (text st) (currentWordIndex st) (isPlaying st) (isPaused st)
    (showSettings st) (showTextInput st) (progress st) (readingMode st)
    (contentStructure st) (currentChapterIndex st)
    (readerScrollPosition st) (readerAutoScroll st)
    (readerScrollIntervalId st) (highlightWordIndex st) (settings st)
    (wordOpacity st) (intervalId st) (fadeTimeoutId st)
    (autoSaveIntervalId st) (currentImage st) (isShowingImage st) v
    (nextTimerId st) (saved st).

Definition set_nextTimerId (v : nat) (st : AppState) : AppState :=
  mkAppState
  (words st) (text st) (currentWordIndex st) (isPlaying st) (isPaused st)
    (showSettings st) (showTextInput st) (progress st) (readingMode st)
    (contentStructure st) (currentChapterIndex st)
    (readerScrollPosition st) (readerAutoScroll st)
    (readerScrollIntervalId st) (highlightWordIndex st) (settings st)
    (wordOpacity st) (intervalId st) (fadeTimeoutId st)
    (autoSaveIntervalId st) (currentImage st) (isShowingImage st)
    (timers st) v (saved st).

Definition set_saved (v : list Session) (st : AppState) : AppState :=
  mkAppState
  (words st) (text st) (currentWordIndex st) (isPlaying st) (isPaused st)
    (showSettings st) (showTextInput st) (progress st) (readingMode st)
    (contentStructure st) (currentChapterIndex st)
    (readerScrollPosition st) (readerAutoScroll st)
    (readerScrollIntervalId st) (highlightWordIndex st) (settings st)
    (wordOpacity st) (intervalId st) (fadeTimeoutId st)
    (autoSaveIntervalId st) (currentImage st) (isShowingImage st)
    (timers st) (nextTimerId st) v.

Import RsvpUtils ContentUtils.

(** *** Timers *)

Definition setTimeout (cb : Callback) (ms : Q) (st : AppState)
  : nat * AppState :=
  let newId := nextTimerId st in
  (newId,
   set_nextTimerId (S newId)
     (set_timers (timers st ++ [mkTimer newId cb ms false]) st)).

Definition setInterval (cb : Callback) (ms : Q) (st : AppState)
  : nat * AppState :=
  let newId := nextTimerId st in
  (newId,
   set_nextTimerId (S newId)
     (set_timers (timers st ++ [mkTimer newId cb ms true]) st)).

(** [clearTimeout(id)] and [clearInterval(id)] *)
Definition clearTimer (tid : nat) (st : AppState) : AppState :=
  set_timers (List.filter (fun t => negb (timerId t =? tid)) (timers st)) st.

(** *** Saving *)

Definition currentSession (st : AppState) : Session :=
  mkSession (text st) (currentWordIndex st) (length (words st))
    (readingMode st) (currentChapterIndex st) (readerScrollPosition st)
    (contentStructure st) (settings st).

Definition saveCurrentSession (st : AppState) : AppState :=
  if length (words st) =? 0 then st
  else set_saved (saved st ++ [currentSession st]) st.

Definition stopAutoSave (st : AppState) : AppState :=
  match autoSaveIntervalId st with
  | Some tid => set_autoSaveIntervalId None (clearTimer tid st)
  | None => st
  end.

Definition startAutoSave (st : AppState) : AppState :=
  let st1 := stopAutoSave st in
  let st2 := saveCurrentSession st1 in
  let '(tid, st3) := setInterval CbAutoSave 10000 st2 in
  set_autoSaveIntervalId (Some tid) st3.

(** *** Word-at-a-time playback *)

(** The component's own [parseText()] *)
Definition parseText (st : AppState) : AppState :=
  set_progress 0%Q
    (set_currentWordIndex 0%Z (set_words (RsvpUtils.parseText (text st)) st)).

(** The component's own [getWordDelay(word)] *)
Definition getWordDelay (st : AppState) (word : jsstring) : Q :=
  let cfg := settings st in
  RsvpUtils.getWordDelay word (wordsPerMinute cfg) (pauseOnPunctuation cfg)
    (punctuationPauseMultiplier cfg) (wordLengthWPMMultiplier cfg)
    (lineBreakPauseMultiplier cfg).

(** [words[i] || ''] *)
Definition wordAt (st : AppState) (i : Z) : jsstring :=
  if (i <? 0)%Z then [] else default [] (words st !! Z.to_nat i).

(** [currentWordIndex >= words.length] *)
Definition atEnd (st : AppState) : bool :=
  (Z.of_nat (length (words st)) <=? currentWordIndex st)%Z.

(** [((currentWordIndex + 1) / words.length) * 100] and
    [(currentWordIndex / words.length) * 100] *)
Definition percentOf (index : Z) (st : AppState) : Q :=
  ((inject_Z index / inject_Z (Z.of_nat (length (words st)))) * 100)%Q.

Definition scheduleNextWord (st : AppState) : AppState :=
  if negb (isPlaying st) || atEnd st then st
  else
    let word := wordAt st (currentWordIndex st - 1) in
    let '(tid, st1) := setTimeout CbShowNextWord (getWordDelay st word) st in
    set_intervalId (Some tid) st1.

Definition clearStepTimer (st : AppState) : AppState :=
  match intervalId st with
  | Some tid => set_intervalId None (clearTimer tid st)
  | None => st
  end.

Definition pause (st : AppState) : AppState :=
  let st1 := set_isPaused true (set_isPlaying false st) in
  let st2 := clearStepTimer st1 in
  saveCurrentSession (stopAutoSave st2).

Definition stop (st : AppState) : AppState :=
  let st1 :=
    set_wordOpacity 1%Q (set_isPaused false (set_isPlaying false st)) in
  let st2 := clearStepTimer st1 in
  saveCurrentSession (stopAutoSave st2).

Definition showImage (image : Image) (st : AppState) : AppState :=
  if unavailable image then st
  else
    let st1 :=
      set_isPaused true
        (set_isShowingImage true (set_currentImage (Some image) st)) in
    snd (setTimeout CbImageResume
           (imageDurationSeconds (settings st1) * 1000)%Q st1).

(** [contentStructure.images.find(img => img.wordPosition ===
    currentWordIndex)], when [showImagesInRSVP && contentStructure?.images]
    holds. *)
Definition imageAtPosition (st : AppState) : option Image :=
  if showImagesInRSVP (settings st) then
    match contentStructure st with
    | Some cs =>
        match images cs with
        | Some imgs =>
            find (fun img => (wordPosition img =? currentWordIndex st)%Z) imgs
        | None => None
        end
    | None => None
    end
  else None.

(** The part of [showNextWord] that displays the word: fade, advance,
    highlight, schedule. *)
Definition advanceWord (st : AppState) : AppState :=
  let st1 :=
    if fadeEnabled (settings st) then
      let '(tid, st') := setTimeout CbFadeIn 10 (set_wordOpacity 0%Q st) in
      set_fadeTimeoutId (Some tid) st'
    else st in
  let st2 :=
    set_currentWordIndex (currentWordIndex st1 + 1)%Z
      (set_progress (percentOf (currentWordIndex st1 + 1) st1) st1) in
  let st3 :=
    match readingMode st2, contentStructure st2 with
    | reader, Some _ => set_highlightWordIndex (Some (currentWordIndex st2)) st2
    | _, _ => st2
    end in
  scheduleNextWord st3.

Definition showNextWord (st : AppState) : AppState :=
  if atEnd st then stop st
  else
    match imageAtPosition st with
    | Some image => showImage image st
    | None =>
        if shouldPauseAtWord (currentWordIndex st) (pauseAfterWords (settings st))
        then
          snd (setTimeout CbPeriodicResume (pauseDuration (settings st))
                 (set_isPaused true st))
        else advanceWord st
    end.

Definition start (st : AppState) : AppState :=
  let st1 := if length (words st) =? 0 then parseText st else st in
  if length (words st1) =? 0 then st1
  else
    let st2 :=
      set_showTextInput false
        (set_showSettings false
           (set_isPaused false (set_isPlaying true st1))) in
    startAutoSave (showNextWord st2).

Definition resume (st : AppState) : AppState :=
  if atEnd st then st
  else
    startAutoSave
      (scheduleNextWord (set_isPaused false (set_isPlaying true st))).

(** What a pending timer does when it fires. *)
Definition runCallback (cb : Callback) (st : AppState) : AppState :=
  match cb with
  | CbShowNextWord => showNextWord st
  | CbFadeIn => set_wordOpacity 1%Q st
  | CbPeriodicResume =>
      if isPlaying st then scheduleNextWord (set_isPaused false st) else st
  | CbImageResume =>
      if isPlaying st then
        let st1 :=
          set_isPaused false
            (set_isShowingImage false (set_currentImage None st)) in
        let st2 :=
          set_currentWordIndex (currentWordIndex st1 + 1)%Z
            (set_progress (percentOf (currentWordIndex st1 + 1) st1) st1) in
        scheduleNextWord st2
      else st
  | CbAutoSave => saveCurrentSession st
  end.

(** The event loop takes a pending timer: a timeout leaves the pending
    list, an interval stays; then the callback runs. *)
Definition fire (t : Timer) (st : AppState) : AppState :=
  let st1 := if repeating t then st else clearTimer (timerId t) st in
  runCallback (callback t) st1.

(** *** The paginated view and mode switching *)

Definition stopReaderAutoScroll (st : AppState) : AppState :=
  let st1 := set_readerAutoScroll false st in
  let st2 :=
    match readerScrollIntervalId st1 with
    | Some tid => set_readerScrollIntervalId None (clearTimer tid st1)
    | None => st1
    end in
  saveCurrentSession (stopAutoSave st2).

(** The [rsvp -> reader] branch of [switchReadingMode].  Its last
    statement reads [chapter.title]; when [chapters[currentChapterIndex]]
    is undefined that throws and the function is left: the boolean tells
    whether the branch ran to its end. *)
Definition rsvpToReader (st : AppState) : AppState * bool :=
  let index :=
    getChapterAtWordIndex (contentStructure st) (currentWordIndex st) in
  let st1 := set_currentChapterIndex index st in
  let chapter :=
    match contentStructure st1 with
    | Some cs => chapters cs !! index
    | None => None
    end in
  let st2 :=
    set_highlightWordIndex (Some (currentWordIndex st1))
      (set_readerScrollPosition
         (getScrollPercentageInChapter chapter (currentWordIndex st1)) st1) in
  (st2, bool_decide (is_Some chapter)).

(** The [reader -> rsvp] branch. *)
Definition readerToRsvp (st : AppState) : AppState :=
  set_highlightWordIndex None
    (set_progress (percentOf (currentWordIndex st) st) st).

Definition switchReadingMode (newMode : ReadingMode) (st : AppState)
  : AppState :=
  if ReadingMode_eqb newMode (readingMode st) then st
  else
    match contentStructure st, newMode with
    | None, reader => st
    | _, _ =>
        let st1 := if isPlaying st then pause st else st in
        let st2 :=
          if readerAutoScroll st1 then stopReaderAutoScroll st1 else st1 in
        let '(st3, completed) :=
          match readingMode st2, newMode with
          | rsvp, reader => rsvpToReader st2
          | reader, rsvp => (readerToRsvp st2, true)
          | _, _ => (st2, true)
          end in
        if completed then
          let st4 := set_readingMode newMode st3 in
          match newMode with
          | rsvp => start st4       (* auto-play when switching to RSVP *)
          | reader => st4
          end
        else st3
    end.

(** [handleReaderScroll(event)] with [event.detail.percentage] *)
Definition handleReaderScroll (percentage : Q) (st : AppState) : AppState :=
  set_readerScrollPosition percentage st.

(** [handleReaderWordClick(event)] with [event.detail.wordIndex] *)
Definition handleReaderWordClick (clickedWordIndex : Z) (st : AppState)
  : AppState :=
  let st1 :=
    set_progress (percentOf clickedWordIndex st)
      (set_currentWordIndex clickedWordIndex st) in
  match readingMode st1 with
  | reader => set_highlightWordIndex (Some (currentWordIndex st1)) st1
  | rsvp => st1
  end.

(** *** Moving the position by hand *)

(** [handleProgressClick(event)] with [event.detail.percentage] *)
Definition handleProgressClick (percentage : Q) (st : AppState) : AppState :=
  let len := Z.of_nat (length (words st)) in
  let targetIndex := Qfloor ((percentage / 100) * inject_Z len)%Q in
  let st1 := set_currentWordIndex (Z.max 0 (Z.min len targetIndex)) st in
  set_progress (percentOf (currentWordIndex st1) st1) st1.

(** The [ArrowLeft] case of [handleKeydown] *)
Definition arrowLeft (st : AppState) : AppState :=
  if (1 <? currentWordIndex st)%Z then
    let st1 := set_currentWordIndex (Z.max 0 (currentWordIndex st - 2)) st in
    set_progress (percentOf (currentWordIndex st1) st1) st1
  else st.

(** The [ArrowRight] case of [handleKeydown] *)
Definition arrowRight (st : AppState) : AppState :=
  if (currentWordIndex st <? Z.of_nat (length (words st)))%Z then
    set_currentWordIndex (currentWordIndex st + 1)%Z
      (set_progress (percentOf (currentWordIndex st + 1) st) st)
  else st.

(** [handleReaderChapterChange(event)] with [event.detail.index] *)
Definition handleReaderChapterChange (index : nat) (st : AppState)
  : AppState :=
  saveCurrentSession
    (set_readerScrollPosition 0%Q (set_currentChapterIndex index st)).

End App.

(* ===================================================================== *)
(** * Part II: properties                                                 *)
(* ===================================================================== *)

(** ** The arithmetic of doubles *)

Module NumberProofs.
Import JsNumber.

Lemma roundHalfEven_cases (x : Q) :
  (roundHalfEven x = Qfloor x /\ (x - inject_Z (Qfloor x) <= 1 # 2)%Q)
  \/ (roundHalfEven x = (Qfloor x + 1)%Z
      /\ (1 # 2 <= x - inject_Z (Qfloor x))%Q).
Proof.
  unfold roundHalfEven.
  destruct (Qcompare_spec (x - inject_Z (Qfloor x)) (1 # 2)) as [E | L | G].
  - destruct (Z.even (Qfloor x)); [left | right]; split;
      try reflexivity; rewrite E; apply Qle_refl.
  - left. split; [reflexivity | apply Qlt_le_weak, L].
  - right. split; [reflexivity | apply Qlt_le_weak, G].
Qed.

Lemma roundHalfEven_error (x : Q) :
  (x - (1 # 2) <= inject_Z (roundHalfEven x))%Q
  /\ (inject_Z (roundHalfEven x) <= x + (1 # 2))%Q.
Proof.
  pose proof (Qfloor_le x) as Hlo. pose proof (Qlt_floor x) as Hhi.
  destruct (roundHalfEven_cases x) as [[-> H] | [-> H]].
  - split; lra.
  - rewrite inject_Z_plus in *. change (inject_Z 1) with 1%Q in *. split; lra.
Qed.

Lemma roundHalfEven_Z (x : Q) (n : Z) :
  (x == inject_Z n)%Q -> roundHalfEven x = n.
Proof.
  intros E. unfold roundHalfEven.
  assert (F : Qfloor x = n) by (rewrite E; apply Qfloor_Z).
  rewrite F.
  destruct (Qcompare_spec (x - inject_Z n) (1 # 2)) as [H | H | H];
    [exfalso | reflexivity | exfalso]; rewrite E in H; lra.
Qed.

Lemma roundHalfEven_mono (x y : Q) :
  (x <= y)%Q -> (roundHalfEven x <= roundHalfEven y)%Z.
Proof.
  intros H. pose proof (Qfloor_resp_le x y H) as Hf.
  destruct (Z.eq_dec (Qfloor x) (Qfloor y)) as [E | N].
  - unfold roundHalfEven. rewrite E.
    destruct (Qcompare_spec (x - inject_Z (Qfloor y)) (1 # 2)) as [Hx | Hx | Hx];
      destruct (Qcompare_spec (y - inject_Z (Qfloor y)) (1 # 2)) as [Hy | Hy | Hy];
      try (destruct (Z.even (Qfloor y))); try lia; exfalso; lra.
  - destruct (roundHalfEven_cases x) as [[-> _] | [-> _]];
      destruct (roundHalfEven_cases y) as [[-> _] | [-> _]]; lia.
Qed.

Lemma two_power_pos (e : Z) : (0 < 2 ^ e)%Q.
Proof. apply Qpower_0_lt. reflexivity. Qed.

Lemma two_power_succ (e : Z) : (2 ^ (e + 1) == 2 * 2 ^ e)%Q.
Proof. rewrite Qpower_plus by discriminate. rewrite Qpower_1_r. ring. Qed.

Lemma binade_spec (x : Q) :
  (0 < x)%Q -> (2 ^ binade x <= x)%Q /\ (x < 2 ^ (binade x + 1))%Q.
Proof.
  intros Hx. unfold binade.
  destruct x as [n d]. cbn [Qnum Qden].
  assert (Hn : (0 < n)%Z) by (unfold Qlt in Hx; simpl in Hx; lia).
  destruct (Z.log2_spec n Hn) as [Hn1 Hn2].
  destruct (Z.log2_spec (Z.pos d) (Pos2Z.is_pos d)) as [Hd1 Hd2].
  pose proof (Z.log2_nonneg n) as Hln.
  pose proof (Z.log2_nonneg (Z.pos d)) as Hld.
  set (ln := Z.log2 n) in *. set (ld := Z.log2 (Z.pos d)) in *.
  assert (Qn1 : (2 ^ ln <= inject_Z n)%Q).
  { change 2%Q with (inject_Z 2). rewrite <- Zpower_Qpower by lia.
    rewrite <- Zle_Qle. exact Hn1. }
  assert (Qn2 : (inject_Z n < 2 ^ (ln + 1))%Q).
  { change 2%Q with (inject_Z 2). rewrite <- Zpower_Qpower by lia.
    rewrite <- Zlt_Qlt. rewrite <- Z.add_1_r in Hn2. exact Hn2. }
  assert (Qd1 : (2 ^ ld <= inject_Z (Z.pos d))%Q).
  { change 2%Q with (inject_Z 2). rewrite <- Zpower_Qpower by lia.
    rewrite <- Zle_Qle. exact Hd1. }
  assert (Qd2 : (inject_Z (Z.pos d) < 2 ^ (ld + 1))%Q).
  { change 2%Q with (inject_Z 2). rewrite <- Zpower_Qpower by lia.
    rewrite <- Zlt_Qlt. rewrite <- Z.add_1_r in Hd2. exact Hd2. }
  assert (Hd0 : (0 < inject_Z (Z.pos d))%Q) by reflexivity.
  assert (Ex : (n # d == inject_Z n / inject_Z (Z.pos d))%Q) by apply Qmake_Qdiv.
  pose proof (two_power_pos ld) as Pld.
  pose proof (two_power_pos (ld + 1)) as Pld1.
  assert (Hup : (n # d < 2 ^ (ln - ld + 1))%Q).
  { rewrite Ex. apply Qlt_shift_div_r; [exact Hd0|].
    replace (ln - ld + 1)%Z with ((ln + 1) - ld)%Z by lia.
    rewrite Qpower_minus by discriminate.
    apply Qlt_le_trans with (2 ^ (ln + 1))%Q; [exact Qn2|].
    assert (E : (2 ^ (ln + 1) == 2 ^ (ln + 1) / 2 ^ ld * 2 ^ ld)%Q)
      by (field; apply Qpower_not_0; discriminate).
    rewrite E at 1. apply Qmult_le_l; [|exact Qd1].
    apply Qlt_shift_div_l; [exact Pld|]. rewrite Qmult_0_l. apply two_power_pos. }
  assert (Hlow : (2 ^ (ln - ld - 1) <= n # d)%Q).
  { rewrite Ex. apply Qle_shift_div_l; [exact Hd0|].
    replace (ln - ld - 1)%Z with (ln - (ld + 1))%Z by lia.
    rewrite Qpower_minus by discriminate.
    apply Qle_trans with (2 ^ ln)%Q; [|exact Qn1].
    assert (E : (2 ^ ln == 2 ^ ln / 2 ^ (ld + 1) * 2 ^ (ld + 1))%Q)
      by (field; apply Qpower_not_0; discriminate).
    rewrite E at 2. apply Qmult_le_l; [|apply Qlt_le_weak, Qd2].
    apply Qlt_shift_div_l; [exact Pld1|]. rewrite Qmult_0_l. apply two_power_pos. }
  destruct (Qle_bool (2 ^ (ln - ld)) (n # d)) eqn:E.
  - apply Qle_bool_iff in E. split; [exact E | exact Hup].
  - split; [exact Hlow|].
    replace (ln - ld - 1 + 1)%Z with (ln - ld)%Z by lia.
    destruct (Qlt_le_dec (n # d) (2 ^ (ln - ld))) as [H | H]; [exact H|].
    apply Qle_bool_iff in H. congruence.
Qed.



(** The significand of a positive number, before it is rounded. *)
Definition scaled (x : Q) : Q := (x / 2 ^ (binade x - 52))%Q.

Lemma two_power_split (e : Z) : (2 ^ e == 2 ^ 52 * 2 ^ (e - 52))%Q.
Proof.
  rewrite <- Qpower_plus by discriminate.
  replace (52 + (e - 52))%Z with e by lia. reflexivity.
Qed.

Lemma scaled_bounds (x : Q) :
  (0 < x)%Q -> (2 ^ 52 <= scaled x)%Q /\ (scaled x < 2 ^ 53)%Q.
Proof.
  intros Hx. destruct (binade_spec x Hx) as [H1 H2]. unfold scaled.
  pose proof (two_power_pos (binade x - 52)) as Hq.
  split.
  - apply Qle_shift_div_l; [exact Hq|].
    rewrite <- two_power_split. exact H1.
  - apply Qlt_shift_div_r; [exact Hq|].
    assert (E : (2 ^ 53 * 2 ^ (binade x - 52) == 2 ^ (binade x + 1))%Q).
    { rewrite <- Qpower_plus by discriminate.
      replace (53 + (binade x - 52))%Z with (binade x + 1)%Z by lia.
      reflexivity. }
    rewrite E. exact H2.
Qed.

Lemma significand_bounds (x : Q) :
  (0 < x)%Q ->
  (2 ^ 52 <= roundHalfEven (scaled x) <= 2 ^ 53)%Z.
Proof.
  intros Hx. destruct (scaled_bounds x Hx) as [H1 H2].
  assert (E52 : (2 ^ 52 == inject_Z (2 ^ 52))%Q) by reflexivity.
  assert (E53 : (2 ^ 53 == inject_Z (2 ^ 53))%Q) by reflexivity.
  split.
  - rewrite <- (roundHalfEven_Z (2 ^ 52)%Q (2 ^ 52)%Z E52).
    apply roundHalfEven_mono, H1.
  - rewrite <- (roundHalfEven_Z (2 ^ 53)%Q (2 ^ 53)%Z E53).
    apply roundHalfEven_mono, Qlt_le_weak, H2.
Qed.

Lemma roundPositive_scaled (x : Q) :
  (roundPositive x
   == inject_Z (roundHalfEven (scaled x)) * 2 ^ (binade x - 52))%Q.
Proof. reflexivity. Qed.

Lemma roundPositive_bounds (x : Q) :
  (0 < x)%Q ->
  (2 ^ binade x <= roundPositive x)%Q
  /\ (roundPositive x <= 2 ^ (binade x + 1))%Q.
Proof.
  intros Hx. destruct (significand_bounds x Hx) as [H1 H2].
  rewrite roundPositive_scaled.
  pose proof (two_power_pos (binade x - 52)) as Hq.
  split.
  - rewrite (two_power_split (binade x)).
    apply Qmult_le_compat_r; [|apply Qlt_le_weak, Hq].
    change (2 ^ 52)%Q with (inject_Z (2 ^ 52)). rewrite <- Zle_Qle. exact H1.
  - assert (E : (2 ^ (binade x + 1) == 2 ^ 53 * 2 ^ (binade x - 52))%Q).
    { rewrite <- Qpower_plus by discriminate.
      replace (53 + (binade x - 52))%Z with (binade x + 1)%Z by lia.
      reflexivity. }
    rewrite E. apply Qmult_le_compat_r; [|apply Qlt_le_weak, Hq].
    change (2 ^ 53)%Q with (inject_Z (2 ^ 53)). rewrite <- Zle_Qle. exact H2.
Qed.


(** Half a unit in the last place, relative to the number. *)
Definition unitRoundoff : Q := 2 ^ (-53).

Lemma roundPositive_error (x : Q) :
  (0 < x)%Q ->
  (x * (1 - unitRoundoff) <= roundPositive x)%Q
  /\ (roundPositive x <= x * (1 + unitRoundoff))%Q.
Proof.
  intros Hx. rewrite roundPositive_scaled.
  destruct (roundHalfEven_error (scaled x)) as [H1 H2].
  destruct (scaled_bounds x Hx) as [Hs _].
  pose proof (two_power_pos (binade x - 52)) as Hq.
  set (q := (2 ^ (binade x - 52))%Q) in *.
  set (m := inject_Z (roundHalfEven (scaled x))) in *.
  assert (Ex : (x == scaled x * q)%Q).
  { unfold scaled. fold q. field. intros E. rewrite E in Hq. lra. }
  assert (Hhalf : (1 # 2 <= scaled x * unitRoundoff)%Q).
  { assert (E : (1 # 2 == 2 ^ 52 * unitRoundoff)%Q) by reflexivity.
    rewrite E. apply Qmult_le_compat_r; [exact Hs | discriminate]. }
  set (v := scaled x) in *. set (u := unitRoundoff) in *.
  assert (Hu : (v * u == v * u)%Q) by reflexivity.
  set (vu := (v * u)%Q) in *.
  assert (L : (v * (1 - u) <= m)%Q).
  { assert (E : (v * (1 - u) == v - vu)%Q) by (unfold vu; ring). rewrite E. lra. }
  assert (R : (m <= v * (1 + u))%Q).
  { assert (E : (v * (1 + u) == v + vu)%Q) by (unfold vu; ring). rewrite E. lra. }
  rewrite Ex. split.
  - assert (E : (v * q * (1 - u) == v * (1 - u) * q)%Q) by ring. rewrite E.
    apply Qmult_le_compat_r; [exact L | apply Qlt_le_weak, Hq].
  - assert (E : (v * q * (1 + u) == v * (1 + u) * q)%Q) by ring. rewrite E.
    apply Qmult_le_compat_r; [exact R | apply Qlt_le_weak, Hq].
Qed.

Lemma roundPositive_pos (x : Q) : (0 < x)%Q -> (0 < roundPositive x)%Q.
Proof.
  intros Hx. destruct (roundPositive_bounds x Hx) as [H _].
  pose proof (two_power_pos (binade x)). lra.
Qed.

(** *** Rounding of numbers that are not negative *)

Lemma round_zero (x : Q) : (x == 0)%Q -> round x = 0%Q.
Proof.
  intros E. unfold round. apply Qeq_alt in E. rewrite E. reflexivity.
Qed.

Lemma round_positive (x : Q) : (0 < x)%Q -> round x = roundPositive x.
Proof.
  intros H. unfold round. apply Qgt_alt in H. rewrite H. reflexivity.
Qed.

Lemma round_nonneg (x : Q) : (0 <= x)%Q -> (0 <= round x)%Q.
Proof.
  intros H. destruct (Qlt_le_dec 0 x) as [Hp | Hz].
  - rewrite (round_positive x Hp). apply Qlt_le_weak, roundPositive_pos, Hp.
  - rewrite round_zero by lra. apply Qle_refl.
Qed.



Lemma round_error (x : Q) :
  (0 <= x)%Q ->
  (x * (1 - unitRoundoff) <= round x)%Q
  /\ (round x <= x * (1 + unitRoundoff))%Q.
Proof.
  intros H. destruct (Qlt_le_dec 0 x) as [Hp | Hz].
  - rewrite (round_positive x Hp). apply roundPositive_error, Hp.
  - rewrite round_zero by lra.
    assert (E : (x == 0)%Q) by lra. rewrite E. split; lra.
Qed.


Lemma unitRoundoff_value : (unitRoundoff == 1 # 9007199254740992)%Q.
Proof. reflexivity. Qed.


End NumberProofs.

(** ** The word stream builder *)

Module WordStreamProofs.
Import RsvpUtils.

(** *** Splitting *)

Lemma split_on_nonempty sep s : split_on sep s <> [].
Proof.
  destruct s as [|c s]; simpl; [discriminate|].
  destruct (c =? sep)%N; [discriminate|].
  destruct (split_on sep s); discriminate.
Qed.

Lemma cons_head_app c ps qs :
  ps <> [] -> cons_head c (ps ++ qs) = cons_head c ps ++ qs.
Proof. destruct ps; [congruence | reflexivity]. Qed.

Lemma split_on_app sep a b :
  split_on sep (a ++ sep :: b) = split_on sep a ++ split_on sep b.
Proof.
  induction a as [|c a IH]; simpl.
  - rewrite N.eqb_refl. reflexivity.
  - destruct (c =? sep)%N; rewrite IH; [reflexivity|].
    apply cons_head_app, split_on_nonempty.
Qed.

Lemma split_on_absent sep s :
  Forall (fun c => c <> sep) s -> split_on sep s = [s].
Proof.
  induction 1 as [|c s Hc _ IH]; simpl; [reflexivity|].
  apply N.eqb_neq in Hc. rewrite Hc, IH. reflexivity.
Qed.

(** *** Blank lines *)

Definition blank (line : jsstring) : Prop :=
  Forall (fun c => is_whitespace c = true) line.

Lemma trimStart_blank line : blank line -> trimStart line = [].
Proof.
  induction 1 as [|c s Hc _ IH]; simpl; [reflexivity|]. rewrite Hc. exact IH.
Qed.

Lemma trim_blank line : blank line -> trim line = [].
Proof. intros H. unfold trim. rewrite (trimStart_blank _ H). reflexivity. Qed.

(** *** The words of a line *)

Definition realWord (w : jsstring) : Prop :=
  w <> [] /\ Forall (fun c => is_whitespace c = false) w.

Lemma split_ws_from_pieces skipping s :
  Forall (Forall (fun c => is_whitespace c = false)) (split_ws_from skipping s).
Proof.
  revert skipping. induction s as [|c s IH]; intros skipping; simpl.
  - repeat constructor.
  - destruct (is_whitespace c) eqn:Hc.
    + destruct skipping; [apply IH|]. constructor; [constructor | apply IH].
    + specialize (IH false). destruct (split_ws_from false s) as [|p ps]; simpl.
      * repeat constructor. exact Hc.
      * inversion IH; subst. constructor; [constructor|]; assumption.
Qed.

Lemma lineWordsOf_real line : Forall realWord (lineWordsOf line).
Proof.
  unfold lineWordsOf, split_ws.
  pose proof (split_ws_from_pieces false line) as H.
  induction H as [|p ps Hp _ IH]; simpl; [constructor|].
  destruct p as [|c p]; simpl; [exact IH|].
  constructor; [|exact IH]. split; [discriminate | exact Hp].
Qed.

Lemma realWord_not_break w : realWord w -> w <> BREAK.
Proof.
  intros [_ H] ->. inversion H as [|? ? Hc _]; subst. vm_compute in Hc. discriminate.
Qed.

Lemma marked_not_break w : MARKER :: w <> BREAK.
Proof. unfold BREAK, MARKER, LF. congruence. Qed.

Lemma markFirst_not_break ws :
  Forall realWord ws -> Forall (fun w => w <> BREAK) (markFirst ws).
Proof.
  destruct 1 as [|w ws Hw Hws]; simpl; constructor.
  - apply marked_not_break.
  - eapply Forall_impl; [exact Hws|]. apply realWord_not_break.
Qed.

(** *** The loop over the lines *)

Lemma parseLines_app l1 l2 acc :
  parseLines (l1 ++ l2) acc = parseLines l2 (parseLines l1 acc).
Proof.
  revert acc. induction l1 as [|l l1 IH]; intros acc; simpl; [reflexivity|].
  destruct (length (trim l) =? 0); [apply IH|].
  destruct (_ && _); apply IH.
Qed.

Lemma parseLines_blank line rest acc :
  blank line -> parseLines (line :: rest) acc = parseLines rest acc.
Proof. intros H. simpl. rewrite (trim_blank _ H). reflexivity. Qed.

(** What a non-empty accumulator receives from further lines: a break,
    then their words with the first one marked. *)
Definition continued (ws : list jsstring) : list jsstring :=
  match ws with
  | [] => []
  | _ :: _ => BREAK :: markFirst ws
  end.

Lemma markFirst_app ws rest :
  ws <> [] -> markFirst (ws ++ rest) = markFirst ws ++ rest.
Proof. destruct ws; [congruence | reflexivity]. Qed.

Lemma continued_app ws rest :
  ws <> [] -> continued (ws ++ rest) = continued ws ++ rest.
Proof. destruct ws; [congruence | reflexivity]. Qed.

Lemma parseLines_acc lines acc :
  acc <> [] -> parseLines lines acc = acc ++ continued (parseLines lines []).
Proof.
  revert acc. induction lines as [|l lines IH]; intros acc Hacc; simpl.
  - rewrite app_nil_r. reflexivity.
  - destruct (length (trim l) =? 0); [apply IH, Hacc|].
    destruct acc as [|a acc]; [congruence|].
    destruct (lineWordsOf (trim l)) as [|w ws] eqn:Hw; simpl.
    + rewrite app_nil_r. apply IH. discriminate.
    + rewrite IH by discriminate.
      rewrite (IH (w :: ws)) by discriminate.
      rewrite continued_app by discriminate. simpl.
      rewrite <- !app_assoc. reflexivity.
Qed.

Lemma parseText_lines text : parseText text = parseLines (split_on LF text) [].
Proof.
  unfold parseText. destruct text as [|c text]; reflexivity.
Qed.

(** A text without line feed is one line. *)
Lemma parseText_single_line p :
  Forall (fun c => c <> LF) p -> parseText p = lineWordsOf (trim p).
Proof.
  intros H. rewrite parseText_lines, (split_on_absent _ _ H). simpl.
  destruct (trim p) as [|c t] eqn:Ht; reflexivity.
Qed.

(** *** Runs of break tokens *)

Definition isBreak (w : jsstring) : bool := jsstring_eqb w BREAK.

Definition breakCount (ws : list jsstring) : nat :=
  length (List.filter isBreak ws).

Lemma isBreak_true w : isBreak w = true <-> w = BREAK.
Proof. unfold isBreak, jsstring_eqb. apply bool_decide_eq_true. Qed.

Lemma breakCount_app a b : breakCount (a ++ b) = breakCount a + breakCount b.
Proof. unfold breakCount. rewrite List.filter_app, length_app. reflexivity. Qed.

Lemma breakCount_none ws :
  Forall (fun w => w <> BREAK) ws -> breakCount ws = 0.
Proof.
  unfold breakCount. induction 1 as [|w ws Hw _ IH]; simpl; [reflexivity|].
  destruct (isBreak w) eqn:E; [|exact IH]. apply isBreak_true in E. contradiction.
Qed.

(** No break token directly after a break token, and none at the end. *)
Fixpoint settled (ws : list jsstring) : Prop :=
  match ws with
  | [] => True
  | w :: rest =>
      (w = BREAK -> match rest with [] => False | w' :: _ => w' <> BREAK end)
      /\ settled rest
  end.

Lemma settled_words ws : Forall (fun w => w <> BREAK) ws -> settled ws.
Proof. induction 1; simpl; [exact I|]. split; [contradiction | assumption]. Qed.

Lemma settled_app a b :
  settled a -> settled b -> settled (a ++ b).
Proof.
  induction a as [|w a IH]; simpl; [tauto|].
  intros [Hw Ha] Hb. split; [|apply IH; assumption].
  intros E. specialize (Hw E). destruct a; [contradiction | exact Hw].
Qed.

Lemma settled_break_then ws :
  ws <> [] -> Forall (fun w => w <> BREAK) ws -> settled (BREAK :: ws).
Proof.
  intros Hne H. simpl. split; [|apply settled_words, H].
  intros _. destruct H; [congruence | assumption].
Qed.

Lemma parseLines_settled lines acc :
  settled acc -> settled (parseLines lines acc).
Proof.
  revert acc. induction lines as [|l lines IH]; intros acc Hacc; simpl; [exact Hacc|].
  destruct (length (trim l) =? 0); [apply IH, Hacc|].
  pose proof (lineWordsOf_real (trim l)) as Hreal.
  destruct (_ && _) eqn:E; apply IH.
  - rewrite <- app_assoc. apply settled_app; [exact Hacc|]. simpl app.
    apply settled_break_then.
    + destruct (lineWordsOf (trim l)); [|discriminate].
      rewrite andb_comm in E. discriminate.
    + apply markFirst_not_break, Hreal.
  - apply settled_app; [exact Hacc|]. apply settled_words.
    eapply Forall_impl; [exact Hreal|]. apply realWord_not_break.
Qed.

Lemma settled_lookup ws i :
  settled ws -> ws !! i = Some BREAK -> ws !! S i <> Some BREAK.
Proof.
  revert i. induction ws as [|w ws IH]; intros i Hs Hi; [discriminate|].
  destruct Hs as [Hw Hs]. destruct i as [|i]; simpl in *.
  - injection Hi as ->. specialize (Hw eq_refl).
    destruct ws as [|w' ws]; [contradiction|]. simpl. congruence.
  - apply IH; assumption.
Qed.


(** *** Paragraph breaks *)

(** A blank line: whitespace only, and no line feed inside it. *)
Definition blankLine (line : jsstring) : Prop :=
  Forall (fun c => is_whitespace c = true /\ c <> LF) line.

Lemma blankLine_blank line : blankLine line -> blank line.
Proof. intros H. eapply Forall_impl; [exact H | simpl; intros c Hc; apply Hc]. Qed.

Lemma blankLine_no_LF line : blankLine line -> Forall (fun c => c <> LF) line.
Proof. intros H. eapply Forall_impl; [exact H | simpl; intros c Hc; apply Hc]. Qed.

Lemma parseLines_skip_blank line rest acc :
  blankLine line ->
  parseLines (split_on LF (line ++ LF :: rest)) acc
  = parseLines (split_on LF rest) acc.
Proof.
  intros H. rewrite split_on_app, (split_on_absent _ _ (blankLine_no_LF _ H)).
  simpl app. apply parseLines_blank, blankLine_blank, H.
Qed.

Lemma parseText_no_break_single_line p :
  Forall (fun c => c <> LF) p -> Forall (fun w => w <> BREAK) (parseText p).
Proof.
  intros H. rewrite (parseText_single_line _ H).
  eapply Forall_impl; [apply lineWordsOf_real | apply realWord_not_break].
Qed.

(** C10. Paragraph-break idempotence.  For texts [p1] and [p2] that each
    hold at least one word and three blank lines [b1], [b2], [b3] between
    them, [parseText] yields the tokens of [p1], then exactly one break
    token, then the tokens of [p2] with the first one marked; when [p1]
    and [p2] are single-line paragraphs this is the only break token of
    the output.  For every text the output never holds two adjacent break
    tokens. *)
Theorem parseText_blank_lines_collapse (p1 p2 b1 b2 b3 : jsstring) :
  parseText p1 <> [] -> parseText p2 <> [] ->
  blankLine b1 -> blankLine b2 -> blankLine b3 ->
  let text := p1 ++ LF :: b1 ++ LF :: b2 ++ LF :: b3 ++ LF :: p2 in
  parseText text = parseText p1 ++ BREAK :: markFirst (parseText p2)
  /\ (Forall (fun c => c <> LF) p1 -> Forall (fun c => c <> LF) p2 ->
      breakCount (parseText text) = 1)
  /\ (forall (t : jsstring) (i : nat),
        parseText t !! i = Some BREAK -> parseText t !! S i <> Some BREAK).
Proof.
  intros Hp1 Hp2 Hb1 Hb2 Hb3 text.
  assert (Heq : parseText text
                = parseText p1 ++ BREAK :: markFirst (parseText p2)).
  { unfold text. rewrite !parseText_lines in *.
    rewrite split_on_app, parseLines_app.
    rewrite !parseLines_skip_blank by assumption.
    rewrite parseLines_acc by assumption.
    destruct (parseLines (split_on LF p2) []); [congruence | reflexivity]. }
  split; [exact Heq | split].
  - intros H1 H2. rewrite Heq, breakCount_app.
    rewrite (breakCount_none _ (parseText_no_break_single_line _ H1)).
    change (BREAK :: markFirst (parseText p2))
      with ([BREAK] ++ markFirst (parseText p2)).
    rewrite breakCount_app, (breakCount_none (markFirst _)); [reflexivity|].
    rewrite (parseText_single_line _ H2).
    apply markFirst_not_break, lineWordsOf_real.
  - intros t i. apply settled_lookup. rewrite parseText_lines.
    apply parseLines_settled. exact I.
Qed.

(** The builder on "One two.", an empty line, a line of one space, a line
    of one tab, "Three." *)
Lemma parseText_blank_lines_collapse_witness :
  let p1 := js "One two." in
  let p2 := js "Three." in
  let text := p1 ++ LF :: [] ++ LF :: [32%N] ++ LF :: [9%N] ++ LF :: p2 in
  parseText text = [js "One"; js "two."; BREAK; MARKER :: js "Three."]
  /\ breakCount (parseText text) = 1.
Proof.
  intros p1 p2 text.
  assert (H1 : parseText p1 <> []) by (vm_compute; discriminate).
  assert (H2 : parseText p2 <> []) by (vm_compute; discriminate).
  assert (B1 : blankLine []) by constructor.
  assert (B2 : blankLine [32%N])
    by (repeat constructor; vm_compute; congruence).
  assert (B3 : blankLine [9%N])
    by (repeat constructor; vm_compute; congruence).
  destruct (parseText_blank_lines_collapse p1 p2 [] [32%N] [9%N]
              H1 H2 B1 B2 B3) as (Heq & Hcount & _).
  subst text. split.
  - rewrite Heq. reflexivity.
  - apply Hcount; repeat constructor; vm_compute; congruence.
Defined.

End WordStreamProofs.

(** ** The timing engine *)

Module TimingProofs.
Import RsvpUtils.

(** *** Delay *)

(** A word of [n] characters that carries no break marker and ends in
    none of the characters [. ! ? ; : ,]: what a word of [n] letters is
    to [getWordDelay]. *)
Definition plainWord (n : nat) (word : jsstring) : Prop :=
  length word = n
  /\ startsWithMarker word = false
  /\ endsWithSentencePunctuation word = false
  /\ endsWithComma word = false.

Lemma Qle_bool_false_lt (x : Q) : (0 < x)%Q -> Qle_bool x 0 = false.
Proof.
  intros H. destruct (Qle_bool x 0) eqn:E; [|reflexivity].
  apply Qle_bool_iff in E. lra.
Qed.

Lemma not_break_of_length word : 2 <= length word -> jsstring_eqb word BREAK = false.
Proof.
  intros H. unfold jsstring_eqb. apply bool_decide_eq_false.
  intros ->. simpl in H. lia.
Qed.

(** The delay of a plain word: the base delay, scaled from 12 characters
    on. *)
Lemma getWordDelay_plain n word wpm pause pm wl lb :
  plainWord n word -> 2 <= n -> (0 < wpm)%Q -> (0 < wl)%Q ->
  getWordDelay word wpm pause pm wl lb
  = if 12 <=? n
    then ((60000 / wpm) * (1 + (wl / 100) * inject_Z (Z.of_nat n - 12)))%Q
    else (60000 / wpm)%Q.
Proof.
  intros (Hlen & Hm & Hs & Hc) Hn Hwpm Hwl. unfold getWordDelay.
  assert (E0 : (length word =? 0) = false) by (apply Nat.eqb_neq; lia).
  rewrite E0, (Qle_bool_false_lt _ Hwpm), (Qle_bool_false_lt _ Hwl).
  rewrite not_break_of_length by lia.
  rewrite Hm, Hs, Hc, Hlen. cbn [negb andb].
  destruct (12 <=? n); destruct pause; reflexivity.
Qed.

Lemma base_delay_pos (wpm : Q) : (0 < wpm)%Q -> (0 < 60000 / wpm)%Q.
Proof.
  intros H. apply Qlt_shift_div_l; [exact H|]. lra.
Qed.

(** *** The delay as a product *)

Lemma Qle_bool_false_iff (x : Q) : Qle_bool x 0 = false <-> (0 < x)%Q.
Proof.
  split; [|apply Qle_bool_false_lt].
  intros H. destruct (Qlt_le_dec 0 x) as [Hlt | Hle]; [exact Hlt|].
  apply Qle_bool_iff in Hle. congruence.
Qed.

(** The factor of the long-word adjustment for a clean word of [len]
    characters. *)
Definition lengthFactor (wl : Q) (len : nat) : Q :=
  if negb (Qle_bool wl 0) && (12 <=? len)
  then (1 + (wl / 100) * inject_Z (Z.of_nat len - 12))%Q
  else 1%Q.

Lemma lengthFactor_ge_1 wl len : (1 <= lengthFactor wl len)%Q.
Proof.
  unfold lengthFactor. destruct (Qle_bool wl 0) eqn:E; cbn [negb andb]; [apply Qle_refl|].
  apply Qle_bool_false_iff in E.
  destruct (12 <=? len) eqn:L; [|apply Qle_refl]. apply Nat.leb_le in L.
  assert (H : (0 <= inject_Z (Z.of_nat len - 12))%Q).
  { change 0%Q with (inject_Z 0). rewrite <- Zle_Qle. lia. }
  assert (Hw : (0 <= wl / 100)%Q) by (apply Qle_shift_div_l; lra).
  set (a := (wl / 100)%Q) in *.
  set (x := inject_Z (Z.of_nat len - 12)) in *.
  pose proof (Qmult_le_0_compat _ _ Hw H). lra.
Qed.

Lemma lengthFactor_mono wl n m : n <= m -> (lengthFactor wl n <= lengthFactor wl m)%Q.
Proof.
  intros Hnm. unfold lengthFactor.
  destruct (Qle_bool wl 0) eqn:E; cbn [negb andb]; [apply Qle_refl|].
  apply Qle_bool_false_iff in E.
  assert (Hw : (0 <= wl / 100)%Q) by (apply Qle_shift_div_l; lra).
  set (a := (wl / 100)%Q) in *.
  destruct (Nat.leb_spec 12 n) as [Ln | Ln], (Nat.leb_spec 12 m) as [Lm | Lm];
    try lia.
  - assert (Hxy : (inject_Z (Z.of_nat n - 12) <= inject_Z (Z.of_nat m - 12))%Q)
      by (rewrite <- Zle_Qle; lia).
    set (x := inject_Z (Z.of_nat n - 12)) in *.
    set (y := inject_Z (Z.of_nat m - 12)) in *.
    nra.
  - assert (H : (0 <= inject_Z (Z.of_nat m - 12))%Q).
    { change 0%Q with (inject_Z 0). rewrite <- Zle_Qle. lia. }
    set (x := inject_Z (Z.of_nat m - 12)) in *.
    pose proof (Qmult_le_0_compat _ _ Hw H). lra.
  - apply Qle_refl.
Qed.


Definition markerFactor (word : jsstring) : Q :=
  if startsWithMarker word then 3 # 2 else 1.

Definition punctuationFactor (pause : bool) (pm : Q) (cleanWord : jsstring) : Q :=
  if pause then
    if endsWithSentencePunctuation cleanWord then pm
    else if endsWithComma cleanWord then 3 # 2 else 1
  else 1.

(** The delay of a word other than the break token, as a product. *)
Lemma getWordDelay_product word wpm pause pm wl lb :
  word <> [] -> word <> BREAK -> (0 < wpm)%Q ->
  (getWordDelay word wpm pause pm wl lb
   == (60000 / wpm) * markerFactor word
      * lengthFactor wl (length (stripMarker word))
      * punctuationFactor pause pm (stripMarker word))%Q.
Proof.
  intros Hne Hbr Hwpm. unfold getWordDelay.
  assert (E0 : (length word =? 0) = false)
    by (destruct word; [congruence | reflexivity]).
  rewrite E0, (Qle_bool_false_lt _ Hwpm).
  replace (jsstring_eqb word BREAK) with false
    by (symmetry; apply bool_decide_eq_false; exact Hbr).
  unfold markerFactor, lengthFactor, punctuationFactor, stripMarker.
  destruct (startsWithMarker word);
    destruct (negb (Qle_bool wl 0) && _); destruct pause;
    try destruct (endsWithSentencePunctuation _);
    try destruct (endsWithComma _); ring.
Qed.






(** Words of letters only: a 13-letter word is shown strictly longer
    than a 12-letter word, and a 12-letter word exactly as long as an
    11-letter word, since the scaling factor [1 + m/100 * (len - 12)] is
    1 at the threshold itself. *)
Lemma getWordDelay_long_word_steps
    (w11 w12 w13 : jsstring) (wpm : Q) (pause : bool) (pm wl lb : Q) :
  (0 < wpm)%Q -> (0 < wl)%Q ->
  plainWord 11 w11 -> plainWord 12 w12 -> plainWord 13 w13 ->
  (getWordDelay w12 wpm pause pm wl lb
   == getWordDelay w11 wpm pause pm wl lb)%Q
  /\ (getWordDelay w12 wpm pause pm wl lb
      < getWordDelay w13 wpm pause pm wl lb)%Q.
Proof.
  intros Hwpm Hwl H11 H12 H13.
  rewrite (getWordDelay_plain 11 w11), (getWordDelay_plain 12 w12),
    (getWordDelay_plain 13 w13) by (assumption || lia).
  cbn [Nat.leb].
  change (inject_Z (Z.of_nat 12 - 12)) with 0%Q.
  change (inject_Z (Z.of_nat 13 - 12)) with 1%Q.
  pose proof (base_delay_pos wpm Hwpm) as Hb.
  set (b := (60000 / wpm)%Q) in *.
  split; [ring|].
  assert (Hprod : (0 < b * wl)%Q) by (apply Qmult_lt_0_compat; assumption).
  assert (E13 : (b * (1 + wl / 100 * 1) == b + (b * wl) * (1 # 100))%Q)
    by field.
  assert (E12 : (b * (1 + wl / 100 * 0) == b)%Q) by ring.
  rewrite E13, E12. lra.
Qed.

Lemma getWordDelay_long_word_steps_witness :
  (getWordDelay (js "professional") 300 true 2 50 3
   == getWordDelay (js "information") 300 true 2 50 3)%Q
  /\ (getWordDelay (js "professional") 300 true 2 50 3
      < getWordDelay (js "international") 300 true 2 50 3)%Q.
Proof.
  apply (getWordDelay_long_word_steps
           (js "information") (js "professional") (js "international")
           300 true 2 50 3);
    first [ reflexivity | repeat split ].
Defined.



(** *** The optimal recognition point *)

Section Letters.
Variable is_letter : N -> bool.

(** Number of letters of a word, in code points. *)
Definition letterCount (word : jsstring) : nat :=
  length (lettersOnly is_letter (stripMarker word)).

(** No surrogate code unit: every code point of the word lies in the
    Basic Multilingual Plane. *)
Definition bmpOnly (word : jsstring) : Prop :=
  Forall (fun c => (c < 55296)%N \/ (57343 < c)%N) word
  /\ Forall (fun c => (c < 65536)%N) word.

Lemma code_points_bmp word :
  Forall (fun c => (c < 55296)%N \/ (57343 < c)%N) word ->
  code_points word = word.
Proof.
  induction 1 as [|c s Hc Hs IH]; [reflexivity|].
  cbn [code_points]. destruct s as [|l rest]; [reflexivity|].
  assert (E : is_high_surrogate c = false).
  { unfold is_high_surrogate. apply andb_false_iff.
    destruct Hc; [left; apply N.leb_gt | right; apply N.leb_gt]; lia. }
  rewrite E. simpl andb. rewrite IH. reflexivity.
Qed.

Lemma utf16_length_bmp cps :
  Forall (fun c => (c < 65536)%N) cps -> utf16_length cps = length cps.
Proof.
  induction 1 as [|c s Hc _ IH]; [reflexivity|]. simpl.
  unfold utf16_width. apply N.ltb_lt in Hc. rewrite Hc, IH. reflexivity.
Qed.

Lemma bmpOnly_stripMarker word : bmpOnly word -> bmpOnly (stripMarker word).
Proof.
  unfold stripMarker, substring1. destruct (startsWithMarker word); [|tauto].
  intros [H1 H2]. split; apply Forall_drop; assumption.
Qed.

(** On words of the Basic Multilingual Plane [getORPIndex] is the table
    value of the number of letters. *)
Lemma getORPIndex_bmp word :
  bmpOnly word -> getORPIndex is_letter word = orpTable (letterCount word).
Proof.
  intros H. unfold getORPIndex, letterCount.
  destruct word as [|c word]; [reflexivity|]. simpl Nat.eqb. cbv iota.
  apply bmpOnly_stripMarker in H. destruct H as [H1 H2].
  f_equal. apply utf16_length_bmp. unfold lettersOnly.
  rewrite (code_points_bmp _ H1).
  apply List.Forall_forall. intros x Hx. apply List.filter_In in Hx.
  rewrite List.Forall_forall in H2. apply H2, Hx.
Qed.

(** The scan of [getActualORPIndex] returns a position of the string it
    scans. *)
Lemma orpScan_bounds orpIndex s i letterCount r :
  orpScan is_letter orpIndex s i letterCount = Some r ->
  i <= r < i + length s.
Proof.
  revert i letterCount. induction s as [|c s IH]; intros i k H; [discriminate|].
  simpl in H. destruct (is_letter c).
  - destruct (k =? orpIndex).
    + injection H as <-. simpl. lia.
    + apply IH in H. simpl. lia.
  - apply IH in H. simpl. lia.
Qed.

(** Whenever something remains of the word after the marker is
    stripped, [getActualORPIndex] is a position of that remainder. *)
Lemma getActualORPIndex_in_bounds word :
  stripMarker word <> [] ->
  (0 <= getActualORPIndex is_letter word
   < Z.of_nat (length (stripMarker word)))%Z.
Proof.
  intros Hne. unfold getActualORPIndex.
  destruct word as [|c word]; [contradiction|]. simpl Nat.eqb. cbv iota.
  set (cleanWord := stripMarker (c :: word)) in *.
  destruct (orpScan _ _ cleanWord 0 0) as [r|] eqn:E.
  - apply orpScan_bounds in E. lia.
  - destruct cleanWord; [contradiction|]. simpl length. lia.
Qed.

End Letters.

(** The two scenarios of the ORP table: a word of seven letters and a word
    of one letter. *)
Lemma getORPIndex_reading_and_a (is_letter : N -> bool) :
  (forall c : N, (97 <= c <= 122)%N -> is_letter c = true) ->
  getORPIndex is_letter (js "reading") = 2
  /\ getORPIndex is_letter (js "a") = 0.
Proof.
  intros H. unfold getORPIndex, lettersOnly. simpl.
  rewrite !H by lia. split; reflexivity.
Qed.

(** C7, where the code departs from it.  The word made of the two letters
    U+20000 and U+20001 (CJK ideographs outside the Basic Multilingual
    Plane, each a surrogate pair in UTF-16) has two letters, for which the
    table gives index 0; [getORPIndex] measures the letters with
    [String.length], counts four and returns index 1. *)
Theorem getORPIndex_counts_code_units (is_letter : N -> bool) :
  is_letter 131072%N = true -> is_letter 131073%N = true ->
  let word := [55360; 56320; 55360; 56321]%N in
  letterCount is_letter word = 2
  /\ orpTable (letterCount is_letter word) = 0
  /\ getORPIndex is_letter word = 1.
Proof.
  intros H0 H1 word. unfold letterCount, getORPIndex, lettersOnly.
  simpl. change (combine_surrogates 55360 56320) with 131072%N.
  change (combine_surrogates 55360 56321) with 131073%N.
  rewrite H0, H1. repeat split.
Qed.

(** The letters of the range U+20000 to U+2A6DF, all of category Lo. *)
Definition cjkExtensionB (cp : N) : bool :=
  ((131072 <=? cp) && (cp <=? 173791))%N.

Lemma getORPIndex_counts_code_units_witness :
  letterCount cjkExtensionB [55360; 56320; 55360; 56321]%N = 2
  /\ orpTable (letterCount cjkExtensionB [55360; 56320; 55360; 56321]%N) = 0
  /\ getORPIndex cjkExtensionB [55360; 56320; 55360; 56321]%N = 1.
Proof.
  apply (getORPIndex_counts_code_units cjkExtensionB); reflexivity.
Defined.

(** C9, where the code departs from it.  The one-character word that is
    just the marker is not empty, yet nothing remains after the marker is
    stripped, the clamp [Math.min(orpIndex, cleanWord.length - 1)] is
    taken at length 0 and the result is -1. *)
Theorem getActualORPIndex_marker_only (is_letter : N -> bool) :
  [MARKER] <> [] /\ getActualORPIndex is_letter [MARKER] = (-1)%Z.
Proof. split; [discriminate | reflexivity]. Qed.

End TimingProofs.

(** ** The position mapper *)

Module PositionProofs.
Import ContentUtils NumberProofs.

(** A chapter with the given bounds; the other fields are irrelevant to
    the position mapper. *)
Definition chapterOver (startIndex endIndex : Z) : Chapter :=
  mkChapter (LabelText []) (LabelText []) 1 [] None
    startIndex endIndex (endIndex - startIndex) [].

(** Three chapters of 100, 150 and 50 words. *)
Definition threeChapters : ContentStructure :=
  mkContentStructure
    [chapterOver 0 100; chapterOver 100 250; chapterOver 250 300]
    [] true (Some []).



Lemma scrollPercent_of_chapter_2_at_225 :
  (getScrollPercentageInChapter (chapters threeChapters !! 2%nat) 225 == -50)%Q.
Proof. reflexivity. Qed.



(** *** From scroll percentage to word index *)

Lemma inject_Z_nonzero (z : Z) : z <> 0%Z -> ~ (inject_Z z == 0)%Q.
Proof. intros H E. apply H. unfold Qeq in E. simpl in E. lia. Qed.










(** [p] is the percentage [exact] up to the rounding of a few operations
    on doubles: a relative error of at most three units of roundoff. *)
Definition near (p exact : Q) : Prop :=
  (exact * (1 - 3 * unitRoundoff) <= p)%Q
  /\ (p <= exact * (1 + 3 * unitRoundoff))%Q.


(** The exact percentage and the percentage that the source's expression
    [(offset / total) * 100] gives on doubles are both near the exact
    one. *)
Lemma near_exact (e : Q) : (0 <= e)%Q -> near e e.
Proof.
  intros H. unfold near. rewrite unitRoundoff_value. split; lra.
Qed.




(** Nor is the function an exact inverse of the scroll percentage: in a
    chapter of 100 words the percentage of word 29, on doubles
    28.999999999999996, maps back to word 28, and so does the percentage
    29 itself. *)
Lemma getWordIndexFromScroll_word_29 :
  let ch := chapterOver 0 100 in
  getWordIndexFromScroll (Some ch) (JsNumber.mul (JsNumber.div 29 100) 100)
  = 28%Z
  /\ getWordIndexFromScroll (Some ch) 29 = 28%Z
  /\ getWordIndexFromScroll (Some ch) (JsNumber.mul (JsNumber.div 30 100) 100)
     = 30%Z.
Proof. vm_compute. repeat split. Qed.



End PositionProofs.

(** ** The document structurer *)

Module StructurerProofs.
Import RsvpUtils.

(** The chapters, in order, tile the interval from [from] to [to]: each
    starts where its predecessor ends, none has negative width, and
    [wordCount] is the width. *)
Fixpoint tiles (from : Z) (chs : list Chapter) (to : Z) : Prop :=
  match chs with
  | [] => from = to
  | ch :: rest =>
      startWordIndex ch = from
      /\ (startWordIndex ch <= endWordIndex ch)%Z
      /\ wordCount ch = (endWordIndex ch - startWordIndex ch)%Z
      /\ tiles (endWordIndex ch) rest to
  end.

Definition totalWordCount (chs : list Chapter) : Z :=
  foldr (fun ch n => (wordCount ch + n)%Z) 0%Z chs.

(** Token coverage of a structured document: the chapter intervals
    partition [0, words.length) and the word counts add up to
    [words.length]. *)
Definition tokenCoverage (r : ParseResult) : Prop :=
  let chs := chapters (Document.contentStructure r) in
  let n := Z.of_nat (length (Document.words r)) in
  tiles 0 chs n /\ totalWordCount chs = n.

Lemma tiles_app from mid to chs1 chs2 :
  tiles from chs1 mid -> tiles mid chs2 to -> tiles from (chs1 ++ chs2) to.
Proof.
  revert from. induction chs1 as [|ch chs1 IH]; simpl; intros from H1 H2.
  - subst. exact H2.
  - destruct H1 as (Hs & Hle & Hc & Ht). repeat split; try assumption.
    apply IH; assumption.
Qed.

Lemma tiles_total from chs to :
  tiles from chs to -> (to = from + totalWordCount chs)%Z.
Proof.
  revert from. induction chs as [|ch chs IH]; simpl; intros from H.
  - lia.
  - destruct H as (Hs & Hle & Hc & Ht). apply IH in Ht. lia.
Qed.

Lemma totalWordCount_app chs1 chs2 :
  totalWordCount (chs1 ++ chs2)
  = (totalWordCount chs1 + totalWordCount chs2)%Z.
Proof. induction chs1 as [|ch chs1 IH]; simpl; lia. Qed.

(** *** The EPUB path *)

Import EpubStructureParser.

Lemma buildLoop_invariant chapters allWords done allImages current :
  exists newWords newChapters newImages,
    buildLoop chapters allWords done allImages current
    = (allWords ++ newWords, done ++ newChapters, allImages ++ newImages)
    /\ tiles current newChapters (current + Z.of_nat (length newWords)).
Proof.
  revert allWords done allImages current.
  induction chapters as [|chapter rest IH]; intros allWords done allImages current.
  - exists [], [], []. rewrite !app_nil_r. split; [reflexivity|]. simpl. lia.
  - cbn [buildLoop].
    set (chapterWords := parseText (rawPlainText chapter)).
    set (endIndex := (current + Z.of_nat (length chapterWords))%Z).
    set (imgs := map (globalImage current) (rawImages chapter)).
    set (ch := mkChapter _ _ _ _ _ _ _ _ _).
    destruct (IH (allWords ++ chapterWords) (done ++ [ch])
                (allImages ++ imgs) endIndex)
      as (ws & chs & ims & Heq & Htiles).
    exists (chapterWords ++ ws), (ch :: chs), (imgs ++ ims).
    rewrite Heq, <- !app_assoc. split; [reflexivity|].
    simpl. repeat split; try (unfold endIndex; lia).
    rewrite length_app, Nat2Z.inj_add.
    replace (current + (Z.of_nat (length chapterWords) + Z.of_nat (length ws)))%Z
      with (endIndex + Z.of_nat (length ws))%Z by (unfold endIndex; lia).
    exact Htiles.
Qed.

(** On the EPUB path the global word array is the concatenation of the
    chapters' words, and token coverage holds for every input. *)
Lemma parseEPUBWithStructure_token_coverage chapters tocLength :
  tokenCoverage (parseEPUBWithStructure chapters tocLength).
Proof.
  unfold tokenCoverage, parseEPUBWithStructure, buildWordBoundaries.
  destruct (buildLoop_invariant chapters [] [] [] 0)
    as (ws & chs & ims & Heq & Htiles).
  rewrite Heq. simpl. split; [exact Htiles|].
  apply tiles_total in Htiles. lia.
Qed.

(** *** The PDF path *)

Import FileParsers.

(** The chapter intervals of the PDF path tile an interval too: the one
    that ends at the sum of the per-chapter counts. *)
Lemma boundariesFrom_tiles chapters current :
  tiles current (boundariesFrom chapters current)
    (current + totalWordCount (boundariesFrom chapters current)).
Proof.
  revert current. induction chapters as [|chapter rest IH]; intros current; simpl.
  - lia.
  - repeat split; try lia.
    specialize (IH (current + Z.of_nat (length (parseText (rawPlainText chapter))))%Z).
    rewrite Z.add_assoc. exact IH.
Qed.

(** A two-page document, "a" and "b", with one outline entry per page. *)
Definition twoPages : ParseResult :=
  parsePDFWithStructure [js "a"; js "b"]
    (Some [mkOutlineItem (Some (js "One")) (Some 0);
           mkOutlineItem (Some (js "Two")) (Some 1)])
    (js "two.pdf").

(** A document of twenty one-word pages without outline. *)
Definition twentyPages : ParseResult :=
  parsePDFWithStructure (replicate 20 (js "a")) None (js "twenty.pdf").

(** C1, where the code departs from it.  On the PDF path the global word
    array is parsed from the whole text, the chapter counts from each
    chapter's text: the break token that the whole text has between two
    chapters belongs to no chapter.  With two one-word chapters the word
    array has 3 tokens and the chapters cover [0, 2); with twenty
    one-word pages in two page chunks it has 39 and they cover [0, 38). *)
Theorem parsePDFWithStructure_token_coverage_fails :
  (length (Document.words twoPages) = 3
   /\ map (fun ch => (startWordIndex ch, endWordIndex ch, wordCount ch))
        (chapters (Document.contentStructure twoPages))
      = [(0, 1, 1); (1, 2, 1)]%Z
   /\ ~ tokenCoverage twoPages)
  /\ (length (Document.words twentyPages) = 39
      /\ map (fun ch => (startWordIndex ch, endWordIndex ch, wordCount ch))
           (chapters (Document.contentStructure twentyPages))
         = [(0, 19, 19); (19, 38, 19)]%Z
      /\ ~ tokenCoverage twentyPages).
Proof.
  split; (split; [reflexivity | split; [reflexivity|]]);
    intros [_ H]; vm_compute in H; discriminate.
Qed.

End StructurerProofs.
(** ** The session store *)

Module StorageProofs.
Import ProgressStorage.

Section Store.
Variable Session : Type.
Variable serialize : Session -> Z -> string.
Variable blobSize : string -> N.
Variable Parsed : Type.
Variable jsonParse : string -> option Parsed.
Variable lsPolicy : gmap string string -> string -> string -> SetOutcome.

(** The small tier takes the promotion flag, whatever it holds. *)
Definition acceptsFlag : Prop :=
  forall store, lsPolicy store USE_INDEXEDDB_KEY "true" = SetOk.

(** The store in which [saveSession] writes the session: the probe key
    has been written and removed. *)
Definition afterProbe (store : gmap string string) : gmap string string :=
  delete TEST_KEY (<[TEST_KEY := "test"]> store).

(** The write of the payload under the session key fails with a quota
    error in the state [w]. *)
Definition quotaErrorOnSave (payload : string) (w : World Session) : Prop :=
  lsPolicy (afterProbe (ls w)) STORAGE_KEY payload = SetQuotaExceeded.

(** The state after a promotion from [w]: the flag is set in the small
    tier, whose session key is as before; the last backend access is the
    put of the session on the large tier, which holds it if it works. *)
Definition promoted (session : Session) (w w' : World Session) : Prop :=
  ls w' !! USE_INDEXEDDB_KEY = Some "true"
  /\ ls w' !! STORAGE_KEY = ls w !! STORAGE_KEY
  /\ idb w' = (if idbWorks w then Some (session, now w) else idb w)
  /\ idbWorks w' = idbWorks w
  /\ last (log w') = Some IdbPut.

(** The backend accesses of a load that goes to the large tier directly:
    the flag is read, then the record; the session key of the small tier
    is not read. *)
Definition directLoad (w : World Session) : option (Session * Z) * World Session :=
  (if idbWorks w then idb w else None,
   mkWorld (ls w) (idb w) (idbWorks w) (now w)
     (log w ++ [LsGetItem USE_INDEXEDDB_KEY; IdbGet])).

Lemma keys_distinct :
  USE_INDEXEDDB_KEY <> STORAGE_KEY /\ TEST_KEY <> STORAGE_KEY
  /\ TEST_KEY <> USE_INDEXEDDB_KEY.
Proof. repeat split; discriminate. Qed.

Lemma switchToIndexedDB_promotes session (w0 w : World Session) :
  acceptsFlag ->
  ls w !! STORAGE_KEY = ls w0 !! STORAGE_KEY ->
  idb w = idb w0 -> idbWorks w = idbWorks w0 -> now w = now w0 ->
  exists w', switchToIndexedDB Session lsPolicy session w
             = (ReturnsPromise (idbWorks w0), w')
             /\ promoted session w0 w'.
Proof.
  intros Hflag Hkey Hidb Hworks Hnow.
  unfold switchToIndexedDB, setItem. rewrite Hflag.
  unfold saveSessionToIndexedDB, logged, promoted. simpl.
  rewrite Hworks. destruct (idbWorks w0); simpl; eexists;
    (split; [reflexivity|]); simpl;
    rewrite ?last_snoc, ?Hidb, ?Hnow, ?Hworks; repeat split;
    try apply lookup_insert_eq;
    rewrite lookup_insert_ne by discriminate; exact Hkey.
Qed.

Lemma loadSession_flagged (w : World Session) :
  ls w !! USE_INDEXEDDB_KEY = Some "true" ->
  loadSession Session Parsed jsonParse w
  = (LoadedRecord <$> fst (directLoad w), snd (directLoad w)).
Proof.
  intros Hflag. unfold loadSession, getItem. rewrite Hflag.
  rewrite bool_decide_eq_true_2 by reflexivity.
  unfold fromIndexedDB, loadSessionFromIndexedDB, directLoad, logged. simpl.
  rewrite <- app_assoc. destruct (idbWorks w); reflexivity.
Qed.

(** Where the small tier takes the write of the flag.  When the flag is not yet set and the write of the session payload
    to the small tier fails with a quota error, or the payload is larger
    than 2MB,
    [saveSession] hands the same session to the large tier (its result is
    the promise of that put) and leaves the flag set in the small tier,
    which takes that one small write.  Whenever the flag is set,
    [loadSession] reads the flag and then the large tier, and never reads
    the session key of the small tier; after the promotion it gives back
    the session that was saved. *)
Theorem saveSession_promotes_and_loadSession_goes_direct
    (session : Session) (w : World Session) :
  ls w !! USE_INDEXEDDB_KEY <> Some "true" ->
  acceptsFlag ->
  quotaErrorOnSave (serialize session (now w)) w
  \/ (TWO_MB < blobSize (serialize session (now w)))%N ->
  let saved := saveSession Session serialize blobSize lsPolicy session w in
  fst saved = ReturnsPromise (idbWorks w)
  /\ promoted session w (snd saved)
  /\ (forall w2 : World Session,
        ls w2 !! USE_INDEXEDDB_KEY = Some "true" ->
        loadSession Session Parsed jsonParse w2
        = (LoadedRecord <$> fst (directLoad w2), snd (directLoad w2)))
  /\ (idbWorks w = true ->
      fst (loadSession Session Parsed jsonParse (snd saved))
      = Some (LoadedRecord (session, now w))).
Proof.
  intros Hunset Hflag Hbig saved.
  assert (Hsave : exists w', saved = (ReturnsPromise (idbWorks w), w')
                             /\ promoted session w w').
  { unfold saved, saveSession, getItem.
    rewrite bool_decide_eq_false_2 by exact Hunset.
    unfold setItem at 1. simpl.
    destruct (lsPolicy (ls w) TEST_KEY "test");
      [| apply switchToIndexedDB_promotes; auto
       | apply switchToIndexedDB_promotes; auto ].
    simpl.
    assert (Hsw : forall w3 : World Session,
               ls w3 !! STORAGE_KEY = ls w !! STORAGE_KEY ->
               idb w3 = idb w -> idbWorks w3 = idbWorks w -> now w3 = now w ->
               exists w', switchToIndexedDB Session lsPolicy session w3
                          = (ReturnsPromise (idbWorks w), w')
                          /\ promoted session w w')
      by (intros; apply switchToIndexedDB_promotes; auto).
    destruct (TWO_MB <? blobSize (serialize session (now w)))%N eqn:Esize.
    - match goal with
      | |- context [setItem _ _ _ _ ?w3] =>
          destruct (Hsw w3) as (w' & Hw' & Hprom);
            [ simpl; rewrite lookup_delete_ne, lookup_insert_ne by discriminate;
              reflexivity
            | reflexivity | reflexivity | reflexivity | ]
      end.
      exists w'. split; [|exact Hprom].
      unfold switchToIndexedDB in Hw'. unfold setItem in *.
      rewrite Hflag in *. exact Hw'.
    - destruct Hbig as [Hquota | Hsize]; [| apply N.ltb_lt in Hsize; congruence].
      unfold setItem at 1. unfold quotaErrorOnSave, afterProbe in Hquota.
      simpl. rewrite Hquota. simpl.
      apply Hsw; try reflexivity. simpl.
      rewrite lookup_delete_ne, lookup_insert_ne by discriminate. reflexivity. }
  destruct Hsave as (w' & Hsaved & Hprom). rewrite Hsaved. simpl.
  repeat split; try apply Hprom.
  - intros w2. apply loadSession_flagged.
  - intros Hworks. destruct Hprom as (Hf & _ & Hidb & Hw & _).
    rewrite (loadSession_flagged _ Hf). simpl.
    rewrite Hw, Hworks, Hidb, Hworks. reflexivity.
Qed.

(** The small tier refuses the promotion flag too, with a quota error:
    it is full. *)
Definition refusesFlag : Prop :=
  forall store, lsPolicy store USE_INDEXEDDB_KEY "true" = SetQuotaExceeded.

Lemma switchToIndexedDB_throws session (w0 w : World Session) :
  refusesFlag ->
  ls w !! USE_INDEXEDDB_KEY = ls w0 !! USE_INDEXEDDB_KEY ->
  idb w = idb w0 ->
  Forall (fun op => op <> IdbPut) (drop (length (log w0)) (log w)) ->
  length (log w0) <= length (log w) ->
  exists w', switchToIndexedDB Session lsPolicy session w = (Throws, w')
    /\ ls w' !! USE_INDEXEDDB_KEY = ls w0 !! USE_INDEXEDDB_KEY
    /\ idb w' = idb w0
    /\ Forall (fun op => op <> IdbPut) (drop (length (log w0)) (log w')).
Proof.
  intros Hflag Hkey Hidb Hlog Hlen.
  unfold switchToIndexedDB, setItem. rewrite Hflag.
  unfold logged. eexists. split; [reflexivity|]. cbn [ls idb log].
  split; [exact Hkey|]. split; [exact Hidb|].
  rewrite drop_app_le by exact Hlen.
  apply Forall_app_2; [exact Hlog|]. repeat constructor. discriminate.
Qed.

(** C3, where the code departs from it.  When the small tier is full, so
    that it refuses the write of the flag as well, the retry on the large
    tier is not reached: whether the probe write fails, the payload is
    over 2MB or the session write fails with a quota error, the write of
    the flag throws out of [saveSession].  The session is in neither tier
    afterwards, the flag is not set and IndexedDB has not been
    accessed. *)
Theorem saveSession_full_small_tier_throws
    (session : Session) (w : World Session) :
  ls w !! USE_INDEXEDDB_KEY <> Some "true" ->
  refusesFlag ->
  lsPolicy (ls w) TEST_KEY "test" <> SetOk
  \/ quotaErrorOnSave (serialize session (now w)) w
  \/ (TWO_MB < blobSize (serialize session (now w)))%N ->
  let saved := saveSession Session serialize blobSize lsPolicy session w in
  fst saved = Throws
  /\ idb (snd saved) = idb w
  /\ ls (snd saved) !! USE_INDEXEDDB_KEY = ls w !! USE_INDEXEDDB_KEY
  /\ Forall (fun op => op <> IdbPut)
       (drop (length (log w)) (log (snd saved))).
Proof.
  intros Hunset Hflag Hfail saved.
  assert (Hsave : exists w', saved = (Throws, w')
            /\ ls w' !! USE_INDEXEDDB_KEY = ls w !! USE_INDEXEDDB_KEY
            /\ idb w' = idb w
            /\ Forall (fun op => op <> IdbPut) (drop (length (log w)) (log w'))).
  { unfold saved, saveSession, getItem.
    rewrite bool_decide_eq_false_2 by exact Hunset.
    assert (Hsw : forall w3 : World Session,
               ls w3 !! USE_INDEXEDDB_KEY = ls w !! USE_INDEXEDDB_KEY ->
               idb w3 = idb w ->
               Forall (fun op => op <> IdbPut) (drop (length (log w)) (log w3)) ->
               length (log w) <= length (log w3) ->
               exists w', switchToIndexedDB Session lsPolicy session w3 = (Throws, w')
                 /\ ls w' !! USE_INDEXEDDB_KEY = ls w !! USE_INDEXEDDB_KEY
                 /\ idb w' = idb w
                 /\ Forall (fun op => op <> IdbPut)
                      (drop (length (log w)) (log w')))
      by (intros; apply switchToIndexedDB_throws; auto).
    unfold setItem at 1. cbn [ls logged idb idbWorks now log].
    destruct (lsPolicy (ls w) TEST_KEY "test") eqn:Eprobe.
    - set (w3 := removeItem Session TEST_KEY _).
      assert (Hls3 : ls w3 = afterProbe (ls w)) by reflexivity.
      assert (Hidb3 : idb w3 = idb w) by reflexivity.
      assert (Hlog3 : log w3
                      = log w ++ [LsGetItem USE_INDEXEDDB_KEY;
                                  LsSetItem TEST_KEY; LsRemoveItem TEST_KEY]).
      { unfold w3, removeItem, logged. cbn [log].
        rewrite <- !app_assoc. reflexivity. }
      assert (Hboth : forall key,
                exists w', switchToIndexedDB Session lsPolicy session
                             (logged Session (LsSetItem key) w3) = (Throws, w')
                  /\ ls w' !! USE_INDEXEDDB_KEY = ls w !! USE_INDEXEDDB_KEY
                  /\ idb w' = idb w
                  /\ Forall (fun op => op <> IdbPut)
                       (drop (length (log w)) (log w'))).
      { intros key. apply Hsw; unfold logged; cbn [ls idb log].
        - rewrite Hls3. unfold afterProbe.
          rewrite lookup_delete_ne, lookup_insert_ne by discriminate. reflexivity.
        - exact Hidb3.
        - rewrite Hlog3, <- app_assoc, drop_app_length.
          repeat constructor; discriminate.
        - rewrite Hlog3, !length_app. lia. }
      change (now w3) with (now w).
      destruct (TWO_MB <? blobSize (serialize session (now w)))%N eqn:Esize.
      + unfold setItem. rewrite Hflag. cbn [onSaveError]. apply Hboth.
      + destruct Hfail as [Hp | [Hq | Hs]];
          [congruence | | apply N.ltb_lt in Hs; congruence].
        unfold setItem. unfold quotaErrorOnSave in Hq.
        rewrite Hls3, Hq. cbn [onSaveError]. apply Hboth.
    - apply Hsw; unfold logged; cbn [ls idb log].
      + reflexivity.
      + reflexivity.
      + rewrite <- app_assoc, drop_app_length. repeat constructor; discriminate.
      + rewrite !length_app. lia.
    - apply Hsw; unfold logged; cbn [ls idb log].
      + reflexivity.
      + reflexivity.
      + rewrite <- app_assoc, drop_app_length. repeat constructor; discriminate.
      + rewrite !length_app. lia. }
  destruct Hsave as (w' & -> & H1 & H2 & H3). cbn [fst snd].
  split; [reflexivity|]. split; [exact H2|]. split; [exact H1 | exact H3].
Qed.

End Store.

(** The scenario of the specification: a small tier that throws a quota
    error on any payload over 100 bytes, and a session whose payload has
    200 bytes. *)
Fixpoint payloadOf (bytes : nat) : string :=
  match bytes with
  | 0 => EmptyString
  | S n => String "x" (payloadOf n)
  end.

Definition smallQuota (store : gmap string string) (key value : string)
  : SetOutcome :=
  if 100 <? String.length value then SetQuotaExceeded else SetOk.

Definition emptyWorld : World nat := mkWorld ∅ None true 0%Z [].

Lemma saveSession_promotes_and_loadSession_goes_direct_witness :
  let save :=
    saveSession nat (fun n _ => payloadOf n)
      (fun s => N.of_nat (String.length s)) smallQuota in
  let load := loadSession nat string (fun s => Some s) in
  fst (save 200 emptyWorld) = ReturnsPromise true
  /\ ls (snd (save 200 emptyWorld)) !! USE_INDEXEDDB_KEY = Some "true"
  /\ fst (load (snd (save 200 emptyWorld))) = Some (LoadedRecord (200, 0%Z)).
Proof.
  intros save load.
  assert (Hunset : ls emptyWorld !! USE_INDEXEDDB_KEY <> Some "true")
    by (unfold emptyWorld; simpl; rewrite lookup_empty; discriminate).
  assert (Hflag : acceptsFlag smallQuota) by (intros store; reflexivity).
  assert (Hquota : quotaErrorOnSave nat smallQuota (payloadOf 200) emptyWorld)
    by reflexivity.
  destruct (saveSession_promotes_and_loadSession_goes_direct
              nat (fun n _ => payloadOf n) (fun s => N.of_nat (String.length s))
              string (fun s => Some s) smallQuota 200 emptyWorld
              Hunset Hflag (or_introl Hquota))
    as (Hres & Hprom & _ & Hload).
  split; [exact Hres | split; [apply Hprom | apply Hload; reflexivity]].
Defined.

(** A small tier that is full: every write fails with a quota error. *)
Definition fullStorage (store : gmap string string) (key value : string)
  : SetOutcome := SetQuotaExceeded.

Lemma saveSession_full_small_tier_throws_witness :
  let save :=
    saveSession nat (fun n _ => payloadOf n)
      (fun s => N.of_nat (String.length s)) fullStorage in
  fst (save 200 emptyWorld) = Throws
  /\ idb (snd (save 200 emptyWorld)) = None
  /\ ls (snd (save 200 emptyWorld)) !! USE_INDEXEDDB_KEY = None.
Proof.
  intros save.
  assert (Hunset : ls emptyWorld !! USE_INDEXEDDB_KEY <> Some "true")
    by (unfold emptyWorld; simpl; rewrite lookup_empty; discriminate).
  assert (Hflag : refusesFlag fullStorage) by (intros store; reflexivity).
  assert (Hquota : quotaErrorOnSave nat fullStorage (payloadOf 200) emptyWorld)
    by reflexivity.
  destruct (saveSession_full_small_tier_throws
              nat (fun n _ => payloadOf n) (fun s => N.of_nat (String.length s))
              fullStorage 200 emptyWorld Hunset Hflag (or_intror (or_introl Hquota)))
    as (Hres & Hidb & Hkey & _).
  split; [exact Hres | split; [exact Hidb | exact Hkey]].
Defined.

End StorageProofs.

(** ** The playback orchestrator *)

Module PlaybackProofs.
Import App.

(** What the forward step reads to decide what it does: the word stream,
    the position, the settings, the document structure and the text. *)
Definition reading (st : AppState)
  : list jsstring * Z * Settings * option ContentStructure * jsstring :=
  (words st, currentWordIndex st, settings st, contentStructure st, text st).

Ltac unfold_app :=
  unfold reading, pause, stop, stopReaderAutoScroll, startAutoSave,
    stopAutoSave, saveCurrentSession, clearStepTimer, clearTimer,
    setTimeout, setInterval, handleReaderScroll, readerToRsvp,
    scheduleNextWord, showImage in *.

Ltac frame st :=
  destruct st; unfold_app; simpl;
  repeat match goal with
         | |- context [match ?x with _ => _ end] => destruct x; simpl
         end;
  reflexivity.

Lemma pause_reading st : reading (pause st) = reading st.
Proof. frame st. Qed.

Lemma stop_reading st : reading (stop st) = reading st.
Proof. frame st. Qed.

Lemma stopReaderAutoScroll_reading st :
  reading (stopReaderAutoScroll st) = reading st.
Proof. frame st. Qed.

Lemma startAutoSave_reading st : reading (startAutoSave st) = reading st.
Proof. frame st. Qed.

Lemma handleReaderScroll_reading p st :
  reading (handleReaderScroll p st) = reading st.
Proof. frame st. Qed.

Lemma scheduleNextWord_reading st : reading (scheduleNextWord st) = reading st.
Proof. frame st. Qed.

Lemma showImage_reading image st : reading (showImage image st) = reading st.
Proof. frame st. Qed.


Lemma pause_mode st : readingMode (pause st) = readingMode st.
Proof. frame st. Qed.

Lemma stop_mode st : readingMode (stop st) = readingMode st.
Proof. frame st. Qed.

Lemma stopReaderAutoScroll_mode st :
  readingMode (stopReaderAutoScroll st) = readingMode st.
Proof. frame st. Qed.

Lemma startAutoSave_mode st : readingMode (startAutoSave st) = readingMode st.
Proof. frame st. Qed.

Lemma scheduleNextWord_mode st :
  readingMode (scheduleNextWord st) = readingMode st.
Proof. frame st. Qed.

Lemma showImage_mode image st : readingMode (showImage image st) = readingMode st.
Proof. frame st. Qed.

Lemma scheduleNextWord_index st :
  currentWordIndex (scheduleNextWord st) = currentWordIndex st.
Proof. frame st. Qed.

Lemma startAutoSave_index st :
  currentWordIndex (startAutoSave st) = currentWordIndex st.
Proof. frame st. Qed.

(** *** The forward step *)

(** Whether the forward step at the current position displays a word: the
    position is before the end, no image marker is found there, and it is
    not a periodic-pause boundary. *)
Definition displaysWord (st : AppState) : bool :=
  negb (atEnd st)
  && match imageAtPosition st with None => true | Some _ => false end
  && negb (RsvpUtils.shouldPauseAtWord (currentWordIndex st)
             (pauseAfterWords (settings st))).

Lemma displaysWord_reading st st' :
  reading st' = reading st -> displaysWord st' = displaysWord st.
Proof.
  unfold reading, displaysWord, atEnd, imageAtPosition.
  intros H. injection H as -> -> -> -> _. reflexivity.
Qed.

Lemma advanceWord_index st :
  currentWordIndex (advanceWord st) = (currentWordIndex st + 1)%Z.
Proof.
  unfold advanceWord. rewrite scheduleNextWord_index.
  destruct st. unfold setTimeout. simpl.
  repeat match goal with
         | |- context [match ?x with _ => _ end] => destruct x; simpl
         end; reflexivity.
Qed.

Lemma advanceWord_mode st : readingMode (advanceWord st) = readingMode st.
Proof.
  unfold advanceWord. rewrite scheduleNextWord_mode.
  destruct st. unfold setTimeout. simpl.
  repeat match goal with
         | |- context [match ?x with _ => _ end] => destruct x; simpl
         end; reflexivity.
Qed.

Lemma showNextWord_index st :
  currentWordIndex (showNextWord st)
  = if displaysWord st then (currentWordIndex st + 1)%Z else currentWordIndex st.
Proof.
  unfold showNextWord, displaysWord.
  destruct (atEnd st); simpl.
  - pose proof (stop_reading st) as H. unfold reading in H. congruence.
  - destruct (imageAtPosition st) as [image|]; simpl.
    + pose proof (showImage_reading image st) as H. unfold reading in H. congruence.
    + destruct (RsvpUtils.shouldPauseAtWord _ _); simpl.
      * destruct st; reflexivity.
      * apply advanceWord_index.
Qed.

Lemma showNextWord_mode st : readingMode (showNextWord st) = readingMode st.
Proof.
  unfold showNextWord.
  destruct (atEnd st); [apply stop_mode|].
  destruct (imageAtPosition st); [apply showImage_mode|].
  destruct (RsvpUtils.shouldPauseAtWord _ _); [destruct st; reflexivity|].
  apply advanceWord_mode.
Qed.

Lemma length_eqb_0 {A} (l : list A) : l <> [] -> (length l =? 0) = false.
Proof. destruct l; [congruence | reflexivity]. Qed.

Lemma start_index st :
  words st <> [] ->
  currentWordIndex (start st)
  = if displaysWord st then (currentWordIndex st + 1)%Z else currentWordIndex st.
Proof.
  intros Hw. unfold start. rewrite (length_eqb_0 _ Hw). cbv zeta iota.
  rewrite (length_eqb_0 _ Hw).
  rewrite startAutoSave_index, showNextWord_index.
  rewrite (displaysWord_reading st) by (destruct st; reflexivity).
  destruct st; reflexivity.
Qed.

Lemma start_mode st : readingMode (start st) = readingMode st.
Proof.
  unfold start. destruct (length (words st) =? 0) eqn:E; cbv zeta iota.
  - destruct (length (words (App.parseText st)) =? 0);
      [destruct st; reflexivity|].
    rewrite startAutoSave_mode, showNextWord_mode. destruct st; reflexivity.
  - rewrite E. rewrite startAutoSave_mode, showNextWord_mode. destruct st; reflexivity.
Qed.


(** *** An unresolved image marker at the current position *)

Lemma showNextWord_unavailable st image :
  atEnd st = false -> imageAtPosition st = Some image ->
  unavailable image = true ->
  showNextWord st = st.
Proof.
  intros Hend Himg Hun. unfold showNextWord, showImage.
  rewrite Hend, Himg, Hun. reflexivity.
Qed.

(** C2, where the code departs from it.  With an image marker whose source
    could not be resolved at the current word index, the forward step
    returns the state it was given: playback is not paused, but the index
    is not advanced and no next step is scheduled either.  When the step
    timer fires there, it leaves the pending timers and nothing replaces
    it: playback stalls at the marker instead of advancing as for an
    ordinary token. *)
Theorem showNextWord_unavailable_image_stalls
    (st : AppState) (image : Image) (t : Timer) :
  atEnd st = false ->
  imageAtPosition st = Some image ->
  unavailable image = true ->
  callback t = CbShowNextWord -> repeating t = false ->
  showNextWord st = st
  /\ fire t st = clearTimer (timerId t) st
  /\ isPaused (fire t st) = isPaused st
  /\ currentWordIndex (fire t st) = currentWordIndex st
  /\ timers (fire t st)
     = List.filter (fun t' => negb (timerId t' =? timerId t)) (timers st).
Proof.
  intros Hend Himg Hun Hcb Hrep.
  assert (Hfire : fire t st = clearTimer (timerId t) st).
  { unfold fire. rewrite Hrep, Hcb. simpl.
    apply (showNextWord_unavailable _ image); [| | exact Hun].
    - rewrite <- Hend. destruct st; reflexivity.
    - rewrite <- Himg. destruct st; reflexivity. }
  split; [apply (showNextWord_unavailable _ image); assumption|].
  rewrite Hfire. repeat split; destruct st; reflexivity.
Qed.

Definition defaultSettings : Settings :=
  mkSettings 300 true 150 0 500 true 2 3 50 1 true 3.

Definition threeWords : list jsstring := [js "one"; js "two"; js "three"].

(** A document of one chapter over three words, with the given image
    markers. *)
Definition smallDocument (imgs : list Image) : ContentStructure :=
  mkContentStructure
    [mkChapter (LabelText (js "ch1")) (LabelText (js "One")) 1
       (js "one two three") None 0 3 3 imgs]
    [] true (Some imgs).

Definition stepTimer : Timer := mkTimer 1 CbShowNextWord 200 false.

(** Playing in word-at-a-time mode, one word shown, the step timer
    pending. *)
Definition playingAt1 (imgs : list Image) : AppState :=
  mkAppState threeWords (js "one two three") 1 true false false false
    (100 # 3) rsvp (Some (smallDocument imgs)) 0 0 false None None
    defaultSettings 1 (Some 1) None None None false [stepTimer] 2 [].

Definition unresolvedImage : Image :=
  mkImage (js "figure.png") (js "Image") 1 true.

Lemma showNextWord_unavailable_image_stalls_witness :
  let st := playingAt1 [unresolvedImage] in
  showNextWord st = st
  /\ fire stepTimer st = clearTimer 1 st
  /\ isPaused (fire stepTimer st) = false
  /\ currentWordIndex (fire stepTimer st) = 1%Z
  /\ timers (fire stepTimer st) = [].
Proof.
  intros st.
  exact (showNextWord_unavailable_image_stalls st unresolvedImage stepTimer
           eq_refl eq_refl eq_refl eq_refl eq_refl).
Defined.

(** The same step on an ordinary token: the index advances and the next
    step is pending (after the fade-in timer). *)
Lemma fire_ordinary_token_continues :
  let st := fire stepTimer (playingAt1 []) in
  currentWordIndex st = 2%Z
  /\ map callback (timers st) = [CbFadeIn; CbShowNextWord]
  /\ intervalId st = Some 3.
Proof. repeat split. Qed.


(** *** Switching between the two views *)

(** What [switchReadingMode] does first: pause playback, stop the
    auto-scroll. *)
Definition quieted (st : AppState) : AppState :=
  let st1 := if isPlaying st then pause st else st in
  if readerAutoScroll st1 then stopReaderAutoScroll st1 else st1.

Lemma quieted_reading st : reading (quieted st) = reading st.
Proof.
  unfold quieted. destruct (isPlaying st);
    match goal with
    | |- context [readerAutoScroll ?s] => destruct (readerAutoScroll s)
    end;
    rewrite ?stopReaderAutoScroll_reading, ?pause_reading; reflexivity.
Qed.

Lemma quieted_mode st : readingMode (quieted st) = readingMode st.
Proof.
  unfold quieted. destruct (isPlaying st);
    match goal with
    | |- context [readerAutoScroll ?s] => destruct (readerAutoScroll s)
    end;
    rewrite ?stopReaderAutoScroll_mode, ?pause_mode; reflexivity.
Qed.

Lemma findIndexFrom_bound {A} (p : A -> bool) (arr : list A) (i k : nat) :
  findIndexFrom p arr i = Some k -> i <= k < i + length arr.
Proof.
  revert i. induction arr as [|x arr IH]; intros i H; [discriminate|].
  simpl in H. destruct (p x).
  - injection H as <-. simpl. lia.
  - apply IH in H. simpl. lia.
Qed.

Lemma getChapterAtWordIndex_valid cs w :
  chapters cs <> [] ->
  is_Some (chapters cs !! ContentUtils.getChapterAtWordIndex (Some cs) w).
Proof.
  intros Hne. apply lookup_lt_is_Some. unfold ContentUtils.getChapterAtWordIndex.
  destruct (findIndex _ (chapters cs)) as [k|] eqn:E.
  - apply findIndexFrom_bound in E. lia.
  - destruct (chapters cs); [congruence | simpl; lia].
Qed.

Lemma switchReadingMode_to_reader st cs :
  readingMode st = rsvp -> contentStructure st = Some cs ->
  chapters cs <> [] ->
  reading (switchReadingMode reader st) = reading st
  /\ readingMode (switchReadingMode reader st) = reader.
Proof.
  intros Hmode Hcs Hne. unfold switchReadingMode.
  rewrite Hmode, Hcs. cbn [ReadingMode_eqb]. fold (quieted st).
  pose proof (quieted_reading st) as Hr. pose proof (quieted_mode st) as Hm.
  rewrite Hm, Hmode. unfold rsvpToReader.
  assert (Hq : contentStructure (quieted st) = Some cs).
  { unfold reading in Hr. congruence. }
  rewrite bool_decide_eq_true_2.
  - split; [|destruct (quieted st); reflexivity].
    rewrite <- Hr. destruct (quieted st); reflexivity.
  - replace (contentStructure (set_currentChapterIndex _ (quieted st)))
      with (Some cs) by (rewrite <- Hq; destruct (quieted st); reflexivity).
    rewrite Hq. apply getChapterAtWordIndex_valid, Hne.
Qed.

Lemma switchReadingMode_to_rsvp st :
  readingMode st = reader -> words st <> [] ->
  currentWordIndex (switchReadingMode rsvp st)
  = (if displaysWord st then (currentWordIndex st + 1)%Z
     else currentWordIndex st)
  /\ readingMode (switchReadingMode rsvp st) = rsvp.
Proof.
  intros Hmode Hw. unfold switchReadingMode.
  rewrite Hmode. cbn [ReadingMode_eqb]. fold (quieted st).
  pose proof (quieted_reading st) as Hr. pose proof (quieted_mode st) as Hm.
  assert (Hbody :
    forall s, reading s = reading st ->
      currentWordIndex (start (set_readingMode rsvp (readerToRsvp s)))
      = (if displaysWord st then (currentWordIndex st + 1)%Z
         else currentWordIndex st)
      /\ readingMode (start (set_readingMode rsvp (readerToRsvp s))) = rsvp).
  { intros s Hs. split.
    - rewrite start_index.
      + rewrite (displaysWord_reading st).
        * unfold reading in Hs.
          replace (currentWordIndex (set_readingMode rsvp (readerToRsvp s)))
            with (currentWordIndex st)
            by (destruct s; simpl in *; congruence).
          reflexivity.
        * rewrite <- Hs. destruct s; reflexivity.
      + unfold reading in Hs.
        replace (words (set_readingMode rsvp (readerToRsvp s))) with (words st)
          by (destruct s; simpl in *; congruence).
        exact Hw.
    - rewrite start_mode. destruct s; reflexivity. }
  destruct (contentStructure st); rewrite Hm, Hmode; apply Hbody, Hr.
Qed.

Lemma scrolling_reading (scrolls : list Q) st :
  reading (foldl (fun s p => handleReaderScroll p s) st scrolls) = reading st
  /\ readingMode (foldl (fun s p => handleReaderScroll p s) st scrolls)
     = readingMode st.
Proof.
  revert st. induction scrolls as [|p scrolls IH]; intros st; [split; reflexivity|].
  simpl. destruct (IH (handleReaderScroll p st)) as [H1 H2].
  rewrite H1, H2. split; destruct st; reflexivity.
Qed.

(** The round trip of C4 with scroll events in the paginated view in
    between. *)
Definition roundTrip (scrolls : list Q) (st : AppState) : AppState :=
  switchReadingMode rsvp
    (foldl (fun s p => handleReaderScroll p s) (switchReadingMode reader st)
       scrolls).

(** Paused in word-at-a-time mode, one of three words shown. *)
Definition pausedAt1 : AppState :=
  mkAppState threeWords (js "one two three") 1 false true false false
    (100 # 3) rsvp (Some (smallDocument [])) 0 0 false None None
    defaultSettings 1 None None None None false [] 2 [].

(** C4 as stated fails: the switch back to word-at-a-time mode starts
    playback, and its first step has advanced the index from 1 to 2 when
    the switch returns. *)
Lemma roundTrip_moves_index :
  currentWordIndex (roundTrip [40%Q] pausedAt1) = 2%Z
  /\ ~ currentWordIndex (roundTrip [40%Q] pausedAt1)
       = currentWordIndex pausedAt1.
Proof. split; [reflexivity | discriminate]. Qed.

(** C4, amended.  In a document with at least one chapter and a non-empty
    word stream, switching from word-at-a-time to the paginated view leaves
    [currentWordIndex] unchanged, and so does every scroll event there.
    Switching back does not derive the index from the scroll position, but
    it starts playback at once: when the forward step at the position
    displays a word (the position is before the end, no image marker is
    found there and it is no periodic-pause boundary) the index after the
    round trip is the old one plus one, otherwise it is the old one. *)
Theorem switchReadingMode_round_trip
    (st : AppState) (cs : ContentStructure) (scrolls : list Q) :
  readingMode st = rsvp ->
  contentStructure st = Some cs -> chapters cs <> [] ->
  words st <> [] ->
  let st1 := switchReadingMode reader st in
  let st2 := foldl (fun s p => handleReaderScroll p s) st1 scrolls in
  currentWordIndex st1 = currentWordIndex st
  /\ currentWordIndex st2 = currentWordIndex st
  /\ readingMode (roundTrip scrolls st) = rsvp
  /\ currentWordIndex (roundTrip scrolls st)
     = (if displaysWord st then (currentWordIndex st + 1)%Z
        else currentWordIndex st).
Proof.
  intros Hmode Hcs Hne Hw st1 st2.
  destruct (switchReadingMode_to_reader st cs Hmode Hcs Hne) as [Hr1 Hm1].
  destruct (scrolling_reading scrolls st1) as [Hr2 Hm2].
  fold st2 in Hr2, Hm2. fold st1 in Hr1, Hm1.
  assert (Hr : reading st2 = reading st) by congruence.
  assert (Hm : readingMode st2 = reader) by congruence.
  assert (Hw2 : words st2 <> []) by (unfold reading in Hr; congruence).
  destruct (switchReadingMode_to_rsvp st2 Hm Hw2) as [Hidx Hmode3].
  unfold roundTrip. fold st1. fold st2.
  rewrite Hidx, Hmode3, (displaysWord_reading st st2 Hr).
  unfold reading in Hr, Hr1.
  injection Hr as _ Hi2 _ _ _. injection Hr1 as _ Hi1 _ _ _.
  rewrite Hi2. repeat split; assumption.
Qed.

Lemma switchReadingMode_round_trip_witness :
  currentWordIndex (switchReadingMode reader pausedAt1) = 1%Z
  /\ currentWordIndex
       (foldl (fun s p => handleReaderScroll p s)
          (switchReadingMode reader pausedAt1) [40%Q; 75%Q]) = 1%Z
  /\ readingMode (roundTrip [40%Q; 75%Q] pausedAt1) = rsvp
  /\ currentWordIndex (roundTrip [40%Q; 75%Q] pausedAt1) = 2%Z.
Proof.
  assert (Hne : chapters (smallDocument []) <> []) by discriminate.
  assert (Hw : words pausedAt1 <> []) by discriminate.
  exact (switchReadingMode_round_trip pausedAt1 (smallDocument [])
           [40%Q; 75%Q] eq_refl eq_refl Hne Hw).
Defined.

End PlaybackProofs.

(** ** The word stream builder: structure of the output *)

Module WordStreamExtras.
Import RsvpUtils WordStreamProofs.

Definition nonWhitespace (c : N) : Prop := is_whitespace c = false.

Lemma trimStart_keeps s : Exists nonWhitespace s -> Exists nonWhitespace (trimStart s).
Proof.
  induction s as [|c s IH]; intros H; [inversion H|].
  simpl. destruct (is_whitespace c) eqn:E; [|exact H].
  apply IH. inversion H as [? ? Hc|]; subst; [|assumption].
  unfold nonWhitespace in Hc. congruence.
Qed.

Lemma Exists_rev {A} (P : A -> Prop) (l : list A) : Exists P l -> Exists P (rev l).
Proof.
  intros H. apply List.Exists_exists in H as (x & Hx & HP).
  apply List.Exists_exists. exists x. split; [|exact HP].
  apply List.in_rev. rewrite List.rev_involutive. exact Hx.
Qed.

Lemma trim_keeps s : Exists nonWhitespace s -> Exists nonWhitespace (trim s).
Proof.
  intros H. unfold trim, trimEnd.
  apply Exists_rev, trimStart_keeps, Exists_rev, trimStart_keeps, H.
Qed.

Lemma split_ws_from_keeps skipping s :
  Exists nonWhitespace s ->
  Exists (fun piece => piece <> []) (split_ws_from skipping s).
Proof.
  revert skipping. induction s as [|c s IH]; intros skipping H; [inversion H|].
  simpl. destruct (is_whitespace c) eqn:E.
  - assert (Hs : Exists nonWhitespace s).
    { inversion H as [? ? Hc|]; subst; [|assumption].
      unfold nonWhitespace in Hc. congruence. }
    destruct skipping; [apply IH, Hs | right; apply IH, Hs].
  - destruct (split_ws_from false s) as [|p ps]; simpl; left; discriminate.
Qed.

Lemma lineWordsOf_nonempty s : Exists nonWhitespace s -> lineWordsOf s <> [].
Proof.
  intros H. unfold lineWordsOf, split_ws.
  pose proof (split_ws_from_keeps false s H) as Hp.
  induction Hp as [p ps Hp | p ps _ IH]; simpl.
  - destruct p; [congruence | discriminate].
  - destruct (0 <? length p); [discriminate | exact IH].
Qed.

Lemma split_on_blank t : blank t -> Forall blank (split_on LF t).
Proof.
  induction 1 as [|c t Hc Ht IH]; simpl; [repeat constructor|].
  destruct (c =? LF)%N; [constructor; [constructor | exact IH]|].
  destruct (split_on LF t) as [|p ps]; simpl.
  - repeat constructor. exact Hc.
  - inversion IH; subst. constructor; [constructor|]; assumption.
Qed.

Lemma split_on_keeps t :
  Exists nonWhitespace t -> Exists (Exists nonWhitespace) (split_on LF t).
Proof.
  induction t as [|c t IH]; intros H; [inversion H|]. simpl.
  destruct (c =? LF)%N eqn:E.
  - right. apply IH. inversion H as [? ? Hc|]; subst; [|assumption].
    apply N.eqb_eq in E. subst c. vm_compute in Hc. discriminate.
  - inversion H as [? ? Hc | ? ? Ht]; subst.
    + destruct (split_on LF t); simpl; left; left; exact Hc.
    + specialize (IH Ht). destruct (split_on LF t) as [|p ps]; [inversion IH|].
      simpl. inversion IH; subst; [left; right; assumption | right; assumption].
Qed.

Lemma parseLines_all_blank lines acc :
  Forall blank lines -> parseLines lines acc = acc.
Proof.
  induction 1 as [|l lines Hl _ IH]; [reflexivity|].
  rewrite parseLines_blank by exact Hl. exact IH.
Qed.

Lemma parseLines_keeps_acc lines acc : acc <> [] -> parseLines lines acc <> [].
Proof.
  intros H. rewrite parseLines_acc by exact H. destruct acc; [congruence | discriminate].
Qed.

Lemma parseLines_word_line lines acc :
  Exists (Exists nonWhitespace) lines -> parseLines lines acc <> [].
Proof.
  revert acc. induction lines as [|l lines IH]; intros acc H; [inversion H|].
  inversion H as [? ? Hl | ? ? Hrest]; subst.
  - simpl. pose proof (trim_keeps _ Hl) as Ht.
    pose proof (lineWordsOf_nonempty _ Ht) as Hw.
    destruct (trim l) as [|c t] eqn:E; [inversion Ht|]. simpl length. simpl Nat.eqb.
    cbv iota. destruct (_ && _); apply parseLines_keeps_acc.
    + destruct (lineWordsOf (c :: t)); [congruence|].
      destruct acc; discriminate.
    + destruct (lineWordsOf (c :: t)); [congruence|].
      destruct acc; discriminate.
  - simpl. destruct (length (trim l) =? 0); [apply IH, Hrest|].
    destruct (_ && _); apply IH, Hrest.
Qed.

(** X1.  [parseText] yields the empty stream exactly for the texts that
    hold nothing but whitespace (the empty text included): a text with any
    other character yields at least one token. *)
Theorem parseText_empty_iff_blank (text : jsstring) :
  parseText text = [] <-> blank text.
Proof.
  rewrite parseText_lines. split.
  - intros H. apply List.Forall_forall. intros c Hc.
    destruct (is_whitespace c) eqn:E; [reflexivity|]. exfalso.
    apply (parseLines_word_line (split_on LF text) []); [|exact H].
    apply split_on_keeps, List.Exists_exists. exists c. split; assumption.
  - intros H. apply parseLines_all_blank, split_on_blank, H.
Qed.

(** *** The closed form of the loop *)

(** The word lists of the lines that hold words, in order. *)
Definition paragraphs (text : jsstring) : list (list jsstring) :=
  List.filter (fun ws => 0 <? length ws)
    (map (fun l => lineWordsOf (trim l)) (split_on LF text)).

Definition paragraphsOf (lines : list jsstring) : list (list jsstring) :=
  List.filter (fun ws => 0 <? length ws)
    (map (fun l => lineWordsOf (trim l)) lines).

(** A further paragraph: a break token, then its words, the first one
    marked. *)
Definition nextParagraph (ws : list jsstring) : list jsstring :=
  BREAK :: markFirst ws.

Definition assemble (ps : list (list jsstring)) : list jsstring :=
  match ps with
  | [] => []
  | first :: rest => first ++ concat (map nextParagraph rest)
  end.

Lemma parseLines_closed lines acc :
  parseLines lines acc
  = match acc with
    | [] => assemble (paragraphsOf lines)
    | _ :: _ => acc ++ concat (map nextParagraph (paragraphsOf lines))
    end.
Proof.
  revert acc. induction lines as [|l lines IH]; intros acc.
  - destruct acc; simpl; [reflexivity | rewrite app_nil_r; reflexivity].
  - cbn [parseLines]. unfold paragraphsOf. cbn [map List.filter].
    fold (paragraphsOf lines).
    destruct (trim l) as [|c t] eqn:Et.
    + simpl. apply IH.
    + cbn [length Nat.eqb]. cbv iota.
      destruct (lineWordsOf (c :: t)) as [|w ws] eqn:Ew.
      * simpl. rewrite andb_false_r, app_nil_r. apply IH.
      * cbn [length Nat.ltb Nat.leb andb]. destruct acc as [|a acc].
        -- simpl. rewrite IH. reflexivity.
        -- cbn [length Nat.ltb Nat.leb andb]. rewrite IH. simpl.
           rewrite <- !app_assoc. reflexivity.
Qed.

Lemma markFirst_length ws : length (markFirst ws) = length ws.
Proof. destruct ws; reflexivity. Qed.

Lemma further_paragraphs_length (ps : list (list jsstring)) :
  length (concat (map nextParagraph ps))
  = foldr (fun ws n => length ws + n) 0 ps + length ps.
Proof.
  induction ps as [|p ps IH]; [reflexivity|].
  simpl. rewrite length_app, markFirst_length, IH. lia.
Qed.

Lemma parseText_assemble text : parseText text = assemble (paragraphs text).
Proof. rewrite parseText_lines, parseLines_closed. reflexivity. Qed.

(** X2.  The closed form of [parseText]: the words of the first line that
    holds words, then, for every further such line, one break token and
    the words of the line with the first one marked.  So the stream has as
    many tokens as the lines have words, plus one for every such line
    after the first. *)
Theorem parseText_closed_form (text : jsstring) :
  parseText text = assemble (paragraphs text)
  /\ length (parseText text)
     = foldr (fun ws n => length ws + n) 0 (paragraphs text)
       + (length (paragraphs text) - 1).
Proof.
  pose proof (parseText_assemble text) as H.
  split; [exact H|]. rewrite H. unfold paragraphs.
  destruct (List.filter _ _) as [|first rest]; [reflexivity|].
  simpl. rewrite length_app, further_paragraphs_length. lia.
Qed.


(** *** Shape and placement of the tokens *)

Lemma marked_real w : realWord w -> realWord (MARKER :: w).
Proof.
  intros [_ H]. split; [discriminate|]. constructor; [reflexivity | exact H].
Qed.

(** Every break token is directly followed by a marked word. *)
Fixpoint breaksLead (ws : list jsstring) : Prop :=
  match ws with
  | [] => True
  | w :: rest =>
      (w = BREAK -> exists v, realWord v /\ head rest = Some (MARKER :: v))
      /\ breaksLead rest
  end.

Lemma breaksLead_words ws : Forall realWord ws -> breaksLead ws.
Proof.
  induction 1 as [|w ws Hw _ IH]; simpl; [exact I|]. split; [|exact IH].
  intros E. apply realWord_not_break in Hw. contradiction.
Qed.

Lemma breaksLead_app a b : breaksLead a -> breaksLead b -> breaksLead (a ++ b).
Proof.
  induction a as [|w a IH]; simpl; [tauto|].
  intros [Hw Ha] Hb. split; [|apply IH; assumption].
  intros E. destruct (Hw E) as (v & Hv & Hhead). exists v. split; [exact Hv|].
  destruct a; [discriminate | exact Hhead].
Qed.

Lemma breaksLead_nextParagraph p :
  p <> [] -> Forall realWord p -> breaksLead (nextParagraph p).
Proof.
  intros Hne Hp. destruct Hp as [|w ws Hw Hws]; [congruence|].
  simpl. split.
  - intros _. exists w. split; [exact Hw | reflexivity].
  - split.
    + intros E. exfalso. revert E. apply marked_not_break.
    + apply breaksLead_words, Hws.
Qed.

Lemma breaksLead_lookup ws i :
  breaksLead ws -> ws !! i = Some BREAK ->
  exists v, realWord v /\ ws !! S i = Some (MARKER :: v).
Proof.
  revert i. induction ws as [|w ws IH]; intros i Hs Hi; [discriminate|].
  destruct Hs as [Hw Hs]. destruct i as [|i]; simpl in *.
  - injection Hi as ->. destruct (Hw eq_refl) as (v & Hv & Hhead).
    exists v. split; [exact Hv|]. destruct ws; [discriminate | exact Hhead].
  - apply IH; assumption.
Qed.

Lemma breaksLead_last ws : breaksLead ws -> last ws <> Some BREAK.
Proof.
  induction ws as [|w ws IH]; simpl; [discriminate|].
  intros [Hw Hs]. destruct ws as [|w' ws].
  - simpl. intros E. injection E as ->. destruct (Hw eq_refl) as (v & _ & Hv).
    discriminate.
  - apply IH, Hs.
Qed.

Definition goodParagraph (p : list jsstring) : Prop :=
  p <> [] /\ Forall realWord p.

Lemma paragraphs_good text : Forall goodParagraph (paragraphs text).
Proof.
  unfold paragraphs. induction (split_on LF text) as [|l ls IH]; simpl; [constructor|].
  destruct (lineWordsOf (trim l)) as [|w ws] eqn:E; simpl; [exact IH|].
  constructor; [|exact IH]. split; [discriminate|].
  rewrite <- E. apply lineWordsOf_real.
Qed.

Definition token (w : jsstring) : Prop := w = BREAK \/ realWord w.

Lemma nextParagraph_tokens p : Forall realWord p -> Forall token (nextParagraph p).
Proof.
  intros Hp. constructor; [left; reflexivity|].
  destruct Hp as [|w ws Hw Hws]; simpl; constructor.
  - right. apply marked_real, Hw.
  - eapply Forall_impl; [exact Hws|]. intros x Hx. right. exact Hx.
Qed.

Lemma further_tokens ps :
  Forall goodParagraph ps ->
  Forall token (concat (map nextParagraph ps))
  /\ breaksLead (concat (map nextParagraph ps)).
Proof.
  induction 1 as [|p ps [Hne Hp] _ [IH1 IH2]]; cbn [map concat];
    [split; [constructor | exact I]|].
  split.
  - apply Forall_app_2; [apply (nextParagraph_tokens p Hp) | exact IH1].
  - apply (breaksLead_app (nextParagraph p)); [|exact IH2].
    apply breaksLead_nextParagraph; assumption.
Qed.

(** X3.  Every token of the stream is the break token or a word: a
    non-empty string without whitespace (a marked word is such a word).
    The stream neither begins nor ends with a break token, and every break
    token is directly followed by a marked word. *)
Theorem parseText_token_shape (text : jsstring) :
  Forall token (parseText text)
  /\ head (parseText text) <> Some BREAK
  /\ last (parseText text) <> Some BREAK
  /\ (forall i : nat, parseText text !! i = Some BREAK ->
        exists v, realWord v /\ parseText text !! S i = Some (MARKER :: v)).
Proof.
  rewrite parseText_assemble.
  pose proof (paragraphs_good text) as Hg.
  destruct (paragraphs text) as [|first rest]; cbn [assemble].
  - repeat split; try discriminate. constructor.
  - inversion Hg as [|? ? [Hne Hfirst] Hrest]; subst.
    destruct (further_tokens rest Hrest) as [Ht Hb].
    assert (Hlead : breaksLead (first ++ concat (map nextParagraph rest)))
      by (apply breaksLead_app; [apply breaksLead_words, Hfirst | exact Hb]).
    repeat split.
    + apply Forall_app_2; [|exact Ht].
      eapply Forall_impl; [exact Hfirst|]. intros x Hx. right. exact Hx.
    + destruct Hfirst as [|w ws Hw _]; [congruence|]. simpl.
      intros E. injection E as E. apply realWord_not_break in Hw. contradiction.
    + apply breaksLead_last, Hlead.
    + intros i. apply breaksLead_lookup, Hlead.
Qed.

Lemma parseText_token_shape_witness :
  parseText (js "a" ++ LF :: js "b") !! 1 = Some BREAK
  /\ exists v, realWord v
       /\ parseText (js "a" ++ LF :: js "b") !! 2 = Some (MARKER :: v).
Proof.
  split; [reflexivity|].
  destruct (parseText_token_shape (js "a" ++ LF :: js "b")) as (_ & _ & _ & H).
  apply (H 1). reflexivity.
Defined.

(** The stream of two runs of lines, from the streams of each. *)
Definition joined (a b : list jsstring) : list jsstring :=
  match a, b with
  | [], _ => b
  | _, [] => a
  | _, _ => a ++ BREAK :: markFirst b
  end.

Lemma parseLines_joined l1 l2 :
  parseLines (l1 ++ l2) [] = joined (parseLines l1 []) (parseLines l2 []).
Proof.
  rewrite parseLines_app.
  destruct (parseLines l1 []) as [|w ws] eqn:Ea; [reflexivity|].
  rewrite parseLines_acc by discriminate.
  destruct (parseLines l2 []); simpl;
    [rewrite app_nil_r; reflexivity | reflexivity].
Qed.

(** X4.  Parsing is compositional over lines: the stream of [a], a line
    feed, [b] is the stream of [a], then one break token and the stream of
    [b] with its first token marked; when [a] holds no word it is the
    stream of [b], and when [b] holds none it is the stream of [a]. *)
Theorem parseText_line_feed (a b : jsstring) :
  parseText (a ++ LF :: b)
  = match parseText a, parseText b with
    | [], _ => parseText b
    | _, [] => parseText a
    | _, _ => parseText a ++ BREAK :: markFirst (parseText b)
    end.
Proof.
  rewrite !parseText_lines, split_on_app. apply parseLines_joined.
Qed.

End WordStreamExtras.

(** ** The timing engine: delays *)

Module TimingExtras.
Import RsvpUtils TimingProofs.

(** X5.  For a non-empty token, a positive reading speed and positive
    punctuation and line-break multipliers, the delay is positive whatever
    the long-word multiplier is: the timer of the next step is never
    scheduled with a zero or negative delay. *)
Theorem getWordDelay_positive
    (word : jsstring) (wpm : Q) (pause : bool) (pm wl lb : Q) :
  word <> [] -> (0 < wpm)%Q -> (0 < pm)%Q -> (0 < lb)%Q ->
  (0 < getWordDelay word wpm pause pm wl lb)%Q.
Proof.
  intros Hne Hwpm Hpm Hlb.
  pose proof (base_delay_pos wpm Hwpm) as Hb.
  destruct (decide (word = BREAK)) as [-> | Hbr].
  - unfold getWordDelay. simpl length. cbn [Nat.eqb].
    rewrite (Qle_bool_false_lt _ Hwpm).
    replace (jsstring_eqb BREAK BREAK) with true
      by (symmetry; apply bool_decide_eq_true; reflexivity).
    apply Qmult_lt_0_compat; assumption.
  - rewrite (getWordDelay_product word wpm pause pm wl lb Hne Hbr Hwpm).
    pose proof (lengthFactor_ge_1 wl (length (stripMarker word))) as Hl.
    assert (Hm : (0 < markerFactor word)%Q)
      by (unfold markerFactor; destruct (startsWithMarker word); reflexivity).
    assert (Hp : (0 < punctuationFactor pause pm (stripMarker word))%Q).
    { unfold punctuationFactor. destruct pause; [|reflexivity].
      destruct (endsWithSentencePunctuation _); [exact Hpm|].
      destruct (endsWithComma _); reflexivity. }
    apply Qmult_lt_0_compat;
      [apply Qmult_lt_0_compat;
         [apply Qmult_lt_0_compat; [exact Hb | exact Hm] | lra]
      | exact Hp].
Qed.

Lemma getWordDelay_positive_witness :
  (0 < getWordDelay (js "reading.") 300 true 2 50 3)%Q.
Proof.
  apply getWordDelay_positive; first [ discriminate | reflexivity ].
Defined.

(** The marker of a first word after a break makes the delay exactly
    one and a half times the delay of the same word without the marker,
    whatever the other adjustments are. *)
Lemma getWordDelay_marked
    (word : jsstring) (wpm : Q) (pause : bool) (pm wl lb : Q) :
  word <> [] -> word <> BREAK -> startsWithMarker word = false ->
  (0 < wpm)%Q ->
  (getWordDelay (MARKER :: word) wpm pause pm wl lb
   == (3 # 2) * getWordDelay word wpm pause pm wl lb)%Q.
Proof.
  intros Hne Hbr Hm Hwpm.
  rewrite (getWordDelay_product (MARKER :: word)), (getWordDelay_product word)
    by (assumption || discriminate || apply WordStreamProofs.marked_not_break).
  unfold markerFactor, stripMarker. rewrite Hm.
  change (startsWithMarker (MARKER :: word)) with true. cbv iota.
  unfold substring1. change (drop 1 (MARKER :: word)) with word. ring.
Qed.

(** X6.  Among words without marker and without trailing punctuation the
    delay never decreases with the length of the word, and from 12
    characters on it strictly increases when the long-word multiplier is
    positive. *)
Theorem getWordDelay_monotone_in_length
    (n m : nat) (w1 w2 : jsstring) (wpm : Q) (pause : bool) (pm wl lb : Q) :
  plainWord n w1 -> plainWord m w2 -> w1 <> BREAK -> w2 <> BREAK ->
  1 <= n -> n <= m -> (0 < wpm)%Q ->
  (getWordDelay w1 wpm pause pm wl lb <= getWordDelay w2 wpm pause pm wl lb)%Q
  /\ (12 <= n -> n < m -> (0 < wl)%Q ->
      (getWordDelay w1 wpm pause pm wl lb
       < getWordDelay w2 wpm pause pm wl lb)%Q).
Proof.
  intros (L1 & M1 & S1 & C1) (L2 & M2 & S2 & C2) B1 B2 Hn Hnm Hwpm.
  assert (N1 : w1 <> []) by (intros ->; simpl in L1; lia).
  assert (N2 : w2 <> []) by (intros ->; simpl in L2; lia).
  rewrite (getWordDelay_product w1), (getWordDelay_product w2) by assumption.
  unfold markerFactor, punctuationFactor, stripMarker.
  rewrite M1, M2, S1, S2, C1, C2, L1, L2.
  pose proof (base_delay_pos wpm Hwpm) as Hb.
  set (b := (60000 / wpm)%Q) in *.
  pose proof (lengthFactor_mono wl n m Hnm) as Hmono.
  assert (E : forall f : Q,
             (b * 1 * f * (if pause then 1 else 1) == b * f)%Q)
    by (intros f; destruct pause; ring).
  rewrite !E. split.
  - set (f1 := lengthFactor wl n) in *. set (f2 := lengthFactor wl m) in *. nra.
  - intros H12 Hlt Hwl. unfold lengthFactor.
    rewrite (Qle_bool_false_lt _ Hwl). cbn [negb andb].
    destruct (Nat.leb_spec 12 n) as [_|]; [|lia].
    destruct (Nat.leb_spec 12 m) as [_|]; [|lia].
    assert (Hw : (0 < wl / 100)%Q) by (apply Qlt_shift_div_l; lra).
    set (a := (wl / 100)%Q) in *.
    assert (Hxy : (inject_Z (Z.of_nat n - 12) < inject_Z (Z.of_nat m - 12))%Q)
      by (rewrite <- Zlt_Qlt; lia).
    set (x := inject_Z (Z.of_nat n - 12)) in *.
    set (y := inject_Z (Z.of_nat m - 12)) in *.
    assert (H1 : (0 < a * (y - x))%Q) by (apply Qmult_lt_0_compat; lra).
    assert (H2 : (0 < b * (a * (y - x)))%Q)
      by (apply Qmult_lt_0_compat; assumption).
    apply Qlt_minus_iff.
    assert (E2 : (b * (1 + a * y) + - (b * (1 + a * x)) == b * (a * (y - x)))%Q)
      by ring.
    rewrite E2. exact H2.
Qed.

Lemma getWordDelay_monotone_in_length_witness :
  (getWordDelay (js "word") 300 true 2 50 3
   <= getWordDelay (js "international") 300 true 2 50 3)%Q.
Proof.
  assert (P1 : plainWord 4 (js "word")) by (repeat split).
  assert (P2 : plainWord 13 (js "international")) by (repeat split).
  assert (B1 : js "word" <> BREAK) by discriminate.
  assert (B2 : js "international" <> BREAK) by discriminate.
  assert (L1 : 1 <= 4) by lia.
  assert (L2 : 4 <= 13) by lia.
  exact (proj1 (getWordDelay_monotone_in_length 4 13 (js "word")
                  (js "international") 300 true 2 50 3
                  P1 P2 B1 B2 L1 L2 eq_refl)).
Defined.

End TimingExtras.

(** ** The timing engine: the optimal recognition point *)

Module OrpExtras.
Import RsvpUtils TimingProofs.

Lemma orpTable_le_6 n : orpTable n <= 6.
Proof.
  unfold orpTable.
  repeat match goal with
         | |- context [?a <=? ?b] => destruct (a <=? b)
         end; lia.
Qed.

Lemma orpTable_lt n : 1 <= n -> orpTable n < n.
Proof.
  intros H. unfold orpTable.
  repeat match goal with
         | |- context [?a <=? ?b] => destruct (Nat.leb_spec a b)
         end; lia.
Qed.

Section Letters.
Variable is_letter : N -> bool.

(** For a word of the Basic Multilingual Plane, [getORPIndex] is
    the table value of the number of letters; it is at most 6, and it is
    smaller than the number of letters as soon as the word has a letter:
    the letter to highlight exists. *)
Lemma getORPIndex_range (word : jsstring) :
  bmpOnly word ->
  getORPIndex is_letter word = orpTable (letterCount is_letter word)
  /\ getORPIndex is_letter word <= 6
  /\ (letterCount is_letter word = 0
      \/ getORPIndex is_letter word < letterCount is_letter word).
Proof.
  intros H. rewrite (getORPIndex_bmp is_letter word H).
  split; [reflexivity | split; [apply orpTable_le_6|]].
  destruct (letterCount is_letter word) as [|n]; [left; reflexivity|].
  right. apply orpTable_lt. lia.
Qed.

(** The letters among the code units of a string. *)
Definition letterUnits (s : jsstring) : nat := length (List.filter is_letter s).

Lemma orpScan_finds orpIndex s i letterCount :
  letterCount <= orpIndex ->
  orpIndex - letterCount < letterUnits s ->
  exists j c,
    orpScan is_letter orpIndex s i letterCount = Some (i + j)
    /\ s !! j = Some c /\ is_letter c = true
    /\ letterUnits (take j s) = orpIndex - letterCount.
Proof.
  revert i letterCount. unfold letterUnits.
  induction s as [|c s IH]; intros i k Hk Hn; [simpl in Hn; lia|].
  simpl in Hn. simpl orpScan. destruct (is_letter c) eqn:Ec.
  - destruct (Nat.eqb_spec k orpIndex) as [-> | Hne].
    + exists 0, c. rewrite Nat.add_0_r, Nat.sub_diag. repeat split. exact Ec.
    + simpl in Hn. destruct (IH (S i) (S k)) as (j & c' & Hs & Hl & Hc & Hcount);
        [lia | lia |].
      exists (S j), c'. rewrite Hs. repeat split; try assumption.
      * f_equal. lia.
      * simpl. rewrite Ec. simpl. rewrite Hcount. lia.
  - destruct (IH (S i) k) as (j & c' & Hs & Hl & Hc & Hcount); [lia | lia |].
    exists (S j), c'. rewrite Hs. repeat split; try assumption.
    + f_equal. lia.
    + simpl. rewrite Ec. exact Hcount.
Qed.

Lemma letterCount_bmp word :
  bmpOnly word -> startsWithMarker word = false ->
  letterCount is_letter word = letterUnits word.
Proof.
  intros [H1 _] Hm. unfold letterCount, letterUnits, lettersOnly, stripMarker.
  rewrite Hm, (code_points_bmp _ H1). reflexivity.
Qed.

(** X7.  For a word of the Basic Multilingual Plane that holds a letter
    (after its marker is stripped), [getActualORPIndex] is the position of
    a letter, and the letters before that position are as many as
    [getORPIndex] says: leading punctuation is skipped. *)
Theorem getActualORPIndex_points_at_letter (word : jsstring) :
  let cleanWord := stripMarker word in
  startsWithMarker cleanWord = false ->
  bmpOnly cleanWord ->
  Exists (fun c => is_letter c = true) cleanWord ->
  exists (i : nat) (c : N),
    getActualORPIndex is_letter word = Z.of_nat i
    /\ cleanWord !! i = Some c /\ is_letter c = true
    /\ letterUnits (take i cleanWord) = getORPIndex is_letter cleanWord.
Proof.
  intros cleanWord Hm Hbmp Hex.
  assert (Hn : 1 <= letterUnits cleanWord).
  { unfold letterUnits. apply List.Exists_exists in Hex as (c & Hin & Hc).
    assert (Hf : In c (List.filter is_letter cleanWord))
      by (apply List.filter_In; split; assumption).
    destruct (List.filter is_letter cleanWord); [inversion Hf | simpl; lia]. }
  assert (Hidx : getORPIndex is_letter cleanWord < letterUnits cleanWord).
  { rewrite <- (letterCount_bmp cleanWord Hbmp Hm) in *.
    rewrite (getORPIndex_bmp is_letter cleanWord Hbmp). apply orpTable_lt, Hn. }
  destruct (orpScan_finds (getORPIndex is_letter cleanWord) cleanWord 0 0)
    as (j & c & Hs & Hl & Hc & Hcount); [lia | lia |].
  exists j, c. rewrite Nat.sub_0_r in Hcount. repeat split; try assumption.
  unfold getActualORPIndex. fold cleanWord.
  destruct word as [|w0 word]; [inversion Hex|].
  simpl length. cbn [Nat.eqb]. rewrite Hs. reflexivity.
Qed.

End Letters.

Definition asciiLetter (c : N) : bool :=
  ((65 <=? c) && (c <=? 90) || (97 <=? c) && (c <=? 122))%N.

Lemma getActualORPIndex_points_at_letter_witness :
  exists (i : nat) (c : N),
    getActualORPIndex asciiLetter (js "(reading)") = Z.of_nat i
    /\ js "(reading)" !! i = Some c /\ asciiLetter c = true
    /\ letterUnits asciiLetter (take i (js "(reading)"))
       = getORPIndex asciiLetter (js "(reading)").
Proof.
  apply (getActualORPIndex_points_at_letter asciiLetter (js "(reading)")).
  - reflexivity.
  - split; repeat constructor; vm_compute; reflexivity.
  - right. left. reflexivity.
Defined.

End OrpExtras.

(** ** Display helpers *)

Module DisplayExtras.
Import RsvpUtils TimingProofs NumberProofs.

Lemma stripMarker_length word : length (stripMarker word) <= length word.
Proof.
  unfold stripMarker, substring1. destruct (startsWithMarker word); [|lia].
  rewrite length_drop. lia.
Qed.

Lemma stripMarker_nil_inv word :
  word <> [] -> stripMarker word = [] -> word = [MARKER].
Proof.
  unfold stripMarker, substring1, startsWithMarker.
  destruct word as [|c [|c' word]]; try congruence.
  - intros _. destruct (N.eqb_spec c MARKER); [congruence | discriminate].
  - intros _. destruct (c =? MARKER)%N; discriminate.
Qed.

Lemma sliceIndex_nonneg len (i : Z) :
  (0 <= i <= Z.of_nat len)%Z -> sliceIndex len i = Z.to_nat i.
Proof.
  intros H. unfold sliceIndex. destruct (Z.ltb_spec i 0); lia.
Qed.

Section Letters.
Variable is_letter : N -> bool.

(** X8.  The three parts that [splitWordForDisplay] returns always put
    the displayed word together again: before, highlighted character and
    after, concatenated, are the word without its marker, and the
    highlighted part is at most one character. *)
Theorem splitWordForDisplay_reassembles (word : jsstring) :
  let parts := splitWordForDisplay is_letter word in
  before parts ++ orp parts ++ after parts = stripMarker word
  /\ length (orp parts) <= 1.
Proof.
  unfold splitWordForDisplay.
  destruct word as [|w0 word]; [split; [reflexivity | simpl; lia]|].
  cbn [length Nat.eqb]. cbv iota zeta.
  set (cleanWord := stripMarker (w0 :: word)).
  cbn [before orp after].
  split; [|destruct (at_ cleanWord _); simpl; lia].
  destruct (decide (cleanWord = [])) as [-> | Hne]; [reflexivity|].
  destruct (decide (stripMarker cleanWord = [])) as [Hinner | Hinner].
  - rewrite (stripMarker_nil_inv cleanWord Hne Hinner). reflexivity.
  - pose proof (getActualORPIndex_in_bounds is_letter cleanWord Hinner) as Hb.
    pose proof (stripMarker_length cleanWord) as Hlen.
    set (r := getActualORPIndex is_letter cleanWord) in *.
    unfold jsSlice, jsSliceFrom, at_.
    rewrite !sliceIndex_nonneg by lia.
    destruct (Z.ltb_spec r 0) as [|_]; [lia|].
    change (Z.to_nat 0) with 0. rewrite drop_0, Nat.sub_0_r.
    replace (Z.to_nat (r + 1)) with (S (Z.to_nat r)) by lia.
    destruct (lookup_lt_is_Some_2 cleanWord (Z.to_nat r)) as [c Hc]; [lia|].
    rewrite Hc. apply take_drop_middle, Hc.
Qed.

End Letters.

(** *** The frame of words around the current one *)

(** X9.  For a centre index inside the array, [extractWordFrame] returns
    a subset that holds the centre word (without its marker) at
    [centerOffset]; the subset has at most [2 * floor(frameSize / 2) + 1]
    words, and one word when [frameSize] is at most 1. *)
Theorem extractWordFrame_centre
    (allWords : list jsstring) (centerIdx frameSize : Z) (word : jsstring) :
  (0 <= centerIdx)%Z -> allWords !! Z.to_nat centerIdx = Some word ->
  let frame := extractWordFrame allWords centerIdx frameSize in
  (0 <= snd frame)%Z
  /\ fst frame !! Z.to_nat (snd frame) = Some (stripMarker word)
  /\ (Z.of_nat (length (fst frame)) <= Z.max 1 (2 * (frameSize / 2) + 1))%Z.
Proof.
  intros Hc Hw. pose proof (lookup_lt_Some _ _ _ Hw) as Hlt.
  unfold extractWordFrame.
  destruct (Z.leb_spec (Z.of_nat (length allWords)) centerIdx) as [|_]; [lia|].
  rewrite orb_false_r.
  destruct (Z.leb_spec frameSize 1) as [Hf | Hf]; cbv zeta.
  - cbn [fst snd]. unfold at_. destruct (Z.ltb_spec centerIdx 0); [lia|].
    rewrite Hw. repeat split; simpl; lia.
  - cbn [fst snd].
    set (radius := (frameSize / 2)%Z).
    assert (Hr : (1 <= radius)%Z)
      by (unfold radius; apply Z.div_le_lower_bound; lia).
    set (leftBound := Z.max 0 (centerIdx - radius)).
    set (rightBound := Z.min (Z.of_nat (length allWords)) (centerIdx + radius + 1)).
    unfold jsSlice. rewrite !sliceIndex_nonneg by lia.
    repeat split; [lia | |].
    + rewrite list_lookup_fmap, lookup_take_lt by lia.
      rewrite lookup_drop.
      replace (Z.to_nat leftBound + Z.to_nat (centerIdx - leftBound))
        with (Z.to_nat centerIdx) by lia.
      rewrite Hw. reflexivity.
    + rewrite length_fmap, length_take, length_drop. lia.
Qed.

Lemma extractWordFrame_centre_witness :
  let allWords := [js "a"; js "b"; MARKER :: js "c"; js "d"] in
  (0 <= snd (extractWordFrame allWords 2 3))%Z
  /\ fst (extractWordFrame allWords 2 3)
       !! Z.to_nat (snd (extractWordFrame allWords 2 3)) = Some (js "c")
  /\ (Z.of_nat (length (fst (extractWordFrame allWords 2 3))) <= 3)%Z.
Proof.
  intros allWords.
  assert (H0 : (0 <= 2)%Z) by lia.
  exact (extractWordFrame_centre allWords 2 3 (MARKER :: js "c") H0 eq_refl).
Defined.

(** *** The remaining time *)

Lemma two_digits (secs : Z) :
  (0 <= secs < 60)%Z -> length (padStart2 (decimal secs)) = 2.
Proof.
  intros H. destruct (Z_of_nat_complete secs) as [n ->]; [lia|].
  assert (Hn : n < 60) by lia. clear H.
  do 60 (destruct n as [|n]; [reflexivity|]). lia.
Qed.

(** X10.  For a positive number of remaining words and a positive reading
    speed, [formatTimeRemaining] prints minutes, a colon and exactly two
    digits of seconds below 60.  The time printed is the remaining time
    as the doubles give it, rounded up to the next full second: it lies
    between the exact remaining time and that time plus one second, up to
    a relative error of three units of roundoff. *)
Theorem formatTimeRemaining_shape (remainingWords : Z) (wpm : Q) :
  (0 < remainingWords)%Z -> (0 < wpm)%Q ->
  let exact := (inject_Z remainingWords / wpm * 60)%Q in
  exists mins secs : Z,
    (0 <= mins)%Z /\ (0 <= secs < 60)%Z
    /\ formatTimeRemaining remainingWords wpm
       = decimal mins ++ [58%N] ++ padStart2 (decimal secs)
    /\ length (padStart2 (decimal secs)) = 2
    /\ (exact * (1 - 3 * unitRoundoff) <= inject_Z (60 * mins + secs))%Q
    /\ (inject_Z (60 * mins + secs) < exact * (1 + 3 * unitRoundoff) + 1)%Q.
Proof.
  intros Hrem Hwpm exact. unfold formatTimeRemaining.
  destruct (Z.leb_spec remainingWords 0) as [|_]; [lia|].
  rewrite (Qle_bool_false_lt _ Hwpm). cbn [orb]. cbv zeta.
  assert (Hq : (0 < inject_Z remainingWords / wpm)%Q).
  { apply Qlt_shift_div_l; [exact Hwpm|].
    rewrite Qmult_0_l. change 0%Q with (inject_Z 0). rewrite <- Zlt_Qlt. lia. }
  unfold JsNumber.mul, JsNumber.div.
  set (r := (inject_Z remainingWords / wpm)%Q) in *.
  assert (Hr : (0 <= r)%Q) by lra.
  destruct (round_error r Hr) as [H1 H2].
  pose proof (round_nonneg r Hr) as Hd0.
  set (d := JsNumber.round r) in *.
  assert (Hx : (0 <= d * 60)%Q) by lra.
  destruct (round_error (d * 60) Hx) as [H3 H4].
  pose proof (round_nonneg (d * 60) Hx) as Hm0.
  set (m := JsNumber.round (d * 60)) in *.
  rewrite unitRoundoff_value in *.
  set (seconds := Qceiling m).
  assert (Hs : (0 <= seconds)%Z).
  { unfold seconds. change 0%Z with (Qceiling 0).
    apply Qceiling_resp_le. exact Hm0. }
  assert (Hrem60 : Z.rem seconds 60 = (seconds mod 60)%Z)
    by (apply Z.rem_mod_nonneg; lia).
  pose proof (Z.mod_pos_bound seconds 60 ltac:(lia)) as Hmod.
  pose proof (Z.div_mod seconds 60 ltac:(lia)) as Hdiv.
  exists (seconds / 60)%Z, (Z.rem seconds 60).
  rewrite Hrem60.
  split; [apply Z.div_pos; lia|]. split; [lia|]. split; [reflexivity|].
  split; [apply two_digits; lia|].
  rewrite <- Hdiv.
  pose proof (Qle_ceiling m) as Hc1. pose proof (Qceiling_lt m) as Hc2.
  fold seconds in Hc1, Hc2.
  replace (seconds - 1)%Z with (seconds + -1)%Z in Hc2 by lia.
  rewrite inject_Z_plus in Hc2. change (inject_Z (-1)) with (-1)%Q in Hc2.
  set (s := inject_Z seconds) in *.
  unfold exact. fold r. rewrite unitRoundoff_value. split; lra.
Qed.

Lemma formatTimeRemaining_shape_witness :
  formatTimeRemaining 415 50 = js "8:19"
  /\ exists mins secs : Z,
       (0 <= secs < 60)%Z
       /\ formatTimeRemaining 750 300
          = decimal mins ++ [58%N] ++ padStart2 (decimal secs)
       /\ (inject_Z (60 * mins + secs)
           < inject_Z 750 / 300 * 60 * (1 + 3 * unitRoundoff) + 1)%Q.
Proof.
  split; [reflexivity|].
  destruct (formatTimeRemaining_shape 750 300 eq_refl eq_refl)
    as (mins & secs & _ & Hs & Hf & _ & _ & Hb).
  exists mins, secs. split; [exact Hs | split; [exact Hf | exact Hb]].
Defined.

(** Without remaining words, or without a positive reading speed, the
    remaining time is "0:00". *)
Lemma formatTimeRemaining_zero (remainingWords : Z) (wpm : Q) :
  (remainingWords <= 0)%Z \/ (wpm <= 0)%Q ->
  formatTimeRemaining remainingWords wpm = js "0:00".
Proof.
  intros H. unfold formatTimeRemaining.
  destruct H as [H | H].
  - destruct (Z.leb_spec remainingWords 0); [reflexivity | lia].
  - apply Qle_bool_iff in H. rewrite H, orb_true_r. reflexivity.
Qed.

End DisplayExtras.

(** ** The position mapper: ranges and lookups *)

Module PositionExtras.
Import ContentUtils PositionProofs StructurerProofs.

(** X11.  For a chapter whose end is not before its start, the progress
    that [getChapterProgress] reports lies between 0 and 100 for every
    word index, also one before or behind the chapter. *)
Theorem getChapterProgress_range (ch : Chapter) (wordIndex : Z) :
  (startWordIndex ch <= endWordIndex ch)%Z ->
  (0 <= getChapterProgress (Some ch) wordIndex)%Q
  /\ (getChapterProgress (Some ch) wordIndex <= 100)%Q.
Proof.
  intros H. unfold getChapterProgress.
  set (total := (endWordIndex ch - startWordIndex ch)%Z).
  destruct (Z.eqb_spec total 0) as [|Hne]; [split; [apply Qle_refl | discriminate]|].
  assert (Ht : (0 < inject_Z total)%Q).
  { change 0%Q with (inject_Z 0). rewrite <- Zlt_Qlt. unfold total in *. lia. }
  set (offset := Z.max 0 (wordIndex - startWordIndex ch)).
  assert (Ho : (0 <= inject_Z offset)%Q).
  { change 0%Q with (inject_Z 0). rewrite <- Zle_Qle. unfold offset. lia. }
  assert (Hq : (0 <= inject_Z offset / inject_Z total * 100)%Q).
  { apply Qmult_le_0_compat; [|discriminate].
    apply Qle_shift_div_l; [exact Ht|]. rewrite Qmult_0_l. exact Ho. }
  split.
  - apply Q.min_glb; [discriminate | exact Hq].
  - apply Q.le_min_l.
Qed.

Lemma getChapterProgress_range_witness :
  (0 <= getChapterProgress (Some (chapterOver 100 250)) 999)%Q
  /\ (getChapterProgress (Some (chapterOver 100 250)) 999 <= 100)%Q.
Proof.
  apply getChapterProgress_range. simpl. lia.
Defined.

(** *** Finding the chapter of a word index *)

Definition holds (wordIndex : Z) (ch : Chapter) : bool :=
  (startWordIndex ch <=? wordIndex)%Z && (wordIndex <? endWordIndex ch)%Z.

Lemma findIndexFrom_found {A} (p : A -> bool) (arr : list A) (i k : nat) :
  findIndexFrom p arr i = Some k ->
  exists x, arr !! (k - i) = Some x /\ p x = true
            /\ i <= k
            /\ forall j y, j < k - i -> arr !! j = Some y -> p y = false.
Proof.
  revert i. induction arr as [|x arr IH]; intros i H; [discriminate|].
  simpl in H. destruct (p x) eqn:Ex.
  - injection H as <-. exists x. rewrite Nat.sub_diag.
    repeat split; try assumption; try lia.
  - destruct (IH _ H) as (y & Hy & Hp & Hle & Hbefore).
    exists y. replace (k - i) with (S (k - S i)) by lia.
    repeat split; try assumption; try lia.
    intros [|j] z Hj Hz; simpl in Hz; [congruence|].
    apply (Hbefore j); [lia | exact Hz].
Qed.

Lemma findIndexFrom_none {A} (p : A -> bool) (arr : list A) (i : nat) :
  findIndexFrom p arr i = None -> Forall (fun x => p x = false) arr.
Proof.
  revert i. induction arr as [|x arr IH]; intros i H; [constructor|].
  simpl in H. destruct (p x) eqn:Ex; [discriminate|].
  constructor; [exact Ex | apply (IH _ H)].
Qed.

Lemma tiles_holds from chs to w :
  tiles from chs to -> (from <= w < to)%Z ->
  Exists (fun ch => holds w ch = true) chs.
Proof.
  revert from. induction chs as [|ch chs IH]; simpl; intros from H Hw; [lia|].
  destruct H as (Hs & Hle & _ & Ht).
  destruct (Z.ltb_spec w (endWordIndex ch)) as [Hlt | Hge].
  - left. unfold holds. apply andb_true_iff. split; [apply Z.leb_le | apply Z.ltb_lt]; lia.
  - right. apply (IH _ Ht). lia.
Qed.

Lemma tiles_within from chs to :
  tiles from chs to ->
  (from <= to)%Z
  /\ Forall (fun ch => (from <= startWordIndex ch)%Z /\ (endWordIndex ch <= to)%Z) chs.
Proof.
  revert from. induction chs as [|ch chs IH]; simpl; intros from H.
  - split; [lia | constructor].
  - destruct H as (Hs & Hle & _ & Ht). destruct (IH _ Ht) as [Hto Hall].
    split; [lia|]. constructor; [lia|].
    eapply Forall_impl; [exact Hall|]. simpl. intros x; lia.
Qed.

(** In a tiling, a word index inside the interval of chapter [i] is found
    at [i]: no earlier chapter holds it. *)
Lemma tiles_find from chs to (w : Z) (i k : nat) ch :
  tiles from chs to -> chs !! i = Some ch ->
  (startWordIndex ch <= w < endWordIndex ch)%Z ->
  findIndexFrom (holds w) chs k = Some (k + i).
Proof.
  revert from i k. induction chs as [|c chs IH]; intros from i k Ht Hi Hw;
    [discriminate|].
  destruct Ht as (Hs & Hle & _ & Ht). destruct i as [|i]; simpl in Hi.
  - injection Hi as ->. simpl. unfold holds at 1.
    destruct (Z.leb_spec (startWordIndex ch) w); [|lia].
    destruct (Z.ltb_spec w (endWordIndex ch)); [|lia].
    simpl. f_equal. lia.
  - destruct (tiles_within _ _ _ Ht) as [_ Hall].
    rewrite List.Forall_forall in Hall.
    destruct (Hall ch) as [H1 _];
      [eapply list_elem_of_In, list_elem_of_lookup_2, Hi|].
    simpl. unfold holds at 1.
    destruct (Z.ltb_spec w (endWordIndex c)); [lia|].
    rewrite andb_false_r. rewrite (IH _ i (S k) Ht Hi Hw). f_equal. lia.
Qed.

(** X12.  When the chapters of a structure tile [0, n), the index that
    [getChapterAtWordIndex] returns for a word index in [0, n) is the
    index of the first chapter whose interval holds it; for a word index
    outside [0, n) it returns 0. *)
Theorem getChapterAtWordIndex_tiled
    (cs : ContentStructure) (n wordIndex : Z) :
  tiles 0 (chapters cs) n ->
  ((0 <= wordIndex < n)%Z ->
   exists ch,
     chapters cs !! getChapterAtWordIndex (Some cs) wordIndex = Some ch
     /\ (startWordIndex ch <= wordIndex < endWordIndex ch)%Z
     /\ forall j ch', j < getChapterAtWordIndex (Some cs) wordIndex ->
          chapters cs !! j = Some ch' ->
          ~ (startWordIndex ch' <= wordIndex < endWordIndex ch')%Z)
  /\ ((wordIndex < 0 \/ n <= wordIndex)%Z ->
      getChapterAtWordIndex (Some cs) wordIndex = 0).
Proof.
  intros Htiles. unfold getChapterAtWordIndex, findIndex.
  fold (holds wordIndex). split.
  - intros Hw.
    destruct (findIndexFrom (holds wordIndex) (chapters cs) 0) as [k|] eqn:E.
    + destruct (findIndexFrom_found _ _ _ _ E) as (ch & Hch & Hp & _ & Hbefore).
      rewrite Nat.sub_0_r in *. exists ch. split; [exact Hch|].
      unfold holds in Hp. apply andb_true_iff in Hp as [H1 H2].
      apply Z.leb_le in H1. apply Z.ltb_lt in H2. split; [lia|].
      intros j ch' Hj Hj' Hin. specialize (Hbefore j ch' Hj Hj').
      unfold holds in Hbefore. apply andb_false_iff in Hbefore as [H | H];
        [apply Z.leb_gt in H | apply Z.ltb_ge in H]; lia.
    + exfalso. apply findIndexFrom_none in E.
      pose proof (tiles_holds _ _ _ _ Htiles Hw) as Hex.
      apply List.Exists_exists in Hex as (ch & Hin & Hp).
      rewrite List.Forall_forall in E. specialize (E ch Hin). congruence.
  - intros Hw.
    destruct (findIndexFrom (holds wordIndex) (chapters cs) 0) as [k|] eqn:E;
      [|reflexivity]. exfalso.
    destruct (findIndexFrom_found _ _ _ _ E) as (ch & Hch & Hp & _).
    destruct (tiles_within _ _ _ Htiles) as [_ Hall].
    rewrite List.Forall_forall in Hall.
    destruct (Hall ch) as [H1 H2]; [eapply list_elem_of_In, list_elem_of_lookup_2, Hch|].
    unfold holds in Hp. apply andb_true_iff in Hp as [H3 H4].
    apply Z.leb_le in H3. apply Z.ltb_lt in H4. lia.
Qed.

Lemma getChapterAtWordIndex_tiled_witness :
  tiles 0 (chapters threeChapters) 300
  /\ getChapterAtWordIndex (Some threeChapters) 250 = 2
  /\ getChapterAtWordIndex (Some threeChapters) 300 = 0.
Proof.
  assert (H : tiles 0 (chapters threeChapters) 300)
    by (simpl; repeat split; lia).
  destruct (getChapterAtWordIndex_tiled threeChapters 300 300 H) as [_ Hout].
  split; [exact H | split; [reflexivity | apply Hout; lia]].
Defined.

(** X13.  On a non-empty chapter [getScrollPercentageInChapter] is 0 at
    the start of the chapter, 100 at its end, and strictly increasing in
    the word index: inside the chapter it lies in [0, 100). *)
Theorem getScrollPercentageInChapter_increasing (ch : Chapter) :
  (startWordIndex ch < endWordIndex ch)%Z ->
  (getScrollPercentageInChapter (Some ch) (startWordIndex ch) == 0)%Q
  /\ (getScrollPercentageInChapter (Some ch) (endWordIndex ch) == 100)%Q
  /\ (forall w1 w2 : Z, (w1 < w2)%Z ->
        (getScrollPercentageInChapter (Some ch) w1
         < getScrollPercentageInChapter (Some ch) w2)%Q).
Proof.
  intros H. unfold getScrollPercentageInChapter.
  set (total := (endWordIndex ch - startWordIndex ch)%Z).
  assert (Hne : total <> 0%Z) by (unfold total; lia).
  apply Z.eqb_neq in Hne as Hb. rewrite Hb.
  assert (Hq : ~ (inject_Z total == 0)%Q) by (apply inject_Z_nonzero, Hne).
  assert (Ht : (0 < inject_Z total)%Q).
  { change 0%Q with (inject_Z 0). rewrite <- Zlt_Qlt. unfold total. lia. }
  split; [|split].
  - rewrite Z.sub_diag. unfold Qeq. simpl. lia.
  - fold total. field. exact Hq.
  - intros w1 w2 Hw. apply Qmult_lt_compat_r; [reflexivity|].
    apply Qmult_lt_compat_r; [apply Qinv_lt_0_compat, Ht|].
    rewrite <- Zlt_Qlt. lia.
Qed.

Lemma getScrollPercentageInChapter_increasing_witness :
  (getScrollPercentageInChapter (Some (chapterOver 100 250)) 100 == 0)%Q
  /\ (getScrollPercentageInChapter (Some (chapterOver 100 250)) 250 == 100)%Q
  /\ (forall w1 w2 : Z, (w1 < w2)%Z ->
        (getScrollPercentageInChapter (Some (chapterOver 100 250)) w1
         < getScrollPercentageInChapter (Some (chapterOver 100 250)) w2)%Q).
Proof.
  apply (getScrollPercentageInChapter_increasing (chapterOver 100 250)).
  reflexivity.
Defined.

(** Stepping to the next chapter never leaves the chapter list, and
    stepping back from there returns to the chapter one came from; at the
    last chapter the next chapter is the chapter itself. *)
Lemma chapter_stepping (cs : ContentStructure) (current : nat) :
  current < length (chapters cs) ->
  getNextChapterIndex (Some cs) current < length (chapters cs)
  /\ (current + 1 < length (chapters cs) ->
      getNextChapterIndex (Some cs) current = current + 1
      /\ getPreviousChapterIndex (getNextChapterIndex (Some cs) current)
         = current)
  /\ (current + 1 = length (chapters cs) ->
      getNextChapterIndex (Some cs) current = current)
  /\ getPreviousChapterIndex current <= current.
Proof.
  intros H. unfold getNextChapterIndex, getPreviousChapterIndex.
  destruct (Nat.ltb_spec (current + 1) (length (chapters cs))); repeat split; lia.
Qed.

End PositionExtras.

(** ** The document structurer: pages, chapters and tokens *)

Module StructurerExtras.
Import RsvpUtils ContentUtils WordStreamProofs WordStreamExtras StructurerProofs
  PositionExtras FileParsers.

(** *** Tokens of texts joined by blank lines *)

Lemma parseText_blank_line_between a b :
  parseText (a ++ NLNL ++ b) = joined (parseText a) (parseText b).
Proof.
  unfold NLNL. change ([LF; LF] ++ b) with (LF :: ([] ++ LF :: b)).
  rewrite !parseText_lines, !split_on_app, !parseLines_joined.
  change (parseLines (split_on LF []) []) with (@nil jsstring).
  reflexivity.
Qed.

Lemma join_cons sep t t' ts :
  join sep (t :: t' :: ts) = t ++ sep ++ join sep (t' :: ts).
Proof. reflexivity. Qed.

(** Number of tokens of the texts joined by blank lines. *)
Definition tokensOf (ts : list jsstring) : nat :=
  length (parseText (join NLNL ts)).

(** Sum of the tokens of the texts taken one by one. *)
Definition ownTokens (ts : list jsstring) : nat :=
  foldr (fun t n => length (parseText t) + n) 0 ts.

(** Number of the texts that hold a word. *)
Definition wordy (ts : list jsstring) : nat :=
  length (List.filter (fun t => 0 <? length (parseText t)) ts).

Lemma wordy_le_own ts : wordy ts <= ownTokens ts.
Proof.
  unfold wordy. induction ts as [|t ts IH]; simpl; [lia|].
  destruct (length (parseText t)); simpl; lia.
Qed.

Lemma joined_length a b :
  length (joined a b)
  = length a + length b + (if (0 <? length a) && (0 <? length b) then 1 else 0).
Proof.
  destruct a as [|x a], b as [|y b]; simpl; try lia.
  rewrite length_app. simpl. lia.
Qed.

Lemma ownTokens_zero ts : wordy ts = 0 -> ownTokens ts = 0.
Proof.
  unfold wordy, ownTokens. induction ts as [|t ts IH]; [reflexivity|].
  simpl. destruct (length (parseText t)); simpl; [exact IH | discriminate].
Qed.

Lemma wordy_cons t ts :
  wordy (t :: ts) = (if 0 <? length (parseText t) then 1 else 0) + wordy ts.
Proof.
  unfold wordy. simpl. destruct (0 <? length (parseText t)); reflexivity.
Qed.

Lemma tokensOf_sum ts : tokensOf ts = ownTokens ts + (wordy ts - 1).
Proof.
  induction ts as [|t ts IH]; [reflexivity|].
  destruct ts as [|t' ts].
  - unfold tokensOf. rewrite wordy_cons. simpl.
    destruct (length (parseText t)); simpl; lia.
  - set (rest := t' :: ts) in *.
    assert (Hstep : tokensOf (t :: rest)
                    = length (parseText t) + tokensOf rest
                      + (if (0 <? length (parseText t)) && (0 <? tokensOf rest)
                         then 1 else 0)).
    { unfold tokensOf, rest. rewrite join_cons, parseText_blank_line_between.
      apply joined_length. }
    rewrite Hstep, IH, wordy_cons.
    change (ownTokens (t :: rest)) with (length (parseText t) + ownTokens rest).
    pose proof (wordy_le_own rest) as Hle.
    pose proof (ownTokens_zero rest) as Hz.
    destruct (Nat.ltb_spec 0 (length (parseText t)));
      destruct (Nat.ltb_spec 0 (ownTokens rest + (wordy rest - 1)));
      cbn [andb]; lia.
Qed.

Lemma ownTokens_app a b : ownTokens (a ++ b) = ownTokens a + ownTokens b.
Proof. unfold ownTokens. induction a; simpl; lia. Qed.

Lemma wordy_app a b : wordy (a ++ b) = wordy a + wordy b.
Proof. unfold wordy. rewrite List.filter_app, length_app. reflexivity. Qed.

Lemma tokensOf_positive ts : 0 < tokensOf ts <-> 0 < wordy ts.
Proof.
  rewrite tokensOf_sum. pose proof (wordy_le_own ts). split; [|lia].
  intros H0. destruct (wordy ts) eqn:E; [|lia].
  assert (ownTokens ts = 0); [|lia].
  clear H0 H. unfold wordy in E. unfold ownTokens.
  induction ts as [|t ts IH]; [reflexivity|]. simpl in *.
  destruct (length (parseText t)); simpl in *; [apply IH, E | discriminate].
Qed.

(** Groups of texts, each joined on its own, against all of them joined
    together: the whole has one token more for every group but the first
    among the groups that hold words. *)
Definition groupTokens (groups : list (list jsstring)) : nat :=
  foldr (fun g n => tokensOf g + n) 0 groups.

Definition wordyGroups (groups : list (list jsstring)) : nat :=
  length (List.filter (fun g => 0 <? tokensOf g) groups).

Lemma grouped_tokens groups :
  tokensOf (concat groups) = groupTokens groups + (wordyGroups groups - 1).
Proof.
  rewrite tokensOf_sum.
  assert (H : ownTokens (concat groups) + wordy (concat groups)
              = groupTokens groups + wordyGroups groups
              /\ wordyGroups groups <= wordy (concat groups)
              /\ (wordyGroups groups = 0 -> wordy (concat groups) = 0)).
  { unfold groupTokens, wordyGroups.
    induction groups as [|g groups (IH1 & IH2 & IH3)]; [repeat split; reflexivity|].
    cbn [concat foldr List.filter].
    rewrite ownTokens_app, wordy_app, (tokensOf_sum g).
    pose proof (wordy_le_own g) as Hg.
    pose proof (ownTokens_zero g) as Hz.
    set (F := foldr _ 0 groups) in *.
    set (L := length (List.filter _ groups)) in *.
    destruct (Nat.ltb_spec 0 (ownTokens g + (wordy g - 1))); cbn [length];
      fold L; repeat split; try lia. }
  pose proof (wordy_le_own (concat groups)).
  destruct H as (H1 & H2 & H3).
  lia.
Qed.


(** *** Page-based chapters *)

(** The pages of each chunk of the loop of [buildPageBasedChapters]. *)
Fixpoint pageGroups (fuel : nat) (pageTexts : list jsstring)
    (chunkSize i : nat) : list (list jsstring) :=
  match fuel with
  | 0 => []
  | S fuel' =>
      if i <? length pageTexts then
        slice i (Nat.min (i + chunkSize) (length pageTexts)) pageTexts
        :: pageGroups fuel' pageTexts chunkSize (i + chunkSize)
      else []
  end.

Lemma pageChunks_texts fuel pageTexts chunkSize i :
  map rawPlainText (pageChunks fuel pageTexts chunkSize i)
  = map (join NLNL) (pageGroups fuel pageTexts chunkSize i).
Proof.
  revert i. induction fuel as [|fuel IH]; intros i; [reflexivity|].
  simpl. destruct (i <? length pageTexts); [|reflexivity].
  simpl. rewrite IH. reflexivity.
Qed.

Lemma pageGroups_concat fuel pageTexts chunkSize i :
  1 <= chunkSize -> length pageTexts - i <= fuel ->
  concat (pageGroups fuel pageTexts chunkSize i) = drop i pageTexts.
Proof.
  intros Hc. revert i. induction fuel as [|fuel IH]; intros i Hf.
  - simpl. rewrite drop_ge by lia. reflexivity.
  - simpl. destruct (Nat.ltb_spec i (length pageTexts)) as [Hi | Hi].
    + simpl. rewrite IH by lia. unfold slice.
      destruct (Nat.le_gt_cases (length pageTexts) (i + chunkSize)) as [Hend | Hend].
      * rewrite Nat.min_r by lia. rewrite (drop_ge _ (i + chunkSize)) by lia.
        rewrite app_nil_r. apply take_ge. rewrite length_drop. lia.
      * rewrite Nat.min_l by lia.
        replace (i + chunkSize - i) with chunkSize by lia.
        transitivity (take chunkSize (drop i pageTexts)
                      ++ drop chunkSize (drop i pageTexts));
          [|apply take_drop].
        f_equal. rewrite drop_drop. reflexivity.
    + rewrite drop_ge by lia. reflexivity.
Qed.

Lemma chunkSizeFor_pos n : 1 <= n -> 1 <= chunkSizeFor n.
Proof.
  intros H. unfold chunkSizeFor.
  assert (Hd : 1 <= Nat.max 1 (n / 10)) by lia.
  apply Nat.div_le_lower_bound; lia.
Qed.

(** The number of pages per chunk: all pages in one chunk for fewer
    than 10 pages, and between 10 and 19 pages per chunk from 10 pages
    on. *)
Lemma chunkSizeFor_bounds (n : nat) :
  (n < 10 -> chunkSizeFor n = n)
  /\ (10 <= n -> 10 <= chunkSizeFor n <= 19).
Proof.
  unfold chunkSizeFor. split.
  - intros H. rewrite (Nat.div_small n 10) by lia.
    change (Nat.max 1 0) with 1. rewrite Nat.div_1_r. lia.
  - intros H.
    pose proof (Nat.div_mod_eq n 10) as Hdm.
    pose proof (Nat.mod_upper_bound n 10 ltac:(lia)) as Hm.
    set (d := n / 10) in *.
    assert (Hd : 1 <= d) by (unfold d; apply Nat.div_le_lower_bound; lia).
    rewrite Nat.max_r by lia. split.
    + apply Nat.div_le_lower_bound; lia.
    + apply Nat.lt_succ_r. apply Nat.Div0.div_lt_upper_bound; lia.
Qed.

(** The page ranges of the chapters, one after the other from page [from]
    to page [to]. *)
Fixpoint pagesTile (from : nat) (chs : list RawChapter) (to : nat) : Prop :=
  match chs with
  | [] => from = to + 1
  | ch :: rest =>
      exists pageEnd,
        rawPages ch = Some (from, pageEnd) /\ from <= pageEnd
        /\ pagesTile (pageEnd + 1) rest to
  end.

Lemma pageChunks_tile fuel pageTexts chunkSize i :
  1 <= chunkSize -> i < length pageTexts -> length pageTexts - i <= fuel ->
  pagesTile (i + 1) (pageChunks fuel pageTexts chunkSize i) (length pageTexts).
Proof.
  intros Hc. revert i. induction fuel as [|fuel IH]; intros i Hi Hf; [lia|].
  simpl. destruct (Nat.ltb_spec i (length pageTexts)) as [_|]; [|lia].
  simpl. eexists. split; [reflexivity|]. split; [lia|].
  destruct (Nat.le_gt_cases (length pageTexts) (i + chunkSize)) as [Hend | Hend].
  - rewrite Nat.min_r by lia.
    destruct fuel as [|fuel']; simpl; [reflexivity|].
    destruct (Nat.ltb_spec (i + chunkSize) (length pageTexts)); [lia | reflexivity].
  - rewrite Nat.min_l by lia. apply IH; lia.
Qed.

Lemma pageChunks_own_pages fuel pageTexts chunkSize i :
  Forall (fun ch =>
            exists a b, rawPages ch = Some (a, b)
              /\ rawPlainText ch = join NLNL (slice (a - 1) b pageTexts))
    (pageChunks fuel pageTexts chunkSize i).
Proof.
  revert i. induction fuel as [|fuel IH]; intros i; [constructor|].
  simpl. destruct (i <? length pageTexts); [|constructor].
  constructor; [|apply IH]. simpl. eexists _, _. split; [reflexivity|].
  replace (i + 1 - 1) with i by lia. reflexivity.
Qed.

Lemma buildPageBasedChapters_same_pages pageTexts fileName :
  map rawPages (buildPageBasedChapters pageTexts fileName)
  = map rawPages
      (pageChunks (length pageTexts) pageTexts
         (chunkSizeFor (length pageTexts)) 0)
  /\ map rawPlainText (buildPageBasedChapters pageTexts fileName)
     = map rawPlainText
         (pageChunks (length pageTexts) pageTexts
            (chunkSizeFor (length pageTexts)) 0).
Proof.
  unfold buildPageBasedChapters.
  destruct (pageChunks _ _ _ _) as [|c [|c' cs]]; split; reflexivity.
Qed.

Lemma pagesTile_ext from chs chs' to :
  map rawPages chs = map rawPages chs' ->
  pagesTile from chs to -> pagesTile from chs' to.
Proof.
  revert from chs'. induction chs as [|c chs IH]; intros from [|c' chs'] H;
    try discriminate; [tauto|].
  simpl in H. injection H as Hc Hrest. simpl.
  intros (b & Hp & Hle & Ht). exists b. rewrite <- Hc.
  split; [exact Hp | split; [exact Hle | apply (IH _ _ Hrest Ht)]].
Qed.

(** X14.  Without outline every page goes to exactly one chapter, in
    order: the page ranges of the chapters follow one another from page 1
    to the last page, and the text of each chapter is the text of its
    pages joined by blank lines. *)
Theorem buildPageBasedChapters_covers_pages
    (pageTexts : list jsstring) (fileName : jsstring) :
  let chs := buildPageBasedChapters pageTexts fileName in
  pagesTile 1 chs (length pageTexts)
  /\ Forall (fun ch =>
               exists a b, rawPages ch = Some (a, b)
                 /\ rawPlainText ch = join NLNL (slice (a - 1) b pageTexts))
       chs.
Proof.
  intros chs. destruct (buildPageBasedChapters_same_pages pageTexts fileName)
    as [Hpages Htexts].
  split.
  - apply (pagesTile_ext _ _ _ _ (eq_sym Hpages)).
    destruct pageTexts as [|p ps] eqn:E; [reflexivity|]. rewrite <- E.
    assert (Hn : 1 <= length pageTexts) by (rewrite E; simpl; lia).
    apply (pageChunks_tile _ _ _ 0); [apply chunkSizeFor_pos, Hn | lia | lia].
  - unfold chs, buildPageBasedChapters.
    pose proof (pageChunks_own_pages (length pageTexts) pageTexts
                  (chunkSizeFor (length pageTexts)) 0) as H.
    destruct (pageChunks _ _ _ _) as [|c [|c' cs]]; [exact H | | exact H].
    inversion H as [|? ? Hc _]; subst. constructor; [exact Hc | constructor].
Qed.

(** *** The drift between the word array and the chapters on the PDF path *)

Definition nonEmptyChapters (chs : list Chapter) : nat :=
  length (List.filter (fun ch => (0 <? wordCount ch)%Z) chs).

Lemma boundariesFrom_total chapters current :
  totalWordCount (boundariesFrom chapters current)
  = Z.of_nat (ownTokens (map rawPlainText chapters)).
Proof.
  revert current. induction chapters as [|c chapters IH]; intros current;
    [reflexivity|].
  simpl. rewrite IH. lia.
Qed.

Lemma boundariesFrom_nonEmpty chapters current :
  nonEmptyChapters (boundariesFrom chapters current)
  = wordy (map rawPlainText chapters).
Proof.
  revert current. unfold nonEmptyChapters, wordy.
  induction chapters as [|c chapters IH]; intros current; [reflexivity|].
  simpl. destruct (length (parseText (rawPlainText c))); simpl; rewrite IH;
    reflexivity.
Qed.

Lemma ownTokens_joined groups :
  ownTokens (map (join NLNL) groups) = groupTokens groups.
Proof. induction groups as [|g groups IH]; simpl; [reflexivity|]. rewrite IH. reflexivity. Qed.

Lemma wordy_joined groups :
  wordy (map (join NLNL) groups) = wordyGroups groups.
Proof.
  unfold wordy, wordyGroups. induction groups as [|g groups IH]; simpl; [reflexivity|].
  fold (tokensOf g). destruct (0 <? tokensOf g); simpl; rewrite IH; reflexivity.
Qed.

(** The shortfall of chapters whose texts are groups of pages joined by
    blank lines, against the word array of all pages. *)
Lemma grouped_chapters_shortfall
    (groups : list (list jsstring)) (chapters : list RawChapter) (current : Z) :
  map rawPlainText chapters = map (join NLNL) groups ->
  Z.of_nat (tokensOf (concat groups))
  = (totalWordCount (boundariesFrom chapters current)
     + Z.of_nat (nonEmptyChapters (boundariesFrom chapters current) - 1))%Z.
Proof.
  intros H. rewrite grouped_tokens, boundariesFrom_total, boundariesFrom_nonEmpty.
  rewrite H, ownTokens_joined, wordy_joined. lia.
Qed.

(** X15.  On the PDF path without outline the word array of the document
    has exactly one token more than the chapters count for every chapter
    that holds words, the first such chapter excepted: the break tokens
    at the chapter junctions.  Hence the chapter intervals cover the word
    array exactly when at most one chapter holds words. *)
Theorem parsePDFWithStructure_page_based_shortfall
    (pageTexts : list jsstring) (fileName : jsstring) :
  let r := parsePDFWithStructure pageTexts None fileName in
  let chs := chapters (Document.contentStructure r) in
  Z.of_nat (length (Document.words r))
  = (totalWordCount chs + Z.of_nat (nonEmptyChapters chs - 1))%Z
  /\ (tokenCoverage r <-> nonEmptyChapters chs <= 1).
Proof.
  intros r chs.
  set (n := length pageTexts).
  set (groups := pageGroups n pageTexts (chunkSizeFor n) 0).
  assert (Hconcat : concat groups = pageTexts).
  { destruct (decide (n = 0)) as [Hn|Hn].
    - unfold groups. destruct pageTexts; [reflexivity|discriminate Hn].
    - unfold groups. rewrite pageGroups_concat; [apply drop_0 | | lia].
      apply chunkSizeFor_pos. lia. }
  assert (Htexts : map rawPlainText (buildPageBasedChapters pageTexts fileName)
                   = map (join NLNL) groups).
  { destruct (buildPageBasedChapters_same_pages pageTexts fileName) as [_ H].
    rewrite H. apply pageChunks_texts. }
  assert (Hshort :
    Z.of_nat (length (Document.words r))
    = (totalWordCount chs + Z.of_nat (nonEmptyChapters chs - 1))%Z).
  { pose proof (grouped_chapters_shortfall groups _ 0%Z Htexts) as H.
    rewrite Hconcat in H. exact H. }
  split; [exact Hshort|].
  unfold tokenCoverage. fold chs.
  pose proof (boundariesFrom_tiles (buildPageBasedChapters pageTexts fileName) 0)
    as Htiles.
  change (boundariesFrom (buildPageBasedChapters pageTexts fileName) 0)
    with chs in Htiles.
  split.
  - intros [_ Htotal]. lia.
  - intros Hle. assert (Heq : totalWordCount chs
                             = Z.of_nat (length (Document.words r))) by lia.
    split; [|exact Heq]. rewrite <- Heq.
    rewrite Z.add_0_l in Htiles. exact Htiles.
Qed.

(** *** Chapters from the outline *)

(** The pages of each chapter of the loop of [buildChaptersFromOutline]. *)
Fixpoint outlineGroups (pageTexts : list jsstring) (items : list OutlineItem)
  : list (list jsstring) :=
  match items with
  | [] => []
  | item :: rest =>
      slice (getOutlinePageNumber item - 1)
        (match rest with
         | next :: _ => getOutlinePageNumber next
         | [] => length pageTexts + 1
         end - 1) pageTexts
      :: outlineGroups pageTexts rest
  end.

(** The outline's page numbers do not decrease and stay within the
    document (one past the last page included). *)
Fixpoint ascending (n : nat) (items : list OutlineItem) : Prop :=
  match items with
  | [] => True
  | item :: rest =>
      getOutlinePageNumber item
      <= match rest with
         | next :: _ => getOutlinePageNumber next
         | [] => n + 1
         end
      /\ ascending n rest
  end.

Lemma outlineChapters_texts pageTexts items i :
  map rawPlainText (outlineChapters pageTexts items i)
  = map (join NLNL) (outlineGroups pageTexts items).
Proof.
  revert i. induction items as [|item rest IH]; intros i; [reflexivity|].
  cbn [outlineChapters outlineGroups map rawPlainText]. rewrite IH. reflexivity.
Qed.

Lemma getOutlinePageNumber_pos item : 1 <= getOutlinePageNumber item.
Proof. unfold getOutlinePageNumber. destruct (outlinePageIndex item); lia. Qed.

Lemma outlineGroups_concat pageTexts item rest :
  ascending (length pageTexts) (item :: rest) ->
  concat (outlineGroups pageTexts (item :: rest))
  = drop (getOutlinePageNumber item - 1) pageTexts.
Proof.
  revert item. induction rest as [|next rest IH]; intros item [Hle Hrest].
  - cbn [outlineGroups concat]. rewrite app_nil_r. unfold slice.
    apply take_ge. rewrite length_drop. lia.
  - change (outlineGroups pageTexts (item :: next :: rest))
      with (slice (getOutlinePageNumber item - 1)
              (getOutlinePageNumber next - 1) pageTexts
            :: outlineGroups pageTexts (next :: rest)).
    cbn [concat]. rewrite (IH next Hrest).
    pose proof (getOutlinePageNumber_pos item) as Hp.
    unfold slice.
    replace (drop (getOutlinePageNumber next - 1) pageTexts)
      with (drop (getOutlinePageNumber next - 1 - (getOutlinePageNumber item - 1))
              (drop (getOutlinePageNumber item - 1) pageTexts)).
    + apply take_drop.
    + rewrite drop_drop. f_equal. lia.
Qed.

Definition outlineAllGroups (pageTexts : list jsstring)
    (outline : list OutlineItem) : list (list jsstring) :=
  (if 1 <? match outline with
           | first :: _ => getOutlinePageNumber first
           | [] => 1
           end
   then [slice 0 (match outline with
                  | first :: _ => getOutlinePageNumber first
                  | [] => 1
                  end - 1) pageTexts]
   else [])
  ++ outlineGroups pageTexts outline.

Lemma buildChaptersFromOutline_texts outline pageTexts :
  map rawPlainText (buildChaptersFromOutline outline pageTexts)
  = map (join NLNL) (outlineAllGroups pageTexts outline).
Proof.
  unfold buildChaptersFromOutline, outlineAllGroups.
  rewrite !map_app, outlineChapters_texts. f_equal.
  destruct (1 <? _); reflexivity.
Qed.

Lemma outlineAllGroups_concat pageTexts item rest :
  ascending (length pageTexts) (item :: rest) ->
  concat (outlineAllGroups pageTexts (item :: rest)) = pageTexts.
Proof.
  intros H. unfold outlineAllGroups. rewrite concat_app, outlineGroups_concat by exact H.
  pose proof (getOutlinePageNumber_pos item) as Hp.
  destruct (Nat.ltb_spec 1 (getOutlinePageNumber item)) as [H1 | H1].
  - cbn [concat]. rewrite app_nil_r. unfold slice. rewrite drop_0, Nat.sub_0_r.
    apply take_drop.
  - cbn [concat app]. replace (getOutlinePageNumber item - 1) with 0 by lia.
    apply drop_0.
Qed.

(** X16.  The same count on the PDF path with an outline whose page
    numbers do not decrease and lie within the document: the word array
    has one token more than the chapters count for every chapter with
    words but the first, and the chapter intervals cover the word array
    exactly when at most one chapter holds words. *)
Theorem parsePDFWithStructure_outline_shortfall
    (pageTexts : list jsstring) (item : OutlineItem) (rest : list OutlineItem)
    (fileName : jsstring) :
  ascending (length pageTexts) (item :: rest) ->
  let r := parsePDFWithStructure pageTexts (Some (item :: rest)) fileName in
  let chs := chapters (Document.contentStructure r) in
  Z.of_nat (length (Document.words r))
  = (totalWordCount chs + Z.of_nat (nonEmptyChapters chs - 1))%Z
  /\ (tokenCoverage r <-> nonEmptyChapters chs <= 1).
Proof.
  intros Hasc r chs.
  assert (Hshort :
    Z.of_nat (length (Document.words r))
    = (totalWordCount chs + Z.of_nat (nonEmptyChapters chs - 1))%Z).
  { pose proof (grouped_chapters_shortfall
                  (outlineAllGroups pageTexts (item :: rest)) _ 0%Z
                  (buildChaptersFromOutline_texts (item :: rest) pageTexts)) as H.
    rewrite (outlineAllGroups_concat _ _ _ Hasc) in H. exact H. }
  split; [exact Hshort|].
  unfold tokenCoverage. fold chs.
  pose proof (boundariesFrom_tiles
                (buildChaptersFromOutline (item :: rest) pageTexts) 0) as Htiles.
  change (boundariesFrom (buildChaptersFromOutline (item :: rest) pageTexts) 0)
    with chs in Htiles.
  split.
  - intros [_ Htotal]. lia.
  - intros Hle. assert (Heq : totalWordCount chs
                             = Z.of_nat (length (Document.words r))) by lia.
    split; [|exact Heq]. rewrite <- Heq.
    rewrite Z.add_0_l in Htiles. exact Htiles.
Qed.

(** Two outline entries, on pages 1 and 2 of a two-page document. *)
Lemma parsePDFWithStructure_outline_shortfall_witness :
  ascending 2 [mkOutlineItem (Some (js "One")) (Some 0);
               mkOutlineItem (Some (js "Two")) (Some 1)]
  /\ Z.of_nat (length (Document.words twoPages))
     = (totalWordCount (chapters (Document.contentStructure twoPages))
        + Z.of_nat (nonEmptyChapters
                      (chapters (Document.contentStructure twoPages)) - 1))%Z.
Proof.
  assert (H : ascending (length [js "a"; js "b"])
                [mkOutlineItem (Some (js "One")) (Some 0);
                 mkOutlineItem (Some (js "Two")) (Some 1)]).
  { simpl. unfold getOutlinePageNumber. simpl. lia. }
  split; [exact H|].
  exact (proj1 (parsePDFWithStructure_outline_shortfall
                  [js "a"; js "b"] _ _ (js "two.pdf") H)).
Defined.

(** *** The EPUB path: what the loop builds *)

Import EpubStructureParser.

(** The chapters that the loop of [buildWordBoundaries] appends, with the
    running [currentWordIndex]. *)
Fixpoint epubChapters (chapters : list RawChapter) (currentWordIndex : Z)
  : list Chapter :=
  match chapters with
  | [] => []
  | chapter :: rest =>
      let chapterWords := parseText (rawPlainText chapter) in
      mkChapter (rawId chapter) (rawTitle chapter) (rawLevel chapter)
        (rawPlainText chapter) (rawPages chapter)
        currentWordIndex
        (currentWordIndex + Z.of_nat (length chapterWords))
        (Z.of_nat (length chapterWords))
        (map (globalImage currentWordIndex) (rawImages chapter))
      :: epubChapters rest (currentWordIndex + Z.of_nat (length chapterWords))
  end.

Definition chapterWordsOf (chapters : list RawChapter) : list jsstring :=
  concat (map (fun c => parseText (rawPlainText c)) chapters).

Lemma buildLoop_result chapters allWords done allImages current :
  buildLoop chapters allWords done allImages current
  = (allWords ++ chapterWordsOf chapters,
     done ++ epubChapters chapters current,
     allImages ++ concat (map chapterImages (epubChapters chapters current))).
Proof.
  revert allWords done allImages current.
  induction chapters as [|chapter rest IH]; intros allWords done allImages current.
  - simpl. rewrite !app_nil_r. reflexivity.
  - cbn [buildLoop]. rewrite IH. unfold chapterWordsOf.
    cbn [epubChapters map concat chapterImages].
    rewrite <- !app_assoc. reflexivity.
Qed.

Lemma epubChapters_slices chapters (before : list jsstring) i ch :
  epubChapters chapters (Z.of_nat (length before)) !! i = Some ch ->
  (0 <= startWordIndex ch <= endWordIndex ch)%Z
  /\ slice (Z.to_nat (startWordIndex ch)) (Z.to_nat (endWordIndex ch))
       (before ++ chapterWordsOf chapters)
     = parseText (plainText ch).
Proof.
  revert before i. induction chapters as [|chapter rest IH]; intros before i H;
    [discriminate|].
  cbn [epubChapters] in H. destruct i as [|i].
  - injection H as <-. cbn [startWordIndex endWordIndex plainText].
    split; [lia|]. unfold slice, chapterWordsOf. cbn [map concat].
    rewrite <- Nat2Z.inj_add, !Nat2Z.id.
    rewrite drop_app_length. replace (_ + _ - _) with
      (length (parseText (rawPlainText chapter))) by lia.
    apply take_app_length.
  - cbn [lookup list_lookup] in H.
    rewrite <- Nat2Z.inj_add, <- length_app in H.
    destruct (IH _ _ H) as [Hr Hs]. split; [exact Hr|].
    unfold chapterWordsOf in *. cbn [map concat].
    rewrite app_assoc. exact Hs.
Qed.

(** X17.  On the EPUB path every chapter's interval cuts the chapter's own
    word stream out of the document's word array: the words from
    [startWordIndex] to [endWordIndex] are [parseText] of the chapter's
    text. *)
Theorem parseEPUBWithStructure_chapter_slices
    (chapters : list RawChapter) (tocLength i : nat) (ch : Chapter) :
  let r := parseEPUBWithStructure chapters tocLength in
  Document.chapters (Document.contentStructure r) !! i = Some ch ->
  (0 <= startWordIndex ch <= endWordIndex ch)%Z
  /\ slice (Z.to_nat (startWordIndex ch)) (Z.to_nat (endWordIndex ch))
       (Document.words r)
     = parseText (plainText ch).
Proof.
  unfold parseEPUBWithStructure, buildWordBoundaries.
  rewrite buildLoop_result. cbn [Document.chapters Document.contentStructure
    Document.words app]. intros H.
  apply (epubChapters_slices chapters [] i ch H).
Qed.

(** A book of two chapters, the second with one image before its second
    word. *)
Definition twoChapterBook : list RawChapter :=
  [mkRawChapter (LabelText (js "ch1")) (LabelText (js "One")) 1
     (js "a b c") None [];
   mkRawChapter (LabelText (js "ch2")) (LabelText (js "Two")) 1
     (js "d e") None [mkImage (js "figure.png") (js "Image") 1 true]].

Lemma parseEPUBWithStructure_chapter_slices_witness :
  exists ch,
    Document.chapters
      (Document.contentStructure (parseEPUBWithStructure twoChapterBook 2)) !! 1
    = Some ch
    /\ slice (Z.to_nat (startWordIndex ch)) (Z.to_nat (endWordIndex ch))
         (Document.words (parseEPUBWithStructure twoChapterBook 2))
       = [js "d"; js "e"].
Proof.
  eexists. split; [reflexivity|].
  apply (parseEPUBWithStructure_chapter_slices twoChapterBook 2 1).
  reflexivity.
Defined.

Lemma epubChapters_images chapters current :
  Forall2 (fun raw ch =>
             chapterImages ch
             = map (globalImage (startWordIndex ch)) (rawImages raw))
    chapters (epubChapters chapters current).
Proof.
  revert current. induction chapters as [|chapter rest IH]; intros current;
    cbn [epubChapters]; constructor; [reflexivity | apply IH].
Qed.

(** X18.  The images of an EPUB document are the images of its chapters
    in chapter order, and each chapter's images are the input's
    chapter-relative images moved by the chapter's start: source,
    alternative text and availability are kept, the word position is
    [startWordIndex] plus the relative position. *)
Theorem parseEPUBWithStructure_images
    (chapters : list RawChapter) (tocLength : nat) :
  let cs := Document.contentStructure (parseEPUBWithStructure chapters tocLength) in
  images cs = Some (concat (map chapterImages (Document.chapters cs)))
  /\ Forall2 (fun raw ch =>
                Forall2 (fun rel img =>
                           src img = src rel /\ alt img = alt rel
                           /\ unavailable img = unavailable rel
                           /\ wordPosition img
                              = (startWordIndex ch + wordPosition rel)%Z)
                  (rawImages raw) (chapterImages ch))
       chapters (Document.chapters cs).
Proof.
  unfold parseEPUBWithStructure, buildWordBoundaries.
  rewrite buildLoop_result.
  cbn [Document.chapters Document.contentStructure images app].
  split; [reflexivity|].
  eapply Forall2_impl; [apply epubChapters_images|].
  intros raw ch ->. simpl.
  induction (rawImages raw) as [|rel rels IH]; constructor;
    [repeat split | exact IH].
Qed.

Lemma epubChapters_tiles chapters current :
  tiles current (epubChapters chapters current)
    (current + Z.of_nat (length (chapterWordsOf chapters))).
Proof.
  revert current. induction chapters as [|chapter rest IH]; intros current.
  - simpl. lia.
  - cbn [epubChapters tiles startWordIndex endWordIndex wordCount].
    repeat split; try lia.
    unfold chapterWordsOf in *. cbn [map concat].
    rewrite length_app, Nat2Z.inj_add, Z.add_assoc. apply IH.
Qed.

(** X19.  The table of contents of an EPUB document has one entry per
    chapter: entry [i] carries the index [i] and the id, title, start and
    word count of chapter [i], and for a chapter that holds words the
    start that the entry carries is a word index whose chapter, by
    [getChapterAtWordIndex], is chapter [i] again. *)
Theorem parseEPUBWithStructure_toc_aligned
    (chapters : list RawChapter) (tocLength i : nat) (e : TocEntry) :
  let cs := Document.contentStructure (parseEPUBWithStructure chapters tocLength) in
  toc cs !! i = Some e ->
  length (toc cs) = length (Document.chapters cs)
  /\ exists ch,
       Document.chapters cs !! i = Some ch
       /\ chapterIndex e = i
       /\ tocId e = id ch /\ tocTitle e = title ch
       /\ tocStartWordIndex e = Some (startWordIndex ch)
       /\ tocWordCount e = Some (wordCount ch)
       /\ ((0 < wordCount ch)%Z ->
           getChapterAtWordIndex (Some cs) (startWordIndex ch) = i).
Proof.
  unfold parseEPUBWithStructure, buildWordBoundaries.
  rewrite buildLoop_result.
  cbn [Document.chapters Document.contentStructure toc app].
  unfold flattenTOC. intros H.
  split; [apply length_imap|].
  rewrite list_lookup_imap in H.
  destruct (epubChapters chapters 0 !! i) as [ch|] eqn:Hch; [|discriminate].
  injection H as <-. exists ch. repeat split.
  intros Hpos. unfold getChapterAtWordIndex, findIndex.
  cbn [Document.chapters]. fold (holds (startWordIndex ch)).
  pose proof (epubChapters_tiles chapters 0) as Ht.
  assert (Hw : wordCount ch = (endWordIndex ch - startWordIndex ch)%Z).
  { clear Hpos Ht. revert Hch. generalize 0%Z. revert i.
    induction chapters as [|c rest IH]; intros i z Hch; [discriminate|].
    destruct i as [|i]; simpl in Hch.
    - injection Hch as <-. simpl. lia.
    - apply (IH _ _ Hch). }
  rewrite (tiles_find _ _ _ (startWordIndex ch) i 0 ch Ht Hch) by lia.
  reflexivity.
Qed.

Lemma parseEPUBWithStructure_toc_aligned_witness :
  exists e,
    toc (Document.contentStructure (parseEPUBWithStructure twoChapterBook 2)) !! 1
    = Some e
    /\ chapterIndex e = 1
    /\ tocStartWordIndex e = Some 3%Z.
Proof.
  eexists. split; [reflexivity|].
  destruct (parseEPUBWithStructure_toc_aligned twoChapterBook 2 1 _ eq_refl)
    as (_ & ch & Hch & Hi & _ & _ & Hs & _).
  split; [exact Hi|]. rewrite Hs. injection Hch as <-. reflexivity.
Defined.

End StructurerExtras.

(** ** The session store: round trips, failures and clearing *)

Module StorageExtras.
Import ProgressStorage StorageProofs.

Section Store.
Variable Session : Type.
Variable serialize : Session -> Z -> string.
Variable blobSize : string -> N.
Variable Parsed : Type.
Variable jsonParse : string -> option Parsed.
Variable lsPolicy : gmap string string -> string -> string -> SetOutcome.
Variable lsRemoves : gmap string string -> string -> bool.

(** The probe write of [saveSession] is taken. *)
Definition probeOk (w : World Session) : Prop :=
  lsPolicy (ls w) TEST_KEY "test" = SetOk.

(** X20.  The small tier alone: when the flag is not set, the probe and
    the session write are taken and the payload has at most 2MB,
    [saveSession] returns [true] with the payload under the session key,
    and a [loadSession] that follows returns the parsed payload.  Neither
    of the two touches IndexedDB. *)
Theorem saveSession_small_tier_round_trip
    (session : Session) (w : World Session) (parsed : Parsed) :
  let payload := serialize session (now w) in
  ls w !! USE_INDEXEDDB_KEY <> Some "true" ->
  probeOk w ->
  (blobSize payload <= TWO_MB)%N ->
  lsPolicy (afterProbe (ls w)) STORAGE_KEY payload = SetOk ->
  payload <> EmptyString ->
  jsonParse payload = Some parsed ->
  fst (saveSession Session serialize blobSize lsPolicy session w) = ReturnsBool true
  /\ ls (snd (saveSession Session serialize blobSize lsPolicy session w)) !! STORAGE_KEY = Some payload
  /\ idb (snd (saveSession Session serialize blobSize lsPolicy session w)) = idb w
  /\ log (snd (saveSession Session serialize blobSize lsPolicy session w))
     = log w ++ [LsGetItem USE_INDEXEDDB_KEY; LsSetItem TEST_KEY;
                 LsRemoveItem TEST_KEY; LsSetItem STORAGE_KEY]
  /\ fst (loadSession Session Parsed jsonParse (snd (saveSession Session serialize blobSize lsPolicy session w))) = Some (LoadedParsed parsed)
  /\ log (snd (loadSession Session Parsed jsonParse (snd (saveSession Session serialize blobSize lsPolicy session w))))
     = log (snd (saveSession Session serialize blobSize lsPolicy session w))
       ++ [LsGetItem USE_INDEXEDDB_KEY; LsGetItem STORAGE_KEY].
Proof.
  intros payload Hunset Hprobe Hsize Hwrite Hne Hparse.
  assert (Hsave : saveSession Session serialize blobSize lsPolicy session w
    = (ReturnsBool true,
       mkWorld (<[STORAGE_KEY := payload]> (afterProbe (ls w))) (idb w)
         (idbWorks w) (now w)
         (log w ++ [LsGetItem USE_INDEXEDDB_KEY; LsSetItem TEST_KEY;
                    LsRemoveItem TEST_KEY; LsSetItem STORAGE_KEY]))).
  { unfold saveSession, getItem.
    rewrite bool_decide_eq_false_2 by exact Hunset.
    unfold setItem at 1. simpl. rewrite Hprobe. simpl.
    fold payload. apply N.ltb_ge in Hsize. rewrite Hsize.
    unfold setItem. simpl.
    unfold afterProbe in Hwrite. rewrite Hwrite. unfold afterProbe.
    rewrite <- !app_assoc. reflexivity. }
  rewrite Hsave. cbn [fst snd ls idb log].
  split; [reflexivity|]. split; [apply lookup_insert_eq|].
  split; [reflexivity|]. split; [reflexivity|].
  unfold loadSession, getItem. cbn [ls logged].
  assert (Hflag : <[STORAGE_KEY := payload]> (afterProbe (ls w))
                  !! USE_INDEXEDDB_KEY <> Some "true").
  { unfold afterProbe.
    rewrite lookup_insert_ne, lookup_delete_ne, lookup_insert_ne by discriminate.
    exact Hunset. }
  rewrite (bool_decide_eq_false_2 _ Hflag), lookup_insert_eq.
  rewrite (bool_decide_eq_false_2 _ Hne), Hparse.
  unfold logged. cbn [fst snd log idb idbWorks now ls].
  rewrite <- !app_assoc. split; reflexivity.
Qed.

(** The clock reads [t]. *)
Definition atTime (t : Z) (w : World Session) : World Session :=
  mkWorld (ls w) (idb w) (idbWorks w) t (log w).

(** One [saveSession] after another, each at its own time. *)
Fixpoint saveEach (sessions : list (Session * Z)) (w : World Session)
  : list SaveResult * World Session :=
  match sessions with
  | [] => ([], w)
  | (session, t) :: rest =>
      let '(r, w1) := saveSession Session serialize blobSize lsPolicy session (atTime t w) in
      let '(rs, w2) := saveEach rest w1 in
      (r :: rs, w2)
  end.

Lemma saveSession_flagged (session : Session) (w : World Session) :
  ls w !! USE_INDEXEDDB_KEY = Some "true" ->
  saveSession Session serialize blobSize lsPolicy session w
  = (ReturnsPromise (idbWorks w),
     mkWorld (ls w)
       (if idbWorks w then Some (session, now w) else idb w)
       (idbWorks w) (now w)
       (log w ++ [LsGetItem USE_INDEXEDDB_KEY; IdbPut])).
Proof.
  intros Hflag. unfold saveSession, getItem. rewrite Hflag.
  rewrite bool_decide_eq_true_2 by reflexivity.
  unfold saveSessionToIndexedDB, logged. simpl.
  rewrite <- app_assoc. destruct (idbWorks w); reflexivity.
Qed.

(** X21.  The flag is sticky: once it is set, every later [saveSession],
    whatever the size of the session and whatever the small tier would
    take, goes to IndexedDB.  Over any sequence of saves the small tier
    stays as it is, every result is the promise of a put, each save reads
    the flag and puts the record and does nothing else, and when IndexedDB
    works it holds the session saved last. *)
Theorem saveSession_flag_sticky
    (sessions : list (Session * Z)) (w : World Session) :
  ls w !! USE_INDEXEDDB_KEY = Some "true" ->
  ls (snd (saveEach sessions w)) = ls w
  /\ fst (saveEach sessions w)
     = map (fun _ => ReturnsPromise (idbWorks w)) sessions
  /\ log (snd (saveEach sessions w))
     = log w ++ concat (map (fun _ => [LsGetItem USE_INDEXEDDB_KEY; IdbPut])
                          sessions)
  /\ (idbWorks w = true ->
      idb (snd (saveEach sessions w))
      = match last sessions with Some s => Some s | None => idb w end).
Proof.
  revert w. induction sessions as [|[session t] rest IH]; intros w Hflag.
  - simpl. rewrite app_nil_r. repeat split.
  - cbn [saveEach]. rewrite (saveSession_flagged session (atTime t w) Hflag).
    cbn [atTime ls idb idbWorks now log].
    set (w1 := mkWorld _ _ _ _ _).
    destruct (IH w1 Hflag) as (Hls & Hres & Hlog & Hidb).
    destruct (saveEach rest w1) as [rs w2]. cbn [fst snd] in *.
    split; [exact Hls|]. split; [cbn [map]; rewrite Hres; reflexivity|].
    split.
    + rewrite Hlog. unfold w1. cbn [log map concat].
      rewrite <- !app_assoc. reflexivity.
    + intros Hworks. specialize (Hidb Hworks). rewrite Hidb.
      unfold w1. cbn [idb]. rewrite Hworks.
      destruct rest as [|s rest']; [reflexivity|].
      change (last ((session, t) :: s :: rest')) with (last (s :: rest')).
      destruct (last (s :: rest')) eqn:E; [reflexivity|].
      apply last_None in E. discriminate.
Qed.

(** X22.  An error of the session write that is not a quota error loses
    the session: [saveSession] returns [false], and neither tier holds the
    session afterwards; the flag stays unset and IndexedDB is not tried. *)
Theorem saveSession_other_error_not_saved
    (session : Session) (w : World Session) :
  let payload := serialize session (now w) in
  ls w !! USE_INDEXEDDB_KEY <> Some "true" ->
  probeOk w ->
  (blobSize payload <= TWO_MB)%N ->
  lsPolicy (afterProbe (ls w)) STORAGE_KEY payload = SetOtherError ->
  fst (saveSession Session serialize blobSize lsPolicy session w) = ReturnsBool false
  /\ ls (snd (saveSession Session serialize blobSize lsPolicy session w)) !! STORAGE_KEY = ls w !! STORAGE_KEY
  /\ ls (snd (saveSession Session serialize blobSize lsPolicy session w)) !! USE_INDEXEDDB_KEY
     = ls w !! USE_INDEXEDDB_KEY
  /\ idb (snd (saveSession Session serialize blobSize lsPolicy session w)) = idb w
  /\ log (snd (saveSession Session serialize blobSize lsPolicy session w))
     = log w ++ [LsGetItem USE_INDEXEDDB_KEY; LsSetItem TEST_KEY;
                 LsRemoveItem TEST_KEY; LsSetItem STORAGE_KEY].
Proof.
  intros payload Hunset Hprobe Hsize Hwrite.
  assert (Hsave : saveSession Session serialize blobSize lsPolicy session w
    = (ReturnsBool false,
       mkWorld (afterProbe (ls w)) (idb w) (idbWorks w) (now w)
         (log w ++ [LsGetItem USE_INDEXEDDB_KEY; LsSetItem TEST_KEY;
                    LsRemoveItem TEST_KEY; LsSetItem STORAGE_KEY]))).
  { unfold saveSession, getItem.
    rewrite bool_decide_eq_false_2 by exact Hunset.
    unfold setItem at 1. simpl. rewrite Hprobe. simpl.
    fold payload. apply N.ltb_ge in Hsize. rewrite Hsize.
    unfold setItem. simpl.
    unfold afterProbe in Hwrite. rewrite Hwrite.
    unfold afterProbe, onSaveError, removeItem, logged. simpl.
    rewrite <- !app_assoc. reflexivity. }
  rewrite Hsave. cbn [fst snd ls idb log]. unfold afterProbe.
  repeat split;
    rewrite lookup_delete_ne, lookup_insert_ne by discriminate; reflexivity.
Qed.

(** The small tier takes no write at all, as in a private browsing
    session. *)
Definition refusesAll : Prop :=
  forall store key value, lsPolicy store key value <> SetOk.

(** X23.  When the small tier takes no write, the fallback of
    [saveSession] to IndexedDB is not reached: the write of the flag,
    which stands outside the [try] blocks, throws out of [saveSession],
    and IndexedDB is left untouched. *)
Theorem saveSession_refusing_small_tier_throws
    (session : Session) (w : World Session) :
  ls w !! USE_INDEXEDDB_KEY <> Some "true" ->
  refusesAll ->
  fst (saveSession Session serialize blobSize lsPolicy session w) = Throws
  /\ idb (snd (saveSession Session serialize blobSize lsPolicy session w)) = idb w
  /\ ls (snd (saveSession Session serialize blobSize lsPolicy session w)) = ls w
  /\ log (snd (saveSession Session serialize blobSize lsPolicy session w))
     = log w ++ [LsGetItem USE_INDEXEDDB_KEY; LsSetItem TEST_KEY;
                 LsSetItem USE_INDEXEDDB_KEY].
Proof.
  intros Hunset Hrefuse.
  assert (Hsave : saveSession Session serialize blobSize lsPolicy session w
    = (Throws,
       mkWorld (ls w) (idb w) (idbWorks w) (now w)
         (log w ++ [LsGetItem USE_INDEXEDDB_KEY; LsSetItem TEST_KEY;
                    LsSetItem USE_INDEXEDDB_KEY]))).
  { unfold saveSession, getItem.
    rewrite bool_decide_eq_false_2 by exact Hunset.
    pose proof (Hrefuse (ls w) TEST_KEY "test") as Hprobe.
    pose proof (Hrefuse (ls w) USE_INDEXEDDB_KEY "true") as Hflag.
    unfold switchToIndexedDB, setItem, logged. simpl.
    destruct (lsPolicy (ls w) TEST_KEY "test"); [congruence| |];
      simpl; destruct (lsPolicy (ls w) USE_INDEXEDDB_KEY "true");
      try congruence; simpl; rewrite <- !app_assoc; reflexivity. }
  rewrite Hsave. repeat split.
Qed.

(** Both removals of [clearSession] go through. *)
Definition removalsWork (w : World Session) : bool :=
  lsRemoves (ls w) STORAGE_KEY
  && lsRemoves (delete STORAGE_KEY (ls w)) USE_INDEXEDDB_KEY.

Lemma clearSession_cases (w : World Session) :
  exists store trail,
    clearSession Session lsRemoves w
    = (removalsWork w,
       mkWorld store (if idbWorks w then None else idb w) (idbWorks w) (now w)
         trail)
    /\ (removalsWork w = true
        -> store = delete USE_INDEXEDDB_KEY (delete STORAGE_KEY (ls w))).
Proof.
  unfold clearSession, tryRemoveItem, removalsWork, clearSessionFromIndexedDB,
    removeItem, logged.
  cbn [ls idb idbWorks now log].
  destruct (lsRemoves (ls w) STORAGE_KEY); cbn [ls idb idbWorks now log andb].
  - destruct (lsRemoves (delete STORAGE_KEY (ls w)) USE_INDEXEDDB_KEY);
      cbn [ls idb idbWorks now log]; destruct (idbWorks w);
      eexists _, _; (split; [reflexivity|]); intros H;
      first [reflexivity | discriminate H].
  - destruct (idbWorks w); eexists _, _; (split; [reflexivity|]);
      intros H; discriminate H.
Qed.

(** X24.  [clearSession] reports what the two removals from localStorage
    did and nothing else: its result is [true] exactly when both go
    through, whatever becomes of the record in IndexedDB, whose deletion
    catches its own errors.  When the removals go through, the session and
    the flag are gone from localStorage; when IndexedDB works too, the
    record is gone, [hasSession] is false and [loadSession] gives nothing.
    When IndexedDB fails the record stays, also with the result [true]. *)
Theorem clearSession_result (w : World Session) :
  fst (clearSession Session lsRemoves w) = removalsWork w
  /\ (removalsWork w = true ->
      ls (snd (clearSession Session lsRemoves w)) !! STORAGE_KEY = None
      /\ ls (snd (clearSession Session lsRemoves w)) !! USE_INDEXEDDB_KEY = None)
  /\ (idbWorks w = true -> idb (snd (clearSession Session lsRemoves w)) = None)
  /\ (removalsWork w = true -> idbWorks w = true ->
      fst (hasSession Session (snd (clearSession Session lsRemoves w))) = false
      /\ fst (loadSession Session Parsed jsonParse (snd (clearSession Session lsRemoves w))) = None)
  /\ (idbWorks w = false -> idb (snd (clearSession Session lsRemoves w)) = idb w).
Proof.
  destruct (clearSession_cases w) as (store & trail & -> & Hstore).
  cbn [fst snd ls idb].
  split; [reflexivity|]. split; [|split; [|split]].
  - intros H. rewrite (Hstore H). split.
    + rewrite lookup_delete_ne by discriminate. apply lookup_delete_eq.
    + apply lookup_delete_eq.
  - intros ->. reflexivity.
  - intros H Hw. rewrite (Hstore H), Hw.
    unfold hasSession, loadSession, getItem, hasSessionInIndexedDB,
      fromIndexedDB, loadSessionFromIndexedDB, logged.
    cbn [ls idb idbWorks now log].
    rewrite lookup_delete_eq.
    rewrite (lookup_delete_ne _ USE_INDEXEDDB_KEY STORAGE_KEY) by discriminate.
    rewrite lookup_delete_eq. simpl. split; reflexivity.
  - intros ->. reflexivity.
Qed.

(** When [hasSession] finds nothing, [loadSession] gives nothing. *)
Lemma hasSession_false_loadSession_null (w : World Session) :
  fst (hasSession Session w) = false -> fst (loadSession Session Parsed jsonParse w) = None.
Proof.
  unfold hasSession, loadSession, getItem, hasSessionInIndexedDB,
    fromIndexedDB, loadSessionFromIndexedDB, logged.
  cbn [ls idb idbWorks now log].
  destruct (ls w !! STORAGE_KEY) as [text|] eqn:Ekey.
  - rewrite bool_decide_eq_true_2 by (eexists; reflexivity). discriminate.
  - rewrite bool_decide_eq_false_2 by (intros [x Hx]; discriminate).
    intros H.
    assert (Hrec : (if idbWorks w then idb w else None) = None).
    { destruct (idbWorks w); [|reflexivity]. cbn [fst] in H.
      destruct (idb w); [|reflexivity].
      rewrite bool_decide_eq_true_2 in H by (eexists; reflexivity).
      discriminate. }
    destruct (bool_decide (ls w !! USE_INDEXEDDB_KEY = Some "true"));
      destruct (idbWorks w); cbn [fst fmap option_fmap option_map] in *;
      try rewrite Hrec; reflexivity.
Qed.

End Store.

(** A small tier that takes every write but the one of the session. *)
Definition brokenSessionKey (store : gmap string string) (key value : string)
  : SetOutcome :=
  if String.eqb key STORAGE_KEY then SetOtherError else SetOk.

(** A small tier that takes no write. *)
Definition privateMode (store : gmap string string) (key value : string)
  : SetOutcome := SetQuotaExceeded.

Definition flaggedWorld : World nat :=
  mkWorld {[USE_INDEXEDDB_KEY := "true"]} None true 0%Z [].

Lemma emptyWorld_unflagged :
  ls emptyWorld !! USE_INDEXEDDB_KEY <> Some "true".
Proof. unfold emptyWorld. simpl. rewrite lookup_empty. discriminate. Qed.

Lemma saveSession_small_tier_round_trip_witness :
  let save :=
    saveSession nat (fun n _ => payloadOf n)
      (fun s => N.of_nat (String.length s)) smallQuota in
  let load := loadSession nat string (fun s => Some s) in
  fst (save 50 emptyWorld) = ReturnsBool true
  /\ fst (load (snd (save 50 emptyWorld))) = Some (LoadedParsed (payloadOf 50)).
Proof.
  intros save load.
  destruct (saveSession_small_tier_round_trip
              nat (fun n _ => payloadOf n) (fun s => N.of_nat (String.length s))
              string (fun s => Some s) smallQuota 50 emptyWorld (payloadOf 50))
    as (Hres & _ & _ & _ & Hload & _);
    [ exact emptyWorld_unflagged | reflexivity | vm_compute; discriminate
    | reflexivity | discriminate | reflexivity | ].
  split; [exact Hres | exact Hload].
Defined.

Lemma saveSession_flag_sticky_witness :
  let saves :=
    saveEach nat (fun n _ => payloadOf n)
      (fun s => N.of_nat (String.length s)) smallQuota
      [(7, 1%Z); (9, 2%Z)] flaggedWorld in
  ls flaggedWorld !! USE_INDEXEDDB_KEY = Some "true"
  /\ ls (snd saves) = ls flaggedWorld
  /\ fst saves = [ReturnsPromise true; ReturnsPromise true]
  /\ idb (snd saves) = Some (9, 2%Z).
Proof.
  intros saves.
  assert (H : ls flaggedWorld !! USE_INDEXEDDB_KEY = Some "true")
    by reflexivity.
  destruct (saveSession_flag_sticky
              nat (fun n _ => payloadOf n) (fun s => N.of_nat (String.length s))
              smallQuota [(7, 1%Z); (9, 2%Z)] flaggedWorld H)
    as (Hls & Hres & _ & Hidb).
  split; [exact H|]. split; [exact Hls|]. split; [exact Hres|].
  apply Hidb. reflexivity.
Defined.

Lemma saveSession_other_error_not_saved_witness :
  let save :=
    saveSession nat (fun n _ => payloadOf n)
      (fun s => N.of_nat (String.length s)) brokenSessionKey in
  fst (save 50 emptyWorld) = ReturnsBool false
  /\ idb (snd (save 50 emptyWorld)) = None.
Proof.
  intros save.
  destruct (saveSession_other_error_not_saved
              nat (fun n _ => payloadOf n) (fun s => N.of_nat (String.length s))
              brokenSessionKey 50 emptyWorld)
    as (Hres & _ & _ & Hidb & _);
    [ exact emptyWorld_unflagged | reflexivity | vm_compute; discriminate
    | reflexivity | ].
  split; [exact Hres | exact Hidb].
Defined.

Lemma saveSession_refusing_small_tier_throws_witness :
  let save :=
    saveSession nat (fun n _ => payloadOf n)
      (fun s => N.of_nat (String.length s)) privateMode in
  refusesAll privateMode
  /\ fst (save 50 emptyWorld) = Throws
  /\ idb (snd (save 50 emptyWorld)) = None.
Proof.
  intros save.
  assert (H : refusesAll privateMode) by (intros store key value; discriminate).
  destruct (saveSession_refusing_small_tier_throws
              nat (fun n _ => payloadOf n) (fun s => N.of_nat (String.length s))
              privateMode 50 emptyWorld emptyWorld_unflagged H)
    as (Hres & Hidb & _).
  split; [exact H | split; [exact Hres | exact Hidb]].
Defined.

(** A localStorage whose [removeItem] always goes through, and one whose
    [removeItem] throws. *)
Definition removesAll (store : gmap string string) (key : string) : bool := true.
Definition removesNone (store : gmap string string) (key : string) : bool := false.

(** Both tiers hold a session, and the flag is set. *)
Definition fullWorld : World nat :=
  mkWorld (<[STORAGE_KEY := "{}"]> {[USE_INDEXEDDB_KEY := "true"]})
    (Some (7, 1%Z)) true 5%Z [].

Lemma clearSession_result_witness :
  fst (hasSession nat fullWorld) = true
  /\ fst (clearSession nat removesAll fullWorld) = true
  /\ fst (hasSession nat (snd (clearSession nat removesAll fullWorld))) = false
  /\ fst (loadSession nat string (fun s => Some s)
            (snd (clearSession nat removesAll fullWorld))) = None
  /\ fst (clearSession nat removesNone fullWorld) = false.
Proof.
  destruct (clearSession_result nat string (fun s => Some s) removesAll fullWorld)
    as (Hres & _ & _ & Hgone & _).
  destruct (Hgone eq_refl eq_refl) as [Hhas Hload].
  destruct (clearSession_result nat string (fun s => Some s) removesNone fullWorld)
    as (Hfail & _).
  split; [reflexivity|]. split; [exact Hres|]. split; [exact Hhas|].
  split; [exact Hload | exact Hfail].
Defined.

(** *** Percentages and word indices *)

Lemma clamped_range (p : Q) :
  (0 <= Qmax 0 (Qmin 100 p))%Q /\ (Qmax 0 (Qmin 100 p) <= 100)%Q.
Proof.
  split; [apply Q.le_max_l|].
  apply Q.max_lub; [discriminate | apply Q.le_min_l].
Qed.

Lemma scaled_range (c : Q) (n : Z) :
  (0 < n)%Z -> (0 <= c)%Q -> (c <= 100)%Q ->
  (0 <= c / 100 * inject_Z n)%Q /\ (c / 100 * inject_Z n <= inject_Z n)%Q.
Proof.
  intros Hn H0 H100.
  assert (HN : (0 <= inject_Z n)%Q)
    by (change 0%Q with (inject_Z 0); rewrite <- Zle_Qle; lia).
  assert (Hd0 : (0 <= c / 100)%Q) by (apply Qle_shift_div_l; [reflexivity | lra]).
  assert (Hd1 : (c / 100 <= 1)%Q) by (apply Qle_shift_div_r; [reflexivity | lra]).
  split; [apply Qmult_le_0_compat; assumption|].
  rewrite <- (Qmult_1_l (inject_Z n)) at 2.
  apply Qmult_le_compat_r; assumption.
Qed.

(** X25.  For a positive number of words [percentageToWordIndex] clamps
    every percentage: its result lies in [0, totalWords]; it is the end of
    the stream, [totalWords], exactly for percentages of 100 and more, and
    a word index before the end for every smaller one.  For a word index
    in [0, totalWords], [wordIndexToPercentage] lies in [0, 100]. *)
Theorem percentage_conversions_range (percentage : Q) (wordIndex totalWords : Z) :
  (0 < totalWords)%Z ->
  (0 <= percentageToWordIndex percentage totalWords <= totalWords)%Z
  /\ (percentageToWordIndex percentage totalWords = totalWords
      <-> (100 <= percentage)%Q)
  /\ ((0 <= wordIndex <= totalWords)%Z ->
      (0 <= wordIndexToPercentage wordIndex totalWords <= 100)%Z).
Proof.
  intros Hn. unfold percentageToWordIndex, wordIndexToPercentage.
  destruct (Z.leb_spec totalWords 0) as [|_]; [lia|].
  set (c := Qmax 0 (Qmin 100 percentage)).
  destruct (clamped_range percentage) as [H0 H100]. fold c in H0, H100.
  destruct (scaled_range c totalWords Hn H0 H100) as [Hlo Hhi].
  assert (HN : (0 < inject_Z totalWords)%Q)
    by (change 0%Q with (inject_Z 0); rewrite <- Zlt_Qlt; lia).
  split; [|split].
  - split.
    + change 0%Z with (Qfloor 0). apply Qfloor_resp_le, Hlo.
    + rewrite <- (Qfloor_Z totalWords) at 2. apply Qfloor_resp_le, Hhi.
  - split.
    + intros Hfloor.
      destruct (Qlt_le_dec percentage 100) as [Hlt | Hge]; [|exact Hge].
      exfalso.
      assert (Hc : (c < 100)%Q).
      { unfold c. apply Q.max_lub_lt; [reflexivity|].
        apply Q.min_lt_iff. right. exact Hlt. }
      assert (Hs : (c / 100 * inject_Z totalWords < inject_Z totalWords)%Q).
      { rewrite <- (Qmult_1_l (inject_Z totalWords)) at 2.
        apply Qmult_lt_compat_r; [exact HN|].
        apply Qlt_shift_div_r; [reflexivity | lra]. }
      pose proof (Qfloor_le (c / 100 * inject_Z totalWords)) as Hf.
      rewrite Hfloor in Hf. lra.
    + intros Hge.
      assert (Hc : (c == 100)%Q).
      { unfold c. rewrite Q.min_l by exact Hge. reflexivity. }
      assert (E : (c / 100 * inject_Z totalWords == inject_Z totalWords)%Q)
        by (rewrite Hc; field).
      rewrite E. apply Qfloor_Z.
  - intros Hw. unfold mathRound.
    set (x := (inject_Z wordIndex / inject_Z totalWords * 100)%Q).
    assert (Hx : (0 <= x)%Q /\ (x <= 100)%Q).
    { assert (Hw0 : (0 <= inject_Z wordIndex)%Q)
        by (change 0%Q with (inject_Z 0); rewrite <- Zle_Qle; lia).
      assert (Hw1 : (inject_Z wordIndex <= inject_Z totalWords)%Q)
        by (rewrite <- Zle_Qle; lia).
      assert (Hq0 : (0 <= inject_Z wordIndex / inject_Z totalWords)%Q)
        by (apply Qle_shift_div_l; [exact HN | lra]).
      assert (Hq1 : (inject_Z wordIndex / inject_Z totalWords <= 1)%Q)
        by (apply Qle_shift_div_r; [exact HN | lra]).
      unfold x. split; lra. }
    destruct Hx as [Hx0 Hx1]. split.
    + change 0%Z with (Qfloor 0). apply Qfloor_resp_le. lra.
    + change 100%Z with (Qfloor (100 + (1 # 2))). apply Qfloor_resp_le. lra.
Qed.

Lemma percentage_conversions_range_witness :
  percentageToWordIndex 250 300 = 300%Z
  /\ (0 <= wordIndexToPercentage 225 300 <= 100)%Z.
Proof.
  destruct (percentage_conversions_range 250 225 300 eq_refl)
    as (_ & Hend & Hpct).
  split; [apply Hend; discriminate | apply Hpct; lia].
Defined.
End StorageExtras.

(** ** The playback orchestrator: stalls, pausing and moving by hand *)

Module PlaybackExtras.
Import App PlaybackProofs.

(** *** Timers that fire *)

(** A step of the event loop: one of the pending timers fires. *)
Inductive timerStep : AppState -> AppState -> Prop :=
| timer_fires (st : AppState) (t : Timer) :
    t ∈ timers st -> timerStep st (fire t st).

(** No resume of an image display is pending. *)
Definition noImageResume (st : AppState) : Prop :=
  Forall (fun t => callback t <> CbImageResume) (timers st).

Lemma Forall_List_filter {A} (P : A -> Prop) (f : A -> bool) (l : list A) :
  Forall P l -> Forall P (List.filter f l).
Proof.
  induction 1 as [|x l Hx _ IH]; simpl; [constructor|].
  destruct (f x); [constructor; assumption | exact IH].
Qed.

Lemma clearTimer_noImageResume tid st :
  noImageResume st -> noImageResume (clearTimer tid st).
Proof.
  unfold noImageResume, clearTimer. intros H.
  replace (timers (set_timers _ st))
    with (List.filter (fun t => negb (timerId t =? tid)) (timers st))
    by (destruct st; reflexivity).
  apply Forall_List_filter, H.
Qed.

Lemma clearTimer_reading tid st : reading (clearTimer tid st) = reading st.
Proof. destruct st; reflexivity. Qed.

Lemma clearStepTimer_noImageResume st :
  noImageResume st -> noImageResume (clearStepTimer st).
Proof.
  unfold clearStepTimer. intros H. destruct (intervalId st) as [tid|]; [|exact H].
  apply (clearTimer_noImageResume tid) in H.
  unfold noImageResume in *.
  replace (timers (set_intervalId None (clearTimer tid st)))
    with (timers (clearTimer tid st)) by (destruct st; reflexivity).
  exact H.
Qed.

Lemma stopAutoSave_noImageResume st :
  noImageResume st -> noImageResume (stopAutoSave st).
Proof.
  unfold stopAutoSave. intros H.
  destruct (autoSaveIntervalId st) as [tid|]; [|exact H].
  apply (clearTimer_noImageResume tid) in H.
  unfold noImageResume in *.
  replace (timers (set_autoSaveIntervalId None (clearTimer tid st)))
    with (timers (clearTimer tid st)) by (destruct st; reflexivity).
  exact H.
Qed.

Lemma saveCurrentSession_timers st :
  timers (saveCurrentSession st) = timers st.
Proof.
  unfold saveCurrentSession. destruct (length (words st) =? 0);
    [reflexivity | destruct st; reflexivity].
Qed.

Lemma saveCurrentSession_reading st :
  reading (saveCurrentSession st) = reading st.
Proof.
  unfold saveCurrentSession. destruct (length (words st) =? 0);
    [reflexivity | destruct st; reflexivity].
Qed.

Lemma stop_noImageResume st : noImageResume st -> noImageResume (stop st).
Proof.
  intros H. unfold stop, noImageResume. rewrite saveCurrentSession_timers.
  apply stopAutoSave_noImageResume, clearStepTimer_noImageResume.
  unfold noImageResume. destruct st; exact H.
Qed.

Lemma scheduleNextWord_noImageResume st :
  noImageResume st -> noImageResume (scheduleNextWord st).
Proof.
  intros H. unfold scheduleNextWord.
  destruct (negb (isPlaying st) || atEnd st); [exact H|].
  unfold noImageResume, setTimeout in *.
  replace (timers _)
    with (timers st
          ++ [mkTimer (nextTimerId st) CbShowNextWord
                (getWordDelay st (wordAt st (currentWordIndex st - 1))) false])
    by (destruct st; reflexivity).
  apply Forall_app_2; [exact H|]. constructor; [discriminate | constructor].
Qed.

(** The forward step at the position of [st] displays no word, and the
    image marker there, if any, is one whose source is not available. *)
Definition stalled (st : AppState) : Prop :=
  displaysWord st = false
  /\ forall image, imageAtPosition st = Some image -> unavailable image = true.

Lemma stalled_reading st st' :
  reading st' = reading st -> stalled st -> stalled st'.
Proof.
  intros Hr [Hd Hi]. split; [rewrite (displaysWord_reading st st' Hr); exact Hd|].
  intros image Himg. apply Hi. rewrite <- Himg.
  unfold reading in Hr. unfold imageAtPosition.
  injection Hr as _ -> -> -> _. reflexivity.
Qed.

Lemma showNextWord_stalled st :
  stalled st -> noImageResume st ->
  reading (showNextWord st) = reading st /\ noImageResume (showNextWord st).
Proof.
  intros [Hd Hi] Hq. unfold showNextWord. unfold displaysWord in Hd.
  destruct (atEnd st).
  - split; [apply stop_reading | apply stop_noImageResume, Hq].
  - destruct (imageAtPosition st) as [image|].
    + unfold showImage. rewrite (Hi image eq_refl). split; [reflexivity | exact Hq].
    + simpl in Hd. apply negb_false_iff in Hd. rewrite Hd.
      split; [destruct st; reflexivity|].
      unfold noImageResume, setTimeout in *.
      replace (timers _)
        with (timers st
              ++ [mkTimer (nextTimerId st) CbPeriodicResume
                    (pauseDuration (settings st)) false])
        by (destruct st; reflexivity).
      apply Forall_app_2; [exact Hq|]. constructor; [discriminate | constructor].
Qed.

Lemma runCallback_stalled cb st :
  cb <> CbImageResume -> stalled st -> noImageResume st ->
  reading (runCallback cb st) = reading st
  /\ noImageResume (runCallback cb st).
Proof.
  intros Hcb Hs Hq. destruct cb; cbn [runCallback]; try congruence.
  - apply showNextWord_stalled; assumption.
  - split; [destruct st; reflexivity|].
    unfold noImageResume in *. destruct st; exact Hq.
  - destruct (isPlaying st); [|split; [reflexivity | exact Hq]]. split.
    + rewrite scheduleNextWord_reading. destruct st; reflexivity.
    + apply scheduleNextWord_noImageResume.
      unfold noImageResume in *. destruct st; exact Hq.
  - split; [apply saveCurrentSession_reading|].
    unfold noImageResume. rewrite saveCurrentSession_timers. exact Hq.
Qed.

Lemma timerStep_stalled st st' :
  stalled st -> noImageResume st -> timerStep st st' ->
  reading st' = reading st /\ noImageResume st'.
Proof.
  intros Hs Hq Hstep. destruct Hstep as [st t Hin].
  assert (Hcb : callback t <> CbImageResume).
  { unfold noImageResume in Hq. rewrite List.Forall_forall in Hq.
    apply Hq. apply list_elem_of_In, Hin. }
  unfold fire.
  set (st1 := if repeating t then st else clearTimer (timerId t) st).
  assert (Hr1 : reading st1 = reading st)
    by (unfold st1; destruct (repeating t); [reflexivity | apply clearTimer_reading]).
  assert (Hq1 : noImageResume st1)
    by (unfold st1; destruct (repeating t);
        [exact Hq | apply clearTimer_noImageResume, Hq]).
  destruct (runCallback_stalled (callback t) st1 Hcb
              (stalled_reading st st1 Hr1 Hs) Hq1) as [Hr Hq'].
  split; [congruence | exact Hq'].
Qed.

(** X26.  A stalled position stays: when the forward step at the position
    displays no word (the position is a periodic-pause boundary, holds
    the marker of an image without source, or is the end of the stream)
    and no image display is waiting to resume, then whatever pending
    timers fire, in whatever order and however often, the position, the
    word stream and the settings stay as they are.  In particular the
    resume after a periodic pause re-arms the step at the same boundary,
    which pauses again. *)
Theorem stalled_position_stays (st st' : AppState) :
  stalled st -> noImageResume st ->
  rtc timerStep st st' ->
  currentWordIndex st' = currentWordIndex st
  /\ reading st' = reading st
  /\ stalled st'.
Proof.
  intros Hs Hq Hrun.
  assert (H : reading st' = reading st /\ noImageResume st').
  { induction Hrun as [st | st mid st' Hstep _ IH]; [split; [reflexivity | exact Hq]|].
    destruct (timerStep_stalled st mid Hs Hq Hstep) as [Hr Hq'].
    destruct (IH (stalled_reading st mid Hr Hs) Hq') as [Hr' Hq''].
    split; [congruence | exact Hq'']. }
  destruct H as [Hr _].
  split; [unfold reading in Hr; congruence|].
  split; [exact Hr | apply (stalled_reading st st' Hr Hs)].
Qed.

(** The first pending timer fires. *)
Definition fireFirst (st : AppState) : AppState :=
  match timers st with
  | t :: _ => fire t st
  | [] => st
  end.

Lemma fireFirst_step st : timers st <> [] -> timerStep st (fireFirst st).
Proof.
  unfold fireFirst. destruct (timers st) as [|t rest] eqn:E; [congruence|].
  intros _. constructor. rewrite E. left.
Qed.

(** Playing with a pause after every word, one of three words shown, the
    step timer pending. *)
Definition atBoundary : AppState :=
  mkAppState threeWords (js "one two three") 1 true false false false
    (100 # 3) rsvp (Some (smallDocument [])) 0 0 false None None
    (mkSettings 300 false 150 1 500 true 2 3 50 1 true 3)
    1 (Some 1) None None None false [stepTimer] 2 [].

Lemma stalled_position_stays_witness :
  let afterStep := fireFirst atBoundary in
  let afterResume := fireFirst afterStep in
  let afterStepAgain := fireFirst afterResume in
  map callback (timers afterStep) = [CbPeriodicResume]
  /\ map callback (timers afterResume) = [CbShowNextWord]
  /\ map callback (timers afterStepAgain) = [CbPeriodicResume]
  /\ currentWordIndex afterStepAgain = 1%Z.
Proof.
  intros afterStep afterResume afterStepAgain.
  assert (Hs : stalled atBoundary)
    by (split; [reflexivity | intros image H; discriminate H]).
  assert (Hq : noImageResume atBoundary)
    by (repeat constructor; discriminate).
  assert (Hrun : rtc timerStep atBoundary afterStepAgain).
  { eapply rtc_l; [apply fireFirst_step; discriminate|].
    eapply rtc_l; [apply fireFirst_step; discriminate|].
    eapply rtc_l; [apply fireFirst_step; discriminate|].
    apply rtc_refl. }
  destruct (stalled_position_stays atBoundary afterStepAgain Hs Hq Hrun)
    as (Hidx & _).
  repeat split; exact Hidx.
Defined.

(** *** Pausing and resuming *)

Lemma stopAutoSave_reading st : reading (stopAutoSave st) = reading st.
Proof. frame st. Qed.

Lemma clearStepTimer_reading st : reading (clearStepTimer st) = reading st.
Proof. frame st. Qed.

Lemma atEnd_reading st st' : reading st' = reading st -> atEnd st' = atEnd st.
Proof. unfold reading, atEnd. intros H. injection H as -> -> _ _ _. reflexivity. Qed.

Lemma getWordDelay_reading st st' word :
  reading st' = reading st -> getWordDelay st' word = getWordDelay st word.
Proof. unfold reading, getWordDelay. intros H. injection H as _ _ -> _ _. reflexivity. Qed.

Lemma wordAt_reading st st' i :
  reading st' = reading st -> wordAt st' i = wordAt st i.
Proof. unfold reading, wordAt. intros H. injection H as -> _ _ _ _. reflexivity. Qed.

(** The step timer that [scheduleNextWord] creates while playing before
    the end. *)
Lemma scheduleNextWord_timer st :
  isPlaying st = true -> atEnd st = false ->
  timers (scheduleNextWord st)
  = timers st ++ [mkTimer (nextTimerId st) CbShowNextWord
                    (getWordDelay st (wordAt st (currentWordIndex st - 1)))
                    false]
  /\ intervalId (scheduleNextWord st) = Some (nextTimerId st)
  /\ isPlaying (scheduleNextWord st) = true
  /\ isPaused (scheduleNextWord st) = isPaused st
  /\ autoSaveIntervalId (scheduleNextWord st) = autoSaveIntervalId st.
Proof.
  intros Hp He. unfold scheduleNextWord. rewrite Hp, He. simpl.
  repeat split; destruct st; simpl in *; congruence.
Qed.

Lemma saveCurrentSession_controls st :
  isPlaying (saveCurrentSession st) = isPlaying st
  /\ isPaused (saveCurrentSession st) = isPaused st
  /\ intervalId (saveCurrentSession st) = intervalId st
  /\ autoSaveIntervalId (saveCurrentSession st) = autoSaveIntervalId st.
Proof.
  unfold saveCurrentSession. destruct (length (words st) =? 0);
    [repeat split | destruct st; repeat split].
Qed.

Lemma stopAutoSave_controls st :
  isPlaying (stopAutoSave st) = isPlaying st
  /\ isPaused (stopAutoSave st) = isPaused st
  /\ intervalId (stopAutoSave st) = intervalId st
  /\ autoSaveIntervalId (stopAutoSave st) = None.
Proof.
  unfold stopAutoSave. destruct (autoSaveIntervalId st) eqn:E;
    [destruct st; repeat split | repeat split; exact E].
Qed.

Lemma clearStepTimer_controls st :
  isPlaying (clearStepTimer st) = isPlaying st
  /\ isPaused (clearStepTimer st) = isPaused st
  /\ intervalId (clearStepTimer st) = None.
Proof.
  unfold clearStepTimer. destruct (intervalId st) eqn:E;
    [destruct st; repeat split | repeat split; exact E].
Qed.

Lemma pause_controls st :
  isPlaying (pause st) = false /\ isPaused (pause st) = true
  /\ intervalId (pause st) = None /\ autoSaveIntervalId (pause st) = None.
Proof.
  unfold pause.
  destruct (saveCurrentSession_controls
              (stopAutoSave (clearStepTimer
                               (set_isPaused true (set_isPlaying false st)))))
    as (-> & -> & -> & ->).
  destruct (stopAutoSave_controls
              (clearStepTimer (set_isPaused true (set_isPlaying false st))))
    as (-> & -> & -> & ->).
  destruct (clearStepTimer_controls
              (set_isPaused true (set_isPlaying false st)))
    as (-> & -> & ->).
  repeat split; destruct st; reflexivity.
Qed.

(** X27.  Pausing keeps the position, cancels the pending step and saves
    the session at the position; resuming from there continues at the
    same position: it re-arms the step with the delay of the word shown
    last, [words[currentWordIndex - 1]]. *)
Theorem pause_then_resume (st : AppState) :
  words st <> [] -> atEnd st = false ->
  let paused := pause st in
  let resumed := resume paused in
  reading paused = reading st
  /\ isPlaying paused = false /\ isPaused paused = true
  /\ intervalId paused = None
  /\ (forall tid, intervalId st = Some tid ->
        Forall (fun t => timerId t <> tid) (timers paused))
  /\ (exists session, last (saved paused) = Some session
        /\ sessionWordIndex session = currentWordIndex st
        /\ sessionTotalWords session = length (words st))
  /\ reading resumed = reading st
  /\ isPlaying resumed = true /\ isPaused resumed = false
  /\ exists t, t ∈ timers resumed
       /\ callback t = CbShowNextWord
       /\ delay t = getWordDelay st (wordAt st (currentWordIndex st - 1))
       /\ intervalId resumed = Some (timerId t).
Proof.
  intros Hw He paused resumed.
  assert (Hr : reading paused = reading st) by apply pause_reading.
  assert (Hne : (length (words st) =? 0) = false) by (apply length_eqb_0, Hw).
  split; [exact Hr|].
  destruct (pause_controls st) as (Hplay & Hpaused & Hint & Hauto).
  fold paused in Hplay, Hpaused, Hint, Hauto.
  split; [exact Hplay|]. split; [exact Hpaused|]. split; [exact Hint|].
  split.
  { intros tid Htid. unfold paused, pause. rewrite saveCurrentSession_timers.
    assert (H : Forall (fun t => timerId t <> tid)
                  (timers (clearStepTimer
                             (set_isPaused true (set_isPlaying false st))))).
    { unfold clearStepTimer, clearTimer.
      replace (intervalId (set_isPaused true (set_isPlaying false st)))
        with (Some tid) by (rewrite <- Htid; destruct st; reflexivity).
      replace (timers _)
        with (List.filter (fun t => negb (timerId t =? tid)) (timers st))
        by (destruct st; reflexivity).
      apply List.Forall_forall. intros t Ht. apply List.filter_In in Ht as [_ Ht].
      apply negb_true_iff, Nat.eqb_neq in Ht. exact Ht. }
    revert H. generalize (clearStepTimer (set_isPaused true (set_isPlaying false st))).
    intros s H. unfold stopAutoSave. destruct (autoSaveIntervalId s) as [a|]; [|exact H].
    replace (timers _) with (List.filter (fun t => negb (timerId t =? a)) (timers s))
      by (destruct s; reflexivity).
    apply Forall_List_filter, H. }
  split.
  { unfold paused, pause.
    set (s := stopAutoSave _).
    assert (Hs : reading s = reading st).
    { unfold s. rewrite stopAutoSave_reading, clearStepTimer_reading.
      destruct st; reflexivity. }
    unfold saveCurrentSession.
    replace (words s) with (words st) by (unfold reading in Hs; congruence).
    rewrite Hne. exists (currentSession s).
    split; [destruct s; simpl; apply last_snoc|].
    unfold currentSession, reading in *. simpl. split; congruence. }
  assert (Hpe : atEnd paused = false) by (rewrite (atEnd_reading st paused Hr); exact He).
  unfold resumed, resume. rewrite Hpe.
  set (s := set_isPaused false (set_isPlaying true paused)).
  assert (Hsr : reading s = reading st) by (rewrite <- Hr; destruct paused; reflexivity).
  destruct (scheduleNextWord_timer s) as (Ht & Hi & Hp & Hpa & Ha);
    [destruct paused; reflexivity
    | rewrite (atEnd_reading st s Hsr); exact He |].
  set (s' := scheduleNextWord s) in *.
  assert (Hs'r : reading s' = reading st)
    by (unfold s'; rewrite scheduleNextWord_reading; exact Hsr).
  split; [rewrite startAutoSave_reading; exact Hs'r|].
  assert (Hauto' : autoSaveIntervalId s' = None)
    by (rewrite Ha; unfold s; rewrite <- Hauto; destruct paused; reflexivity).
  assert (Hstart : isPlaying (startAutoSave s') = isPlaying s'
                   /\ isPaused (startAutoSave s') = isPaused s'
                   /\ intervalId (startAutoSave s') = intervalId s'
                   /\ timers (startAutoSave s')
                      = timers s' ++ [mkTimer (nextTimerId s') CbAutoSave 10000 true]).
  { unfold startAutoSave, stopAutoSave. rewrite Hauto'.
    unfold saveCurrentSession, setInterval.
    destruct (length (words s') =? 0); destruct s'; repeat split. }
  destruct Hstart as (H1 & H2 & H3 & H4).
  split; [rewrite H1; exact Hp|].
  split; [rewrite H2, Hpa; destruct paused; reflexivity|].
  eexists. split; [rewrite H4, Ht; apply elem_of_app; left; apply elem_of_app; right; left|].
  cbn [callback delay timerId].
  split; [reflexivity|]. split.
  - rewrite (getWordDelay_reading st s _ Hsr), (wordAt_reading st s _ Hsr).
    unfold reading in Hsr. replace (currentWordIndex s) with (currentWordIndex st) by congruence.
    reflexivity.
  - rewrite H3. exact Hi.
Qed.

Lemma pause_then_resume_witness :
  currentWordIndex (resume (pause (playingAt1 []))) = 1%Z
  /\ isPlaying (resume (pause (playingAt1 []))) = true
  /\ timers (pause (playingAt1 [])) = [].
Proof.
  assert (Hw : words (playingAt1 []) <> []) by discriminate.
  destruct (pause_then_resume (playingAt1 []) Hw eq_refl)
    as (_ & _ & _ & _ & _ & _ & Hr & Hp & _).
  pose proof (f_equal (fun r => snd (fst (fst (fst r)))) Hr) as Hi.
  split; [exact Hi | split; [exact Hp | reflexivity]].
Defined.

(** *** The forward step on an ordinary word *)

Lemma advanceWord_before_schedule st :
  exists st3,
    advanceWord st = scheduleNextWord st3
    /\ words st3 = words st /\ settings st3 = settings st
    /\ currentWordIndex st3 = (currentWordIndex st + 1)%Z
    /\ isPlaying st3 = isPlaying st
    /\ intervalId st3 = intervalId st
    /\ map callback (timers st3)
       = map callback (timers st)
         ++ (if fadeEnabled (settings st) then [CbFadeIn] else []).
Proof.
  unfold advanceWord. eexists. split; [reflexivity|].
  destruct st. unfold setTimeout. simpl.
  destruct (fadeEnabled settings0); simpl;
    destruct readingMode0; try destruct contentStructure0; simpl;
    rewrite ?map_app, ?app_nil_r; repeat split.
Qed.

(** X28.  While playing, the forward step on a position where it displays
    a word advances the position by one and stays in the playing state.
    Before the end it arms the next step with the delay of the word just
    displayed; on the last word it arms nothing, and leaves the step
    handle as it was. *)
Theorem showNextWord_displays_and_schedules (st : AppState) :
  isPlaying st = true -> displaysWord st = true ->
  let st' := showNextWord st in
  currentWordIndex st' = (currentWordIndex st + 1)%Z
  /\ isPlaying st' = true
  /\ (atEnd st' = false ->
      exists t, last (timers st') = Some t
        /\ callback t = CbShowNextWord /\ repeating t = false
        /\ delay t = getWordDelay st (wordAt st (currentWordIndex st))
        /\ intervalId st' = Some (timerId t))
  /\ (atEnd st' = true ->
      intervalId st' = intervalId st
      /\ map callback (timers st')
         = map callback (timers st)
           ++ (if fadeEnabled (settings st) then [CbFadeIn] else [])).
Proof.
  intros Hplay Hd st'.
  assert (Hstep : st' = advanceWord st).
  { unfold st', showNextWord. unfold displaysWord in Hd.
    destruct (atEnd st); [discriminate|].
    destruct (imageAtPosition st); [discriminate|].
    simpl in Hd. apply negb_true_iff in Hd. rewrite Hd. reflexivity. }
  destruct (advanceWord_before_schedule st)
    as (st3 & Hadv & Hw & Hset & Hidx & Hp3 & Hint & Htimers).
  rewrite Hstep, Hadv.
  assert (Hend : atEnd (scheduleNextWord st3) = atEnd st3).
  { apply atEnd_reading, scheduleNextWord_reading. }
  split; [rewrite scheduleNextWord_index; exact Hidx|].
  rewrite Hend. destruct (atEnd st3) eqn:E3.
  - assert (Hsame : scheduleNextWord st3 = st3).
    { unfold scheduleNextWord. rewrite E3, orb_true_r. reflexivity. }
    rewrite Hsame. split; [congruence|]. split; [discriminate|].
    intros _. split; assumption.
  - destruct (scheduleNextWord_timer st3) as (Ht & Hi & Hp & _);
      [congruence | exact E3 |].
    split; [exact Hp|]. split; [|discriminate]. intros _.
    eexists. split; [rewrite Ht; apply last_snoc|].
    cbn [callback repeating delay timerId].
    split; [reflexivity|]. split; [reflexivity|]. split; [|exact Hi].
    rewrite Hidx, Z.add_simpl_r.
    unfold getWordDelay, wordAt. rewrite Hset, Hw. reflexivity.
Qed.

Lemma showNextWord_displays_and_schedules_witness :
  let st' := showNextWord (playingAt1 []) in
  currentWordIndex st' = 2%Z
  /\ exists t, last (timers st') = Some t
       /\ callback t = CbShowNextWord
       /\ delay t = getWordDelay (playingAt1 []) (js "two").
Proof.
  intros st'.
  destruct (showNextWord_displays_and_schedules (playingAt1 []) eq_refl eq_refl)
    as (Hidx & _ & Hnext & _).
  split; [exact Hidx|].
  destruct (Hnext eq_refl) as (t & Hlast & Hcb & _ & Hdelay & _).
  exists t. split; [exact Hlast | split; [exact Hcb | exact Hdelay]].
Defined.

(** *** After the last word *)

(** Only fade-ins and auto-saves are pending. *)
Definition onlyHousekeeping (st : AppState) : Prop :=
  Forall (fun t => callback t = CbFadeIn \/ callback t = CbAutoSave)
    (timers st).

Lemma housekeeping_step st st' :
  onlyHousekeeping st -> timerStep st st' ->
  onlyHousekeeping st' /\ reading st' = reading st
  /\ isPlaying st' = isPlaying st.
Proof.
  intros Hh Hstep. destruct Hstep as [st t Hin].
  assert (Hcb : callback t = CbFadeIn \/ callback t = CbAutoSave).
  { unfold onlyHousekeeping in Hh. rewrite List.Forall_forall in Hh.
    apply Hh. apply list_elem_of_In, Hin. }
  unfold fire.
  set (st1 := if repeating t then st else clearTimer (timerId t) st).
  assert (H1 : onlyHousekeeping st1 /\ reading st1 = reading st
               /\ isPlaying st1 = isPlaying st).
  { unfold st1. destruct (repeating t); [repeat split; exact Hh|].
    split; [|split; destruct st; reflexivity].
    unfold onlyHousekeeping, clearTimer.
    replace (timers (set_timers _ st))
      with (List.filter (fun t' => negb (timerId t' =? timerId t)) (timers st))
      by (destruct st; reflexivity).
    apply Forall_List_filter, Hh. }
  destruct H1 as (Hh1 & Hr1 & Hp1).
  destruct Hcb as [-> | ->]; cbn [runCallback].
  - split; [unfold onlyHousekeeping in *; destruct st1; exact Hh1|].
    split; [rewrite <- Hr1 | rewrite <- Hp1]; destruct st1; reflexivity.
  - split; [unfold onlyHousekeeping; rewrite saveCurrentSession_timers; exact Hh1|].
    split; [rewrite saveCurrentSession_reading; exact Hr1|].
    destruct (saveCurrentSession_controls st1) as (-> & _). exact Hp1.
Qed.

(** X29.  Playback that shows the last word never stops by itself: the
    forward step on the last word arms no further step, so with only
    fade-ins and auto-saves pending, whatever timers fire afterwards the
    component stays in the playing state at the end of the stream; the
    [stop] of the forward step at the end is not reached. *)
Theorem playback_past_last_word_stays_playing (st final : AppState) :
  isPlaying st = true -> displaysWord st = true ->
  (currentWordIndex st + 1)%Z = Z.of_nat (length (words st)) ->
  onlyHousekeeping st ->
  rtc timerStep (showNextWord st) final ->
  isPlaying final = true
  /\ currentWordIndex final = Z.of_nat (length (words final))
  /\ onlyHousekeeping final.
Proof.
  intros Hplay Hd Hlast Hh Hrun.
  assert (Hstep : showNextWord st = advanceWord st).
  { unfold showNextWord. unfold displaysWord in Hd.
    destruct (atEnd st); [discriminate|].
    destruct (imageAtPosition st); [discriminate|].
    simpl in Hd. apply negb_true_iff in Hd. rewrite Hd. reflexivity. }
  destruct (advanceWord_before_schedule st)
    as (st3 & Hadv & Hw & Hset & Hidx & Hp3 & Hint & Htimers).
  assert (E3 : atEnd st3 = true)
    by (unfold atEnd; rewrite Hw, Hidx; apply Z.leb_le; lia).
  assert (Hsame : scheduleNextWord st3 = st3)
    by (unfold scheduleNextWord; rewrite E3, orb_true_r; reflexivity).
  rewrite Hstep, Hadv, Hsame in Hrun.
  assert (Hh3 : onlyHousekeeping st3).
  { unfold onlyHousekeeping in *.
    assert (H : Forall (fun cb => cb = CbFadeIn \/ cb = CbAutoSave)
                  (map callback (timers st3))).
    { rewrite Htimers. apply Forall_app_2.
      - apply Forall_fmap. exact Hh.
      - destruct (fadeEnabled (settings st)); repeat constructor. }
    apply Forall_fmap in H. exact H. }
  assert (Hinv : onlyHousekeeping final /\ reading final = reading st3
                 /\ isPlaying final = isPlaying st3).
  { clear -Hrun Hh3.
    induction Hrun as [s | s mid final Hstep _ IH]; [repeat split; exact Hh3|].
    destruct (housekeeping_step s mid Hh3 Hstep) as (Hm & Hr & Hp).
    destruct (IH Hm) as (Hf & Hr' & Hp'). repeat split; congruence. }
  destruct Hinv as (Hf & Hr & Hp).
  split; [congruence|]. split; [|exact Hf].
  unfold reading in Hr. injection Hr as -> -> _ _ _.
  rewrite Hidx, Hw. exact Hlast.
Qed.

(** Playing, two of three words shown, the auto-save interval pending. *)
Definition playingAt2 : AppState :=
  mkAppState threeWords (js "one two three") 2 true false false false
    (200 # 3) rsvp (Some (smallDocument [])) 0 0 false None None
    defaultSettings 1 None None (Some 1) None false
    [mkTimer 1 CbAutoSave 10000 true] 2 [].

Lemma playback_past_last_word_stays_playing_witness :
  let final := fireFirst (fireFirst (showNextWord playingAt2)) in
  isPlaying final = true /\ currentWordIndex final = 3%Z.
Proof.
  intros final.
  assert (Hh : onlyHousekeeping playingAt2)
    by (repeat constructor; right; reflexivity).
  assert (Hrun : rtc timerStep (showNextWord playingAt2) final).
  { eapply rtc_l; [apply fireFirst_step; discriminate|].
    eapply rtc_l; [apply fireFirst_step; discriminate|].
    apply rtc_refl. }
  destruct (playback_past_last_word_stays_playing playingAt2 final
              eq_refl eq_refl eq_refl Hh Hrun) as (Hp & Hi & _).
  split; [exact Hp | exact Hi].
Defined.

(** *** Moving the position by hand *)

Inductive Move :=
| ProgressClick (percentage : Q)
| KeyArrowLeft
| KeyArrowRight.

Definition move (m : Move) (st : AppState) : AppState :=
  match m with
  | ProgressClick percentage => handleProgressClick percentage st
  | KeyArrowLeft => arrowLeft st
  | KeyArrowRight => arrowRight st
  end.

(** The position is a word index or the end of the stream. *)
Definition inRange (st : AppState) : Prop :=
  (0 <= currentWordIndex st <= Z.of_nat (length (words st)))%Z.

Lemma move_words m st : words (move m st) = words st.
Proof.
  destruct m; cbn [move]; unfold handleProgressClick, arrowLeft, arrowRight.
  - destruct st; reflexivity.
  - destruct (1 <? currentWordIndex st)%Z; destruct st; reflexivity.
  - destruct (currentWordIndex st <? _)%Z; destruct st; reflexivity.
Qed.

Lemma move_inRange m st : inRange st -> inRange (move m st).
Proof.
  unfold inRange. rewrite move_words. intros H.
  destruct m; cbn [move]; unfold handleProgressClick, arrowLeft, arrowRight.
  - replace (currentWordIndex _)
      with (Z.max 0 (Z.min (Z.of_nat (length (words st)))
                       (Qfloor (percentage / 100
                                * inject_Z (Z.of_nat (length (words st)))))))
      by (destruct st; reflexivity).
    lia.
  - destruct (Z.ltb_spec 1 (currentWordIndex st)); [|exact H].
    replace (currentWordIndex _) with (Z.max 0 (currentWordIndex st - 2))
      by (destruct st; reflexivity).
    lia.
  - destruct (Z.ltb_spec (currentWordIndex st) (Z.of_nat (length (words st))));
      [|exact H].
    replace (currentWordIndex _) with (currentWordIndex st + 1)%Z
      by (destruct st; reflexivity).
    lia.
Qed.

(** X30.  Moving by hand keeps the position in range: after any sequence
    of clicks on the progress bar (with whatever percentage the event
    carries) and presses of the left and right arrow keys, the position is
    a word index of the stream or its end, and the stream is unchanged.
    A click on the progress bar lands in range from any position. *)
Theorem moving_by_hand_stays_in_range (moves : list Move) (st : AppState) :
  inRange st ->
  inRange (foldl (fun s m => move m s) st moves)
  /\ words (foldl (fun s m => move m s) st moves) = words st
  /\ forall percentage s, inRange (handleProgressClick percentage s).
Proof.
  intros H. split; [|split].
  - revert st H. induction moves as [|m moves IH]; intros st H; [exact H|].
    simpl. apply IH, move_inRange, H.
  - clear H. revert st. induction moves as [|m moves IH]; intros st; [reflexivity|].
    simpl. rewrite IH. apply move_words.
  - intros percentage s.
    assert (Hw : words (handleProgressClick percentage s) = words s)
      by (destruct s; reflexivity).
    assert (Hi : currentWordIndex (handleProgressClick percentage s)
                 = Z.max 0 (Z.min (Z.of_nat (length (words s)))
                              (Qfloor (percentage / 100
                                       * inject_Z (Z.of_nat (length (words s)))))))
      by (destruct s; reflexivity).
    unfold inRange. rewrite Hw, Hi. lia.
Qed.

Lemma moving_by_hand_stays_in_range_witness :
  inRange pausedAt1
  /\ inRange (foldl (fun s m => move m s) pausedAt1
                [KeyArrowRight; KeyArrowRight; KeyArrowRight; ProgressClick 250;
                 KeyArrowLeft]).
Proof.
  assert (H : inRange pausedAt1) by (unfold inRange; simpl; lia).
  split; [exact H|].
  apply (moving_by_hand_stays_in_range _ pausedAt1 H).
Defined.

End PlaybackExtras.
